(** * Generalized inner-product retrieval: a shallow embedding of
    [retrieval/gip_retrieval.py]

    The retrieval script scores every corpus vector against a query vector
    with a gated inner product, selects the best [topk] rows, optionally
    after a cheaper first stage, and writes a ranked list.

    Conventions of the embedding.
    - Scalars.  Embedding entries, scores, [theta] and [lamda] are integers
      ([Z]) with exact arithmetic; rounding of 32-bit floats is not
      modelled.  Argument ids are integers as in the source.
    - Tensors.  A 1-D tensor is a list, a 2-D tensor a list of rows.  The
      pointwise operations walk their operands in step and stop at the
      shorter one, and reading a column that a row does not have gives 0;
      torch raises (or broadcasts a width-1 operand) on operands of
      different shapes and raises on a missing column.  The model follows
      the script on inputs of matching shapes only: the theorems that say
      what the scores of a result are, or that a call returns, assume
      rectangular inputs of a common width and parallel arrays.
    - Failure.  A Python exception is [None].  The exceptions followed are
      the ones the script can raise on well-shaped inputs: [torch.topk]
      with [k] larger than the tensor, indexing out of range, padding or
      indexing [None], a failed [assert], a name that is not bound, and
      division by zero.
    - Counts ([topk], [agip_topk], [batch], [emb_dim], shard numbers) are
      natural numbers.
    - Ties.  torch leaves the order among equal values open, and need not
      break ties the same way in [torch.topk] and [torch.argsort]; the
      model puts the lower index first in both.  Theorems that compare the
      two routines assume values without ties.
    - The function [faiss_search] of the script (flat GPU index) is never
      called and is left out. *)

From Stdlib Require Import String.
From Stdlib Require Import ZArith List Lia Bool Permutation Sorted.
Import ListNotations.
Local Open Scope Z_scope.

Definition vec := list Z.
Definition mat := list vec.
Definition ivec := list Z.
Definition imat := list ivec.
Definition bvec := list bool.
Definition bmat := list bvec.

(** ** Exceptions as [option] *)

Definition bind {A B : Type} (x : option A) (k : A -> option B) : option B :=
  match x with
  | Some a => k a
  | None => None
  end.

Notation "x <- e ;; k" := (bind e (fun x => k))
  (at level 61, e at next level, right associativity).
Notation "' p <- e ;; k" := (bind e (fun p => k))
  (at level 61, p pattern, e at next level, right associativity).

(** A [for] loop whose body may raise. *)
Fixpoint foldM {A S : Type} (body : S -> A -> option S) (l : list A) (s : S)
  : option S :=
  match l with
  | [] => Some s
  | a :: l' => s' <- body s a ;; foldM body l' s'
  end.

Definition enumerate {A : Type} (l : list A) : list (nat * A) :=
  combine (seq 0 (length l)) l.

(** Python slices [l[lo:]] and [l[lo:hi]] for non-negative bounds. *)
Definition slice_from {A : Type} (lo : nat) (l : list A) : list A :=
  skipn lo l.

Definition slice {A : Type} (lo hi : nat) (l : list A) : list A :=
  skipn lo (firstn hi l).

(** ** The tensor operations the script uses *)

Module Torch.

(** [torch.einsum('ij,j->i', (m, v))]: one dot product per row.  For rows
    as wide as [v]; on a width mismatch torch raises, the model stops at
    the shorter operand. *)
Fixpoint dot (a b : vec) : Z :=
  match a, b with
  | x :: a', y :: b' => x * y + dot a' b'
  | _, _ => 0
  end.

Definition einsum_ij_j (m : mat) (v : vec) : vec :=
  map (fun row => dot row v) m.

(** [a == b] on 1-D integer tensors of one width (torch raises or
    broadcasts otherwise; the model stops at the shorter operand). *)
Fixpoint eq_vec (a b : ivec) : bvec :=
  match a, b with
  | x :: a', y :: b' => (x =? y) :: eq_vec a' b'
  | _, _ => []
  end.

(** [m == v] with [v] broadcast over the rows of [m]. *)
Definition eq_rows (m : imat) (v : ivec) : bmat :=
  map (fun row => eq_vec row v) m.

(** [mask * x]: a boolean tensor times a numeric one of the same shape. *)
Fixpoint mul_bvec (mask : bvec) (x : vec) : vec :=
  match mask, x with
  | b :: mask', e :: x' => (if b then e else 0) :: mul_bvec mask' x'
  | _, _ => []
  end.

Fixpoint mul_bmat (mask : bmat) (m : mat) : mat :=
  match mask, m with
  | r :: mask', e :: m' => mul_bvec r e :: mul_bmat mask' m'
  | _, _ => []
  end.

(** [torch.nn.functional.pad(m, (0, n), mode='constant', value=v)]. *)
Definition pad (m : imat) (n : nat) (v : Z) : imat :=
  map (fun row => row ++ repeat v n) m.

(** [int((v > theta).sum())]. *)
Definition count_gt (v : vec) (theta : Z) : nat :=
  length (filter (fun x => theta <? x) v).

(** [m.shape[1]] of a rectangular matrix. *)
Definition shape1 {A : Type} (m : list (list A)) : nat :=
  match m with
  | [] => 0%nat
  | row :: _ => length row
  end.

(** [l[idx]] for indices known to be in range (torch raises on an index
    out of range; the model reads the default). *)
Definition gather {A : Type} (d : A) (l : list A) (idx : list nat) : list A :=
  map (fun i => nth i l d) idx.

(** [m[:, idx]] for column indices every row has. *)
Definition gather_cols {A : Type} (d : A) (m : list (list A)) (idx : list nat)
  : list (list A) :=
  map (fun row => gather d row idx) m.

(** [m[idx]] (also [m[idx, :]]) where an index may be out of range. *)
Fixpoint select_rows {A : Type} (m : list A) (idx : list nat)
  : option (list A) :=
  match idx with
  | [] => Some []
  | i :: idx' =>
      r <- nth_error m i ;;
      rs <- select_rows m idx' ;;
      Some (r :: rs)
  end.

(** Sorting by descending value.  torch leaves the order among equal
    values open; the model puts the lower index first. *)
Fixpoint insert_desc (p : Z * nat) (l : list (Z * nat)) : list (Z * nat) :=
  match l with
  | [] => [p]
  | h :: t => if fst p <? fst h then h :: insert_desc p t else p :: l
  end.

Definition sort_desc (l : list (Z * nat)) : list (Z * nat) :=
  fold_right insert_desc [] l.

(** [torch.argsort(v, descending=True)]. *)
Definition argsort_desc (v : vec) : list nat :=
  map snd (sort_desc (combine v (seq 0 (length v)))).

(** [torch.topk(v, k, dim=0).indices]: raises when [k] exceeds the size.
    The indices come by descending value; among equal values the model
    takes the order of [argsort_desc], which torch does not promise. *)
Definition topk (v : vec) (k : nat) : option (list nat) :=
  if (k <=? length v)%nat then Some (firstn k (argsort_desc v)) else None.

End Torch.

(** ** Result dictionaries

    [all_results] and [all_scores] are Python dicts keyed by query id.  The
    writer iterates them in insertion order, so they are association lists:
    assigning to a key that is present replaces its value in place. *)

Definition dict (V : Type) := list (string * V).

Fixpoint dict_set {V : Type} (d : dict V) (k : string) (v : V) : dict V :=
  match d with
  | [] => [(k, v)]
  | (k', v') :: d' =>
      if String.eqb k' k then (k', v) :: d' else (k', v') :: dict_set d' k v
  end.

Fixpoint dict_get {V : Type} (d : dict V) (k : string) : option V :=
  match d with
  | [] => None
  | (k', v') :: d' => if String.eqb k' k then Some v' else dict_get d' k
  end.

Definition dict_keys {V : Type} (d : dict V) : list string := map fst d.

(** ** Command-line options *)

Record Args := {
  faiss_pq_index_path : option string;
  emb_dim : nat;
  theta : Z;
  topk : nat;
  agip_topk : nat;
  IP : bool;
  PQIP : bool;
  batch : nat;
  brute_force : bool;
  rerank : bool;
  lamda : Z;
  total_shrad : nat;
  shrad : nat;
  run_name : string
}.

Definition results_t : Type := dict (list nat) * dict vec.

(** ** [IP_retrieval] *)

(** Loop body, lines 74-76. *)
Definition IP_query (args : Args) (query_emb : vec) (corpus_embs : mat)
  : list nat * vec :=
  let scores := Torch.einsum_ij_j corpus_embs query_emb in
  let sort_candidates := firstn (topk args) (Torch.argsort_desc scores) in
  let sort_scores := Torch.gather 0 scores sort_candidates in
  (sort_candidates, sort_scores).

Definition store (qids : list string) (i : nat) (acc : results_t)
  (r : list nat * vec) : option results_t :=
  qid <- nth_error qids i ;;
  Some (dict_set (fst acc) qid (fst r), dict_set (snd acc) qid (snd r)).

Definition IP_retrieval (qids : list string) (query_embs corpus_embs : mat)
  (args : Args) : option results_t :=
  acc <- foldM (fun acc '(i, query_emb) =>
                  store qids i acc (IP_query args query_emb corpus_embs))
               (enumerate query_embs) ([], []) ;;
  (* time_per_query divides by the number of queries *)
  if (length query_embs =? 0)%nat then None else Some acc.

(** ** [GIP_retrieval] *)

(** [(arg_idxs == query_arg_idx) * embs] followed by the einsum. *)
Definition gated_scores (embs : mat) (arg_idxs : imat) (query_emb : vec)
  (query_arg_idx : ivec) : vec :=
  let candidate_sparse_embs :=
    Torch.mul_bmat (Torch.eq_rows arg_idxs query_arg_idx) embs in
  Torch.einsum_ij_j candidate_sparse_embs query_emb.

(** Lines 144-150 (and 207-212): exact scores on a shortlist, then top-k. *)
Definition rerank_shortlist (args : Args) (query_emb : vec)
  (query_arg_idx : ivec) (corpus_embs : mat) (corpus_arg_idxs : imat)
  (candidates : list nat) : option (list nat * vec) :=
  arg_rows <- Torch.select_rows corpus_arg_idxs candidates ;;
  emb_rows <- Torch.select_rows corpus_embs candidates ;;
  let scores := gated_scores emb_rows arg_rows query_emb query_arg_idx in
  sort_idx <- Torch.topk scores (topk args) ;;
  let sort_candidates := Torch.gather 0%nat candidates sort_idx in
  let sort_scores := Torch.gather 0 scores sort_idx in
  Some (sort_candidates, sort_scores).

(** Lines 130-139: the first-stage scores when [theta] is not 0. *)
Definition partial_scores_of (args : Args) (th : Z) (query_emb : vec)
  (query_arg_idx : ivec) (corpus_embs : mat) (corpus_arg_idxs : imat)
  : option vec :=
  let num_idx := Torch.count_gt query_emb th in
  important_idx <- Torch.topk query_emb num_idx ;;
  if negb (IP args) then
    Some (gated_scores (Torch.gather_cols 0 corpus_embs important_idx)
                       (Torch.gather_cols 0 corpus_arg_idxs important_idx)
                       (Torch.gather 0 query_emb important_idx)
                       (Torch.gather 0 query_arg_idx important_idx))
  else
    Some (Torch.einsum_ij_j corpus_embs query_emb).

(** Loop body, lines 117-156; [th] is [args.theta] as the loop sees it. *)
Definition GIP_query (args : Args) (th : Z) (query_emb : vec)
  (query_arg_idx : ivec) (corpus_embs : mat) (corpus_arg_idxs : imat)
  : option (list nat * vec) :=
  if th =? 0 then
    let scores :=
      gated_scores corpus_embs corpus_arg_idxs query_emb query_arg_idx in
    sort_idx <- Torch.topk scores (topk args) ;;
    let sort_candidates := sort_idx in
    let sort_scores := Torch.gather 0 scores sort_idx in
    Some (sort_candidates, sort_scores)
  else
    partial_scores <- partial_scores_of args th query_emb query_arg_idx
                        corpus_embs corpus_arg_idxs ;;
    if rerank args then
      candidates <- Torch.topk partial_scores (agip_topk args) ;;
      rerank_shortlist args query_emb query_arg_idx corpus_embs
        corpus_arg_idxs candidates
    else
      sort_candidates <- Torch.topk partial_scores (topk args) ;;
      let sort_scores := Torch.gather 0 partial_scores sort_candidates in
      Some (sort_candidates, sort_scores).

(** [args.theta] after lines 89-90. *)
Definition effective_theta (args : Args) : Z :=
  if brute_force args then 0 else theta args.

(** Lines 110-113 (and 180-183): both argument-index matrices are padded
    with the constant 1 up to the width of the embeddings. *)
Definition pad_arg_idxs (cls_dim : nat) (arg_idxs : imat) : imat :=
  if (0 <? cls_dim)%nat then Torch.pad arg_idxs cls_dim 1 else arg_idxs.

Definition GIP_retrieval (qids : list string) (query_embs : mat)
  (query_arg_idxs : imat) (corpus_embs : mat) (corpus_arg_idxs : imat)
  (args : Args) : option results_t :=
  let th := effective_theta args in
  let cls_dim := (Torch.shape1 query_embs - emb_dim args)%nat in
  let query_arg_idxs := pad_arg_idxs cls_dim query_arg_idxs in
  let corpus_arg_idxs := pad_arg_idxs cls_dim corpus_arg_idxs in
  acc <- foldM (fun acc '(i, (query_emb, query_arg_idx)) =>
                  r <- GIP_query args th query_emb query_arg_idx
                         corpus_embs corpus_arg_idxs ;;
                  store qids i acc r)
               (enumerate (combine query_embs query_arg_idxs)) ([], []) ;;
  (* average_num_idx and time_per_query divide by the number of queries *)
  if (length query_embs =? 0)%nat then None else Some acc.

(** ** [PQ_IP_retrieval]

    The product-quantization index is an external artefact.  What the script
    needs from it is [faiss_index.search(queries, k)], here [index_search],
    which returns a score matrix and an id matrix with one row per query.
    Ids are corpus row numbers; the filler id -1 that faiss gives when it
    finds fewer than [k] rows is not modelled.

    The definitions of this section follow the body of the function for a
    caller in whose module the name [faiss] is bound.  The script itself
    imports [faiss] inside [main] only (line 325), so a call from [main]
    stops at line 170 with a [NameError]; that is modelled in [retrieve]
    below, not here. *)

Definition store_at (qid : string) (acc : results_t) (r : list nat * vec)
  : results_t :=
  (dict_set (fst acc) qid (fst r), dict_set (snd acc) qid (snd r)).

(** Lines 193-200: the rows of batch [i]. *)
Definition batch_slice {A : Type} (i total_batch batch : nat) (l : list A)
  : list A :=
  if (i =? total_batch - 1)%nat then slice_from (i * batch) l
  else slice (i * batch) ((i + 1) * batch) l.

Section PQ.

Variable index_search : mat -> nat -> mat * list (list nat).

(** Inner loop body, lines 206-221.  In the rerank branch with [topk = 1],
    line 211 indexes the numpy row [candidate] with a one-element tensor
    and stores the single id as a number where the model stores the
    one-element list; statements about the stored candidates of that
    branch exclude [topk = 1]. *)
Definition PQ_query (args : Args) (scores : mat) (i : nat) (query_emb : vec)
  (query_arg_idx : ivec) (candidate : list nat) (corpus_embs : mat)
  (corpus_arg_idxs : imat) : option (list nat * vec) :=
  if rerank args then
    rerank_shortlist args query_emb query_arg_idx corpus_embs corpus_arg_idxs
      candidate
  else
    row <- nth_error scores i ;;
    Some (firstn (topk args) candidate, firstn (topk args) row).

Definition PQ_batch (args : Args) (qids : list string) (query_embs : mat)
  (query_arg_idxs : imat) (corpus_embs : mat) (corpus_arg_idxs : imat)
  (total_batch : nat) (acc : results_t) (i : nat) : option results_t :=
  let batch_query_embs := batch_slice i total_batch (batch args) query_embs in
  let batch_query_arg_idxs :=
    batch_slice i total_batch (batch args) query_arg_idxs in
  let batch_qids := batch_slice i total_batch (batch args) qids in
  let '(scores, candidates) :=
    index_search batch_query_embs (agip_topk args) in
  foldM (fun acc '(i, (qid, (query_emb, (query_arg_idx, candidate)))) =>
           r <- PQ_query args scores i query_emb query_arg_idx candidate
                  corpus_embs corpus_arg_idxs ;;
           Some (store_at qid acc r))
        (enumerate
           (combine batch_qids
              (combine batch_query_embs
                 (combine batch_query_arg_idxs candidates))))
        acc.

Definition PQ_IP_retrieval (qids : list string) (query_embs : mat)
  (query_arg_idxs : imat) (corpus_embs : mat) (corpus_arg_idxs : imat)
  (args : Args) : option results_t :=
  (* assert args.faiss_pq_index_path is not None *)
  _ <- faiss_pq_index_path args ;;
  let cls_dim :=
    (Torch.shape1 query_embs - Torch.shape1 query_arg_idxs)%nat in
  let query_arg_idxs := pad_arg_idxs cls_dim query_arg_idxs in
  let corpus_arg_idxs := pad_arg_idxs cls_dim corpus_arg_idxs in
  let n := length query_embs in
  (* len(query_embs) % args.batch *)
  if (batch args =? 0)%nat then None else
  let total_batch :=
    if (n mod batch args =? 0)%nat then (n / batch args)%nat
    else (n / batch args + 1)%nat in
  acc <- foldM (PQ_batch args qids query_embs query_arg_idxs corpus_embs
                  corpus_arg_idxs total_batch)
               (seq 0 total_batch) ([], []) ;;
  (* time_per_query divides by the number of queries *)
  if (n =? 0)%nat then None else Some acc.

End PQ.

(** ** [GIP_retrieval] on a corpus snapshot without argument indices

    [main] passes [corpus_arg_idxs = None] on when the index snapshot has
    none.  Padding [None] (line 113) and indexing it (lines 135 and 144)
    raise.  At [theta = 0] without padding the comparison
    [None == query_arg_idx] is the boolean [False], so the masked
    embeddings [False * corpus_embs] are all 0 and so is every score.  With
    the [IP] switch and no rerank the argument indices are never read. *)

Definition GIP_query_no_corpus_args (args : Args) (th : Z) (query_emb : vec)
  (corpus_embs : mat) : option (list nat * vec) :=
  if th =? 0 then
    let candidate_sparse_embs := map (map (fun _ => 0)) corpus_embs in
    let scores := Torch.einsum_ij_j candidate_sparse_embs query_emb in
    sort_idx <- Torch.topk scores (topk args) ;;
    let sort_candidates := sort_idx in
    let sort_scores := Torch.gather 0 scores sort_idx in
    Some (sort_candidates, sort_scores)
  else
    let num_idx := Torch.count_gt query_emb th in
    important_idx <- Torch.topk query_emb num_idx ;;
    if negb (IP args) then
      (* corpus_arg_idxs[:,important_idx] *)
      None
    else
      let partial_scores := Torch.einsum_ij_j corpus_embs query_emb in
      if rerank args then
        candidates <- Torch.topk partial_scores (agip_topk args) ;;
        (* corpus_arg_idxs[candidates,:] *)
        None
      else
        sort_candidates <- Torch.topk partial_scores (topk args) ;;
        let sort_scores := Torch.gather 0 partial_scores sort_candidates in
        Some (sort_candidates, sort_scores).

Definition GIP_retrieval_no_corpus_args (qids : list string)
  (query_embs : mat) (query_arg_idxs : imat) (corpus_embs : mat)
  (args : Args) : option results_t :=
  let th := effective_theta args in
  let cls_dim := (Torch.shape1 query_embs - emb_dim args)%nat in
  (* torch.nn.functional.pad(corpus_arg_idxs, ...) *)
  if (0 <? cls_dim)%nat then None else
  acc <- foldM (fun acc '(i, (query_emb, query_arg_idx)) =>
                  r <- GIP_query_no_corpus_args args th query_emb
                         corpus_embs ;;
                  store qids i acc r)
               (enumerate (combine query_embs query_arg_idxs)) ([], []) ;;
  if (length query_embs =? 0)%nat then None else Some acc.

(** ** [main] *)

(** A pickled snapshot: vectors, optional argument indices, identifiers. *)
Definition snapshot : Type := mat * option imat * list string.

(** Lines 281-283: the trailing [cls_dim] columns are weighted by [lamda]. *)
Definition scale_cls (args : Args) (query_embs : mat) : mat :=
  let cls_dim := (Torch.shape1 query_embs - emb_dim args)%nat in
  if (0 <? cls_dim)%nat then
    map (fun row =>
           firstn (length row - cls_dim) row
           ++ map (Z.mul (lamda args)) (skipn (length row - cls_dim) row))
        query_embs
  else query_embs.

(** Lines 293-306: the rows of this shard. *)
Definition shard_slice {A : Type} (args : Args) (doc_num_per_shrad : nat)
  (l : list A) : list A :=
  if (shrad args =? total_shrad args - 1)%nat then
    slice_from (doc_num_per_shrad * shrad args) l
  else
    slice (doc_num_per_shrad * shrad args)
          (doc_num_per_shrad * (shrad args + 1)) l.

(** Lines 289-306.  Slicing a missing argument-index array raises and the
    [except] clause leaves [None]. *)
Definition load_index (args : Args) (index : snapshot) : option snapshot :=
  let '(corpus_embs, corpus_arg_idxs, docids) := index in
  (* len(docids) // args.total_shrad *)
  if (total_shrad args =? 0)%nat then None else
  let doc_num_per_shrad := (length docids / total_shrad args)%nat in
  Some (shard_slice args doc_num_per_shrad corpus_embs,
        option_map (shard_slice args doc_num_per_shrad) corpus_arg_idxs,
        shard_slice args doc_num_per_shrad docids).

(** Lines 321-328.  With [--PQIP] the call of [PQ_IP_retrieval] raises
    whatever its arguments: the [assert] of line 168 without an index path,
    and otherwise [NameError] at line 170, because [import faiss] on line
    325 binds the name in [main] only. *)
Definition retrieve (args : Args) (qids : list string) (query_embs : mat)
  (query_arg_idxs : option imat) (corpus_embs : mat)
  (corpus_arg_idxs : option imat) : option results_t :=
  match query_arg_idxs with
  | Some query_arg_idxs =>
      if negb (PQIP args) then
        match corpus_arg_idxs with
        | Some corpus_arg_idxs =>
            GIP_retrieval qids query_embs query_arg_idxs corpus_embs
              corpus_arg_idxs args
        | None =>
            GIP_retrieval_no_corpus_args qids query_embs query_arg_idxs
              corpus_embs args
        end
      else
        (* import faiss; PQ_IP_retrieval(...) *)
        None
  | None => IP_retrieval qids query_embs corpus_embs args
  end.

(** One line of the ranking file:
    [<query_id> Q0 <doc_id> <rank> <score> <run_tag>]. *)
Record Line := {
  line_query_id : string;
  line_docid : string;
  line_rank : nat;
  line_score : Z;
  line_run_name : string
}.

(** Lines 338-342. *)
Definition write_query (args : Args) (docids : list string)
  (query_id : string) (result : list nat) (score : vec) (fout : list Line)
  : option (list Line) :=
  foldM (fun fout '(rank, docidx) =>
           docid <- nth_error docids docidx ;;
           if negb (String.eqb docid query_id) then
             s <- nth_error score rank ;;
             Some (fout ++ [{| line_query_id := query_id;
                               line_docid := docid;
                               line_rank := rank + 1;
                               line_score := s;
                               line_run_name := run_name args |}])
           else Some fout)
        (enumerate result) fout.

(** Lines 334-343. *)
Definition write_results (args : Args) (docids : list string)
  (r : results_t) : option (list Line) :=
  let '(results, scores) := r in
  foldM (fun fout query_id =>
           result <- dict_get results query_id ;;
           score <- dict_get scores query_id ;;
           write_query args docids query_id result score fout)
        (dict_keys results) [].

Definition main (args : Args) (query_snapshot index_snapshot : snapshot)
  : option (list Line) :=
  let '(query_embs, query_arg_idxs, qids) := query_snapshot in
  let query_embs := scale_cls args query_embs in
  '(corpus_embs, corpus_arg_idxs, docids) <- load_index args index_snapshot ;;
  r <- retrieve args qids query_embs query_arg_idxs corpus_embs
         corpus_arg_idxs ;;
  write_results args docids r.

(** ** [cal_remove_dim] of [tevatron/Aggretriever/utils.py]

    The number of leading vocabulary columns to drop (or, when negative,
    of zero columns to append) before the lexical vector is folded into
    blocks of [dims] columns.  Python's [%] takes the sign of the divisor,
    as [Z.modulo] does, and raises for a zero divisor. *)
Definition cal_remove_dim (dims : Z) (vocab_size : Z) : option Z :=
  if dims =? 0 then None else
  let remove_dims := vocab_size mod dims in
  (* the first 1000 tokens in BERT are useless *)
  if 1000 <? remove_dims then Some (remove_dims - dims)
  else Some remove_dims.

(** ** Reference definitions, following the specification's wording *)

(** The gated inner product of one candidate:
    [sum_j candidate[j] * query[j] * [candidateArg[j] == queryArg[j]]]. *)
Definition gip_sum (query : vec) (queryArg : ivec) (candidate : vec)
  (candidateArg : ivec) : Z :=
  fold_right Z.add 0
    (map (fun j =>
            if nth j candidateArg 0 =? nth j queryArg 0
            then nth j candidate 0 * nth j query 0
            else 0)
         (seq 0 (length query))).

(** The plain inner product of one candidate with the query:
    [sum_j candidate[j] * query[j]]. *)
Definition ip_sum (query candidate : vec) : Z :=
  fold_right Z.add 0
    (map (fun j => nth j candidate 0 * nth j query 0)
         (seq 0 (length query))).

(** Exact GIP scores of every corpus row, over all dimensions. *)
Definition exact_GIP_scores (query : vec) (queryArg : ivec) (corpus : mat)
  (corpusArgs : imat) : vec :=
  map (fun '(c, ca) => gip_sum query queryArg c ca) (combine corpus corpusArgs).

(** Brute force: exact scores of the whole corpus, best [topk] rows. *)
Definition brute_force_reference (args : Args) (query : vec)
  (queryArg : ivec) (corpus : mat) (corpusArgs : imat)
  : option (list nat * vec) :=
  let exact := exact_GIP_scores query queryArg corpus corpusArgs in
  idx <- Torch.topk exact (topk args) ;;
  Some (idx, Torch.gather 0 exact idx).

(** Brute force restricted to a shortlist: the exact scores of the corpus,
    read at the shortlisted rows only, best [topk] of those. *)
Definition shortlist_reference (args : Args) (query : vec) (queryArg : ivec)
  (corpus : mat) (corpusArgs : imat) (shortlist : list nat)
  : option (list nat * vec) :=
  let exact := exact_GIP_scores query queryArg corpus corpusArgs in
  let restricted := Torch.gather 0 exact shortlist in
  idx <- Torch.topk restricted (topk args) ;;
  Some (Torch.gather 0%nat shortlist idx, Torch.gather 0 restricted idx).

(** Scores that do not increase with the rank. *)
Definition nonincreasing (s : vec) : Prop :=
  forall r a b, nth_error s r = Some a -> nth_error s (S r) = Some b -> b <= a.

(** [r] holds best rows of [scores]: no row left out beats a row kept. *)
Definition selects_best (scores : vec) (r : list nat) : Prop :=
  forall i j, In i r -> (j < length scores)%nat -> ~ In j r ->
              nth j scores 0 <= nth i scores 0.

(** Every stored entry satisfies [P]. *)
Definition entries_sat (P : string -> list nat -> vec -> Prop)
  (acc : results_t) : Prop :=
  forall qid r s,
    dict_get (fst acc) qid = Some r -> dict_get (snd acc) qid = Some s ->
    P qid r s.

(** Option records that differ from [args] in one field. *)
Definition set_brute_force (args : Args) : Args :=
  {| faiss_pq_index_path := faiss_pq_index_path args;
     emb_dim := emb_dim args; theta := theta args; topk := topk args;
     agip_topk := agip_topk args; IP := IP args; PQIP := PQIP args;
     batch := batch args; brute_force := true; rerank := rerank args;
     lamda := lamda args; total_shrad := total_shrad args;
     shrad := shrad args; run_name := run_name args |}.

Definition set_shrad (args : Args) (idx : nat) : Args :=
  {| faiss_pq_index_path := faiss_pq_index_path args;
     emb_dim := emb_dim args; theta := theta args; topk := topk args;
     agip_topk := agip_topk args; IP := IP args; PQIP := PQIP args;
     batch := batch args; brute_force := brute_force args;
     rerank := rerank args; lamda := lamda args;
     total_shrad := total_shrad args; shrad := idx;
     run_name := run_name args |}.

(** The rows of shard [idx] as the specification gives them. *)
Definition shard_range {A : Type} (shard_size total_shards idx : nat)
  (l : list A) : list A :=
  if (idx <? total_shards - 1)%nat
  then firstn shard_size (skipn (shard_size * idx) l)
  else skipn (shard_size * (total_shards - 1)) l.

(** The order the sort establishes on (value, index) pairs. *)
Definition desc (p1 p2 : Z * nat) : Prop := fst p2 <= fst p1.

(** Each pair of [l] carries the value [v] holds at its index. *)
Definition tagged (v : vec) (l : list (Z * nat)) : Prop :=
  Forall (fun p => nth_error v (snd p) = Some (fst p)) l.

(** All rows of [m] have width [D]. *)
Definition rectangular {A : Type} (D : nat) (m : list (list A)) : Prop :=
  Forall (fun row => length row = D) m.

(** The rows of one query that reach the ranking file: the ranked rows whose
    document id differs from the query id, each under its own rank. *)
Definition written_rows (args : Args) (docids : list string)
  (query_id : string) (result : list nat) (score : vec) : list Line :=
  flat_map (fun '(rank, docidx) =>
              match nth_error docids docidx, nth_error score rank with
              | Some docid, Some s =>
                  if negb (String.eqb docid query_id) then
                    [{| line_query_id := query_id; line_docid := docid;
                        line_rank := rank + 1; line_score := s;
                        line_run_name := run_name args |}]
                  else []
              | _, _ => []
              end)
           (enumerate result).

(** One dimension's share of the gated inner product. *)
Definition gated_term (query : vec) (queryArg : ivec) (candidate : vec)
  (candidateArg : ivec) (j : nat) : Z :=
  if nth j candidateArg 0 =? nth j queryArg 0
  then nth j candidate 0 * nth j query 0
  else 0.

(** The gated inner product over the dimensions where the query exceeds
    [theta] only. *)
Definition pruned_sum (theta : Z) (query : vec) (queryArg : ivec)
  (candidate : vec) (candidateArg : ivec) : Z :=
  fold_right Z.add 0
    (map (fun j =>
            if theta <? nth j query 0
            then gated_term query queryArg candidate candidateArg j
            else 0)
         (seq 0 (length query))).

(** [total_batch] of lines 185-188 for [n] queries. *)
Definition batches_for (n batch : nat) : nat :=
  if (n mod batch =? 0)%nat then (n / batch)%nat else (n / batch + 1)%nat.

(** Keys in the order of their first occurrence. *)
Fixpoint first_occurrences (l : list string) : list string :=
  match l with
  | [] => []
  | k :: l' =>
      k :: filter (fun k' => negb (String.eqb k k')) (first_occurrences l')
  end.

(** ** Configurations and data used in the examples *)

Definition cfg (k : nat) (th : Z) (rr : bool) (shortlist : nat) (e : nat)
  : Args :=
  {| faiss_pq_index_path := None; emb_dim := e; theta := th; topk := k;
     agip_topk := shortlist; IP := false; PQIP := false; batch := 1;
     brute_force := false; rerank := rr; lamda := 1; total_shrad := 1;
     shrad := 0; run_name := "run"%string |}.

Definition pq_cfg (k : nat) (rr : bool) (shortlist : nat) (e : nat) : Args :=
  {| faiss_pq_index_path := Some "index"%string; emb_dim := e; theta := 1;
     topk := k; agip_topk := shortlist; IP := false; PQIP := true;
     batch := 1; brute_force := false; rerank := rr; lamda := 1;
     total_shrad := 1; shrad := 0; run_name := "run"%string |}.

Definition corpus3 : mat := [[1; 1; 1]; [2; 2; 2]; [0; 5; 0]].
Definition cargs3 : imat := [[0; 1; 1]; [0; 0; 1]; [1; 1; 1]].

Definition shard_cfg (total idx : nat) : Args :=
  {| faiss_pq_index_path := None; emb_dim := 1; theta := 0; topk := 3;
     agip_topk := 3; IP := false; PQIP := false; batch := 1;
     brute_force := false; rerank := false; lamda := 1;
     total_shrad := total; shrad := idx; run_name := "run"%string |}.

Definition docids5 : list string :=
  ["d0"; "d1"; "d2"; "d3"; "d4"]%string.

Definition index5 : snapshot :=
  ([[1]; [2]; [3]; [4]; [5]], Some [[0]; [0]; [1]; [1]; [0]], docids5).

(** A self-retrieval run: the query "q1" is also row 1 of the corpus. *)
Definition self_query : snapshot := ([[1]], None, ["q1"%string]).
Definition self_index : snapshot :=
  ([[3]; [2]; [1]], None, ["d0"; "q1"; "d2"]%string).

(** The [IP] switch on, rerank off. *)
Definition shard_cfg_ip (k : nat) : Args :=
  {| faiss_pq_index_path := None; emb_dim := 3; theta := 1; topk := k;
     agip_topk := 3; IP := true; PQIP := false; batch := 1;
     brute_force := false; rerank := false; lamda := 1;
     total_shrad := 1; shrad := 0; run_name := "run"%string |}.

(** * Properties *)

(** ** Lists, loops and dictionaries *)

Lemma bind_Some {A B : Type} (x : option A) (k : A -> option B) (b : B) :
  bind x k = Some b -> exists a, x = Some a /\ k a = Some b.
Proof.
  destruct x as [a|]; simpl; intros H; [eauto | discriminate].
Qed.

Lemma foldM_invariant {A S : Type} (Inv : S -> Prop)
  (body : S -> A -> option S) (l : list A) :
  (forall s a s', In a l -> Inv s -> body s a = Some s' -> Inv s') ->
  forall s s', Inv s -> foldM body l s = Some s' -> Inv s'.
Proof.
  induction l as [|a l IH]; simpl; intros Hstep s s' Hs Hrun.
  - now inversion Hrun; subst.
  - apply bind_Some in Hrun as (s1 & H1 & H2).
    apply IH with (s := s1); eauto.
Qed.

Lemma foldM_total {A S : Type} (body : S -> A -> option S) (l : list A) :
  (forall s a, In a l -> exists s', body s a = Some s') ->
  forall s, exists s', foldM body l s = Some s'.
Proof.
  induction l as [|a l IH]; simpl; intros Hbody s; [eauto|].
  destruct (Hbody s a) as (s1 & H1); [now left|].
  rewrite H1; simpl. apply IH. intros; apply Hbody; now right.
Qed.

Lemma foldM_ext {A S : Type} (f g : S -> A -> option S) (l : list A) :
  (forall s a, In a l -> f s a = g s a) ->
  forall s, foldM f l s = foldM g l s.
Proof.
  induction l as [|a l IH]; simpl; intros Hfg s; [reflexivity|].
  rewrite Hfg by now left.
  destruct (g s a); simpl; [apply IH; intros; apply Hfg; now right | reflexivity].
Qed.

Lemma In_combine_seq {A : Type} (l : list A) (b i : nat) (x : A) :
  In (i, x) (combine (seq b (length l)) l) ->
  (b <= i)%nat /\ nth_error l (i - b) = Some x.
Proof.
  revert b; induction l as [|y l IH]; simpl; intros b H; [contradiction|].
  destruct H as [H|H].
  - inversion H; subst. rewrite Nat.sub_diag. split; [lia | reflexivity].
  - apply IH in H as [Hle Hnth]. split; [lia|].
    replace (i - b)%nat with (S (i - S b)) by lia. exact Hnth.
Qed.

Lemma In_enumerate {A : Type} (l : list A) (i : nat) (x : A) :
  In (i, x) (enumerate l) -> nth_error l i = Some x.
Proof.
  intros H. apply In_combine_seq in H as [_ H].
  now rewrite Nat.sub_0_r in H.
Qed.

Lemma nth_error_combine {A B : Type} (l : list A) (l' : list B) (i : nat)
  (a : A) (b : B) :
  nth_error (combine l l') i = Some (a, b) ->
  nth_error l i = Some a /\ nth_error l' i = Some b.
Proof.
  revert l' i; induction l as [|x l IH]; intros [|y l'] [|i]; simpl;
    try discriminate.
  - intros H; inversion H; auto.
  - apply IH.
Qed.

Lemma dict_get_set {V : Type} (d : dict V) (k k' : string) (v : V) :
  dict_get (dict_set d k v) k' =
  if String.eqb k k' then Some v else dict_get d k'.
Proof.
  induction d as [|[k0 v0] d IH]; simpl.
  - reflexivity.
  - destruct (String.eqb k0 k) eqn:E0; simpl.
    + apply String.eqb_eq in E0; subst k0.
      destruct (String.eqb k k'); reflexivity.
    + destruct (String.eqb k0 k') eqn:E1.
      * apply String.eqb_eq in E1; subst k0. now rewrite String.eqb_sym, E0.
      * exact IH.
Qed.

Lemma store_at_sat (P : string -> list nat -> vec -> Prop) (qid : string)
  (acc : results_t) (r : list nat * vec) :
  entries_sat P acc -> P qid (fst r) (snd r) ->
  entries_sat P (store_at qid acc r).
Proof.
  intros Hacc Hr k cands scores; unfold store_at; simpl.
  rewrite !dict_get_set.
  destruct (String.eqb qid k) eqn:E.
  - apply String.eqb_eq in E; subst k.
    intros H1 H2; inversion H1; inversion H2; subst; exact Hr.
  - apply Hacc.
Qed.

Lemma entries_sat_nil (P : string -> list nat -> vec -> Prop) :
  entries_sat P ([], []).
Proof. intros k r s H; discriminate. Qed.

Lemma store_sat (P : string -> list nat -> vec -> Prop) (qids : list string)
  (i : nat) (acc acc' : results_t) (r : list nat * vec) :
  entries_sat P acc ->
  (forall qid, nth_error qids i = Some qid -> P qid (fst r) (snd r)) ->
  store qids i acc r = Some acc' -> entries_sat P acc'.
Proof.
  intros Hacc Hr H. unfold store in H.
  apply bind_Some in H as (qid & Hq & H). inversion H; subst.
  apply (store_at_sat P qid acc r); auto.
Qed.

(** ** Sorting, [argsort] and [topk] *)

Lemma insert_desc_perm (p : Z * nat) (l : list (Z * nat)) :
  Permutation (Torch.insert_desc p l) (p :: l).
Proof.
  induction l as [|h t IH]; simpl; [reflexivity|].
  destruct (fst p <? fst h); [|reflexivity].
  rewrite IH. apply perm_swap.
Qed.

Lemma sort_desc_perm (l : list (Z * nat)) :
  Permutation (Torch.sort_desc l) l.
Proof.
  induction l as [|p l IH]; simpl; [reflexivity|].
  rewrite insert_desc_perm. now constructor.
Qed.

Lemma insert_desc_sorted (p : Z * nat) (l : list (Z * nat)) :
  StronglySorted desc l -> StronglySorted desc (Torch.insert_desc p l).
Proof.
  induction 1 as [|h t Hs IH Hh]; simpl.
  - repeat constructor.
  - destruct (fst p <? fst h) eqn:E.
    + apply Z.ltb_lt in E. constructor; [exact IH|].
      apply (Permutation_Forall (Permutation_sym (insert_desc_perm p t))).
      constructor; [unfold desc; lia | exact Hh].
    + apply Z.ltb_ge in E. constructor; [now constructor|].
      constructor; [exact E|].
      eapply Forall_impl; [|exact Hh]. unfold desc; intros; lia.
Qed.

Lemma sort_desc_sorted (l : list (Z * nat)) :
  StronglySorted desc (Torch.sort_desc l).
Proof.
  induction l as [|p l IH]; simpl; [constructor|].
  now apply insert_desc_sorted.
Qed.

Lemma tagged_combine_seq (v : vec) (b : nat) (w : vec) :
  (forall i x, nth_error w i = Some x -> nth_error v (b + i) = Some x) ->
  tagged v (combine w (seq b (length w))).
Proof.
  revert b; induction w as [|x w IH]; simpl; intros b H; constructor.
  - simpl. rewrite <- (Nat.add_0_r b). now apply H.
  - apply IH. intros i y Hi.
    replace (S b + i)%nat with (b + S i)%nat by lia. now apply (H (S i)).
Qed.

Lemma sorted_tagged (v : vec) :
  tagged v (Torch.sort_desc (combine v (seq 0 (length v)))).
Proof.
  unfold tagged.
  apply (Permutation_Forall (Permutation_sym (sort_desc_perm _))).
  apply tagged_combine_seq. now intros.
Qed.

Lemma map_snd_combine_seq {A : Type} (l : list A) (b : nat) :
  map snd (combine l (seq b (length l))) = seq b (length l).
Proof.
  revert b; induction l as [|x l IH]; simpl; intros b; [reflexivity|].
  now rewrite IH.
Qed.

Lemma argsort_desc_perm (v : vec) :
  Permutation (Torch.argsort_desc v) (seq 0 (length v)).
Proof.
  unfold Torch.argsort_desc.
  rewrite (Permutation_map snd (sort_desc_perm _)).
  now rewrite map_snd_combine_seq.
Qed.

Lemma argsort_desc_length (v : vec) :
  length (Torch.argsort_desc v) = length v.
Proof.
  rewrite (Permutation_length (argsort_desc_perm v)). apply length_seq.
Qed.

Lemma argsort_desc_NoDup (v : vec) : NoDup (Torch.argsort_desc v).
Proof.
  apply (Permutation_NoDup (Permutation_sym (argsort_desc_perm v))).
  apply seq_NoDup.
Qed.

Lemma argsort_desc_In (v : vec) (i : nat) :
  In i (Torch.argsort_desc v) <-> (i < length v)%nat.
Proof.
  rewrite (Permutation_in' eq_refl (argsort_desc_perm v)), in_seq. lia.
Qed.

Lemma tagged_values (v : vec) (l : list (Z * nat)) :
  tagged v l -> Torch.gather 0 v (map snd l) = map fst l.
Proof.
  unfold Torch.gather. induction 1 as [|p l Hp _ IH]; simpl; [reflexivity|].
  rewrite IH. f_equal. now apply nth_error_nth.
Qed.

Lemma gather_firstn {A : Type} (d : A) (l : list A) (idx : list nat)
  (k : nat) :
  Torch.gather d l (firstn k idx) = firstn k (Torch.gather d l idx).
Proof. unfold Torch.gather. symmetry. apply firstn_map. Qed.

Lemma gather_length {A : Type} (d : A) (l : list A) (idx : list nat) :
  length (Torch.gather d l idx) = length idx.
Proof. apply length_map. Qed.

Lemma desc_sorted_fst (l : list (Z * nat)) :
  StronglySorted desc l -> StronglySorted (fun a b => b <= a) (map fst l).
Proof.
  induction 1 as [|p l _ IH Hp]; simpl; constructor; [exact IH|].
  rewrite Forall_map. exact Hp.
Qed.

Lemma firstn_In {A : Type} (k : nat) (l : list A) (x : A) :
  In x (firstn k l) -> In x l.
Proof.
  intros H. rewrite <- (firstn_skipn k l). apply in_or_app; now left.
Qed.

Lemma sorted_firstn {A : Type} (R : A -> A -> Prop) (l : list A) (k : nat) :
  StronglySorted R l -> StronglySorted R (firstn k l).
Proof.
  intros H; revert k; induction H as [|a l _ IH Ha]; intros [|k]; simpl;
    constructor; [apply IH|].
  rewrite Forall_forall in *. intros x Hx. apply Ha.
  eapply firstn_In; exact Hx.
Qed.

Lemma sorted_nonincreasing (s : vec) :
  StronglySorted (fun a b => b <= a) s -> nonincreasing s.
Proof.
  induction 1 as [|x s _ IH Hx]; intros r a b Ha Hb.
  - destruct r; discriminate.
  - destruct r as [|r].
    + inversion Ha; subst. rewrite Forall_forall in Hx.
      apply Hx. apply (nth_error_In s 0). exact Hb.
    + apply (IH r); assumption.
Qed.

Lemma argsort_values_sorted (v : vec) (k : nat) :
  StronglySorted (fun a b => b <= a)
    (Torch.gather 0 v (firstn k (Torch.argsort_desc v))).
Proof.
  rewrite gather_firstn. apply sorted_firstn.
  unfold Torch.argsort_desc. rewrite (tagged_values v _ (sorted_tagged v)).
  apply desc_sorted_fst, sort_desc_sorted.
Qed.

Lemma sorted_app_inv {A : Type} (R : A -> A -> Prop) (l1 l2 : list A) :
  StronglySorted R (l1 ++ l2) ->
  forall a b, In a l1 -> In b l2 -> R a b.
Proof.
  induction l1 as [|x l1 IH]; simpl; intros H a b Ha Hb; [contradiction|].
  apply StronglySorted_inv in H as [Hs Hx].
  destruct Ha as [->|Ha]; [|now apply IH].
  rewrite Forall_forall in Hx. apply Hx, in_or_app; now right.
Qed.

Lemma argsort_selects_best (v : vec) (k : nat) :
  selects_best v (firstn k (Torch.argsort_desc v)).
Proof.
  intros i j Hi Hj Hnj.
  pose proof (sort_desc_sorted (combine v (seq 0 (length v)))) as Hs.
  pose proof (sorted_tagged v) as Ht.
  set (L := Torch.sort_desc (combine v (seq 0 (length v)))) in *.
  assert (Hsplit : Torch.argsort_desc v
                   = map snd (firstn k L) ++ map snd (skipn k L)).
  { unfold Torch.argsort_desc; fold L.
    now rewrite <- map_app, firstn_skipn. }
  assert (Hfst : firstn k (Torch.argsort_desc v) = map snd (firstn k L)).
  { unfold Torch.argsort_desc; fold L. apply firstn_map. }
  rewrite Hfst in Hi, Hnj.
  apply argsort_desc_In in Hj. rewrite Hsplit in Hj.
  apply in_app_or in Hj as [Hj|Hj]; [contradiction|].
  apply in_map_iff in Hi as (p & <- & Hp).
  apply in_map_iff in Hj as (p' & <- & Hp').
  unfold tagged in Ht. rewrite Forall_forall in Ht.
  rewrite (nth_error_nth v (snd p) 0 (Ht p (firstn_In k L p Hp))).
  assert (Hin' : In p' L).
  { rewrite <- (firstn_skipn k L). apply in_or_app; now right. }
  rewrite (nth_error_nth v (snd p') 0 (Ht p' Hin')).
  rewrite <- (firstn_skipn k L) in Hs.
  exact (sorted_app_inv desc _ _ Hs p p' Hp Hp').
Qed.

Lemma topk_Some (v : vec) (k : nat) (idx : list nat) :
  Torch.topk v k = Some idx ->
  (k <= length v)%nat /\ idx = firstn k (Torch.argsort_desc v).
Proof.
  unfold Torch.topk. destruct (k <=? length v)%nat eqn:E; [|discriminate].
  apply Nat.leb_le in E. intros H; inversion H; auto.
Qed.

Lemma topk_None (v : vec) (k : nat) :
  Torch.topk v k = None <-> (length v < k)%nat.
Proof.
  unfold Torch.topk. destruct (k <=? length v)%nat eqn:E.
  - apply Nat.leb_le in E. split; [discriminate | lia].
  - apply Nat.leb_gt in E. tauto.
Qed.

Lemma topk_total (v : vec) (k : nat) :
  (k <= length v)%nat -> Torch.topk v k = Some (firstn k (Torch.argsort_desc v)).
Proof.
  intros H. unfold Torch.topk. apply Nat.leb_le in H. now rewrite H.
Qed.

Lemma topk_length (v : vec) (k : nat) (idx : list nat) :
  Torch.topk v k = Some idx -> length idx = k.
Proof.
  intros H. apply topk_Some in H as [Hk ->].
  rewrite length_firstn, argsort_desc_length. lia.
Qed.

Lemma topk_in_range (v : vec) (k : nat) (idx : list nat) :
  Torch.topk v k = Some idx -> Forall (fun i => (i < length v)%nat) idx.
Proof.
  intros H. apply topk_Some in H as [_ ->].
  rewrite Forall_forall. intros i Hi.
  apply argsort_desc_In. eapply firstn_In; exact Hi.
Qed.

Lemma topk_sorted (v : vec) (k : nat) (idx : list nat) :
  Torch.topk v k = Some idx ->
  StronglySorted (fun a b => b <= a) (Torch.gather 0 v idx).
Proof.
  intros H. apply topk_Some in H as [_ ->]. apply argsort_values_sorted.
Qed.

Lemma topk_selects_best (v : vec) (k : nat) (idx : list nat) :
  Torch.topk v k = Some idx -> selects_best v idx.
Proof.
  intros H. apply topk_Some in H as [_ ->]. apply argsort_selects_best.
Qed.

(** ** The gated score *)

Lemma gated_scores_combine (embs : mat) (arg_idxs : imat) (q : vec)
  (qa : ivec) :
  gated_scores embs arg_idxs q qa =
  map (fun '(c, ca) => Torch.dot (Torch.mul_bvec (Torch.eq_vec ca qa) c) q)
      (combine embs arg_idxs).
Proof.
  unfold gated_scores, Torch.einsum_ij_j, Torch.eq_rows.
  revert arg_idxs; induction embs as [|c embs IH]; intros [|ca arg_idxs];
    simpl; try reflexivity.
  now rewrite IH.
Qed.

Lemma gated_scores_length (embs : mat) (arg_idxs : imat) (q : vec)
  (qa : ivec) :
  length arg_idxs = length embs ->
  length (gated_scores embs arg_idxs q qa) = length embs.
Proof.
  intros H. rewrite gated_scores_combine, length_map, length_combine. lia.
Qed.

Lemma sum_seq_shift (f : nat -> Z) (n : nat) :
  fold_right Z.add 0 (map f (seq 1 n)) =
  fold_right Z.add 0 (map (fun j => f (S j)) (seq 0 n)).
Proof. now rewrite <- seq_shift, map_map. Qed.

Lemma gated_row_gip_sum (q : vec) (qa : ivec) (c : vec) (ca : ivec) :
  length c = length q -> length ca = length q -> length qa = length q ->
  Torch.dot (Torch.mul_bvec (Torch.eq_vec ca qa) c) q = gip_sum q qa c ca.
Proof.
  unfold gip_sum.
  revert qa c ca; induction q as [|x q IH]; intros [|y qa] [|e c] [|a ca];
    simpl; try discriminate; try reflexivity.
  intros Hc Hca Hqa.
  rewrite sum_seq_shift. simpl. rewrite <- IH by lia.
  destruct (a =? y); lia.
Qed.

Lemma gated_scores_exact (embs : mat) (arg_idxs : imat) (q : vec) (qa : ivec) :
  Forall (fun c => length c = length q) embs ->
  Forall (fun ca => length ca = length q) arg_idxs ->
  length qa = length q ->
  gated_scores embs arg_idxs q qa = exact_GIP_scores q qa embs arg_idxs.
Proof.
  intros He Ha Hqa. rewrite gated_scores_combine. unfold exact_GIP_scores.
  apply map_ext_in. intros [c ca] Hin.
  rewrite Forall_forall in He, Ha.
  apply gated_row_gip_sum; auto.
  - apply He. eapply in_combine_l; exact Hin.
  - apply Ha. eapply in_combine_r; exact Hin.
Qed.

Lemma nth_error_combine_Some {A B : Type} (l : list A) (l' : list B)
  (i : nat) (a : A) (b : B) :
  nth_error l i = Some a -> nth_error l' i = Some b ->
  nth_error (combine l l') i = Some (a, b).
Proof.
  revert l' i; induction l as [|x l IH]; intros [|y l'] [|i]; simpl;
    try discriminate.
  - intros H1 H2; inversion H1; inversion H2; reflexivity.
  - apply IH.
Qed.

Lemma select_rows_total {A : Type} (m : list A) (idx : list nat) :
  Forall (fun i => (i < length m)%nat) idx ->
  exists rows, Torch.select_rows m idx = Some rows.
Proof.
  induction 1 as [|i idx Hi _ [rs IH]]; simpl; [eauto|].
  destruct (nth_error m i) as [r|] eqn:E.
  - rewrite IH; simpl; eauto.
  - apply nth_error_None in E; lia.
Qed.

Lemma gated_scores_select (embs : mat) (arg_idxs : imat) (q : vec)
  (qa : ivec) (cands : list nat) (er : mat) (ar : imat) :
  Torch.select_rows arg_idxs cands = Some ar ->
  Torch.select_rows embs cands = Some er ->
  gated_scores er ar q qa =
  Torch.gather 0 (gated_scores embs arg_idxs q qa) cands.
Proof.
  rewrite !gated_scores_combine. unfold Torch.gather.
  revert er ar; induction cands as [|i cands IH]; simpl; intros er ar Ha He.
  - inversion Ha; inversion He; reflexivity.
  - apply bind_Some in Ha as (a & Hia & Ha).
    apply bind_Some in Ha as (ar' & Har' & Ha). inversion Ha; subst ar.
    apply bind_Some in He as (e & Hie & He).
    apply bind_Some in He as (er' & Her' & He). inversion He; subst er.
    simpl. rewrite (IH er' ar' Har' Her'). f_equal.
    symmetry. apply nth_error_nth.
    rewrite nth_error_map, (nth_error_combine_Some _ _ _ _ _ Hie Hia).
    reflexivity.
Qed.

Lemma exact_scores_nth (q : vec) (qa : ivec) (ce : mat) (cargs : imat)
  (c : nat) :
  length cargs = length ce -> (c < length ce)%nat ->
  nth c (exact_GIP_scores q qa ce cargs) 0 =
  gip_sum q qa (nth c ce []) (nth c cargs []).
Proof.
  intros Hlen Hc. unfold exact_GIP_scores.
  apply nth_error_nth.
  rewrite nth_error_map.
  rewrite (nth_error_combine_Some ce cargs c (nth c ce []) (nth c cargs [])).
  - reflexivity.
  - apply nth_error_nth'. exact Hc.
  - apply nth_error_nth'. lia.
Qed.

Lemma exact_scores_length (q : vec) (qa : ivec) (ce : mat) (cargs : imat) :
  length cargs = length ce ->
  length (exact_GIP_scores q qa ce cargs) = length ce.
Proof.
  intros H. unfold exact_GIP_scores. rewrite length_map, length_combine. lia.
Qed.

Lemma gather_nth_error {A : Type} (d : A) (l : list A) (idx : list nat)
  (rank c : nat) :
  nth_error idx rank = Some c ->
  nth_error (Torch.gather d l idx) rank = Some (nth c l d).
Proof.
  intros H. unfold Torch.gather. now rewrite nth_error_map, H.
Qed.

Lemma GIP_query_brute_force (args : Args) (q : vec) (qa : ivec) (ce : mat)
  (cargs : imat) :
  rectangular (length q) ce -> rectangular (length q) cargs ->
  length qa = length q ->
  GIP_query args 0 q qa ce cargs = brute_force_reference args q qa ce cargs.
Proof.
  intros He Ha Hqa. unfold GIP_query, brute_force_reference. simpl.
  now rewrite gated_scores_exact.
Qed.

Lemma brute_force_reference_scores (args : Args) (q : vec) (qa : ivec)
  (ce : mat) (cargs : imat) (r : list nat) (s : vec) :
  length cargs = length ce ->
  brute_force_reference args q qa ce cargs = Some (r, s) ->
  length r = topk args /\ length s = length r /\
  forall rank c, nth_error r rank = Some c ->
    (c < length ce)%nat /\
    nth_error s rank = Some (gip_sum q qa (nth c ce []) (nth c cargs [])).
Proof.
  intros Hlen H. unfold brute_force_reference in H.
  apply bind_Some in H as (idx & Hidx & H). inversion H; subst r s.
  split; [eapply topk_length; exact Hidx|].
  split; [apply gather_length|].
  intros rank c Hrank.
  pose proof (topk_in_range _ _ _ Hidx) as Hrange.
  rewrite Forall_forall in Hrange.
  specialize (Hrange c (nth_error_In _ _ Hrank)).
  rewrite exact_scores_length in Hrange by exact Hlen.
  split; [exact Hrange|].
  rewrite (gather_nth_error 0 _ idx rank c Hrank).
  now rewrite exact_scores_nth.
Qed.

(** ** What the retrieval loops store *)

Lemma IP_retrieval_entries (qids : list string) (query_embs corpus_embs : mat)
  (args : Args) (acc : results_t) :
  IP_retrieval qids query_embs corpus_embs args = Some acc ->
  entries_sat (fun qid r s =>
    exists i q, nth_error qids i = Some qid /\
                nth_error query_embs i = Some q /\
                (r, s) = IP_query args q corpus_embs) acc.
Proof.
  unfold IP_retrieval. intros H.
  apply bind_Some in H as (acc0 & Hloop & H).
  destruct (length query_embs =? 0)%nat; [discriminate|].
  inversion H; subst acc0; clear H.
  revert Hloop. apply foldM_invariant; [|apply entries_sat_nil].
  intros s [i q] s' Hin Hs Hbody.
  apply In_enumerate in Hin.
  eapply store_sat; [exact Hs | | exact Hbody].
  intros qid Hqid. exists i, q. repeat split; auto.
Qed.

Lemma GIP_retrieval_entries (qids : list string) (query_embs : mat)
  (query_arg_idxs : imat) (corpus_embs : mat) (corpus_arg_idxs : imat)
  (args : Args) (acc : results_t) :
  GIP_retrieval qids query_embs query_arg_idxs corpus_embs corpus_arg_idxs
    args = Some acc ->
  let cls_dim := (Torch.shape1 query_embs - emb_dim args)%nat in
  entries_sat (fun qid r s =>
    exists i q qa,
      nth_error qids i = Some qid /\
      nth_error query_embs i = Some q /\
      nth_error (pad_arg_idxs cls_dim query_arg_idxs) i = Some qa /\
      GIP_query args (effective_theta args) q qa corpus_embs
        (pad_arg_idxs cls_dim corpus_arg_idxs) = Some (r, s)) acc.
Proof.
  unfold GIP_retrieval. intros H. cbv zeta in *.
  apply bind_Some in H as (acc0 & Hloop & H).
  destruct (length query_embs =? 0)%nat; [discriminate|].
  inversion H; subst acc0; clear H.
  revert Hloop. apply foldM_invariant; [|apply entries_sat_nil].
  intros s [i [q qa]] s' Hin Hs Hbody.
  apply In_enumerate, nth_error_combine in Hin as [Hq Hqa].
  apply bind_Some in Hbody as ([r sc] & Hquery & Hstore).
  eapply store_sat; [exact Hs | | exact Hstore].
  intros qid Hqid. exists i, q, qa. auto.
Qed.

Lemma In_nth_error_enumerate {A : Type} (l : list A) (i : nat) (x : A) :
  In (i, x) (enumerate l) -> (i < length l)%nat.
Proof.
  intros H. apply In_enumerate in H. apply nth_error_Some. now rewrite H.
Qed.

Lemma store_total (qids : list string) (i : nat) (acc : results_t)
  (r : list nat * vec) :
  (i < length qids)%nat -> exists acc', store qids i acc r = Some acc'.
Proof.
  intros H. unfold store.
  destruct (nth_error qids i) eqn:E; simpl; [eauto|].
  apply nth_error_None in E; lia.
Qed.

Lemma pad_arg_idxs_length (n : nat) (m : imat) :
  length (pad_arg_idxs n m) = length m.
Proof.
  unfold pad_arg_idxs, Torch.pad. destruct (0 <? n)%nat; [apply length_map|reflexivity].
Qed.

Lemma rectangular_nth_error {A : Type} (D : nat) (m : list (list A)) (i : nat)
  (row : list A) :
  rectangular D m -> nth_error m i = Some row -> length row = D.
Proof.
  unfold rectangular. rewrite Forall_forall. intros H Hi.
  apply H. eapply nth_error_In; exact Hi.
Qed.

(** ** Exact scoring at [theta = 0] *)

Lemma GIP_retrieval_returns_at_theta0 (qids : list string) (query_embs : mat)
  (query_arg_idxs : imat) (corpus_embs : mat) (corpus_arg_idxs : imat)
  (args : Args) :
  effective_theta args = 0 -> query_embs <> [] ->
  (length query_embs <= length qids)%nat ->
  (topk args <= length corpus_embs)%nat ->
  length corpus_arg_idxs = length corpus_embs ->
  exists results scores,
    GIP_retrieval qids query_embs query_arg_idxs corpus_embs corpus_arg_idxs
      args = Some (results, scores).
Proof.
  intros Hth Hne Hq Hk Hlen. unfold GIP_retrieval. cbv zeta. rewrite Hth.
  match goal with
  | |- context [foldM ?body ?l ?s0] =>
      destruct (foldM_total body l) with (s := s0)
        as ([results scores] & Hloop)
  end.
  - intros s [i [q qa]] Hin.
    unfold GIP_query. simpl.
    rewrite topk_total
      by (rewrite gated_scores_length; rewrite ?pad_arg_idxs_length; lia).
    simpl. apply store_total.
    apply In_nth_error_enumerate in Hin.
    pose proof (length_combine query_embs
      (pad_arg_idxs (Torch.shape1 query_embs - emb_dim args) query_arg_idxs)).
    lia.
  - rewrite Hloop. simpl. destruct query_embs; [congruence|]. simpl. eauto.
Qed.


(** C1.  With [theta = 0], every score [GIP_retrieval] stores is the gated
    sum of its candidate: at each rank, the score is the sum over the
    dimensions [j] of [candidate[j] * query[j]] where the candidate's
    argument index equals the query's, and 0 elsewhere.  The same holds for
    the score the loop computes for every corpus row, returned or not.  On
    the three-dimensional example of the specification the score is 4. *)
Theorem gip_theta0_scores_are_gated_sums :
  (forall qids query_embs query_arg_idxs corpus_embs corpus_arg_idxs args
          results scores D,
     let cls_dim := (Torch.shape1 query_embs - emb_dim args)%nat in
     let qargs := pad_arg_idxs cls_dim query_arg_idxs in
     let cargs := pad_arg_idxs cls_dim corpus_arg_idxs in
     effective_theta args = 0 ->
     rectangular D query_embs -> rectangular D qargs ->
     rectangular D corpus_embs -> rectangular D cargs ->
     length cargs = length corpus_embs ->
     GIP_retrieval qids query_embs query_arg_idxs corpus_embs
       corpus_arg_idxs args = Some (results, scores) ->
     forall qid r s,
       dict_get results qid = Some r -> dict_get scores qid = Some s ->
       exists i q qa,
         nth_error qids i = Some qid /\
         nth_error query_embs i = Some q /\
         nth_error qargs i = Some qa /\
         length s = length r /\
         forall rank c, nth_error r rank = Some c ->
           nth_error s rank =
           Some (gip_sum q qa (nth c corpus_embs []) (nth c cargs [])))
  /\ (forall (q : vec) (qa : ivec) (corpus_embs : mat) (cargs : imat) i,
        rectangular (length q) corpus_embs ->
        rectangular (length q) cargs ->
        length qa = length q -> length cargs = length corpus_embs ->
        (i < length corpus_embs)%nat ->
        nth_error (gated_scores corpus_embs cargs q qa) i =
        Some (gip_sum q qa (nth i corpus_embs []) (nth i cargs [])))
  /\ gip_sum [1; 2; 3] [0; 0; 1] [1; 1; 1] [0; 1; 1] = 4
  /\ GIP_retrieval ["q"%string] [[1; 2; 3]] [[0; 0; 1]] [[1; 1; 1]]
       [[0; 1; 1]] (cfg 1 0 false 1 3)
     = Some ([("q"%string, [0%nat])], [("q"%string, [4])]).
Proof.
  split; [|split; [|split; reflexivity]].
  2:{ intros q qa ce cargs i He Ha Hqa Hlen Hi.
      rewrite gated_scores_exact by assumption.
      rewrite <- (exact_scores_nth q qa ce cargs i Hlen Hi).
      apply nth_error_nth'. now rewrite exact_scores_length. }
  intros qids query_embs query_arg_idxs corpus_embs corpus_arg_idxs args
         results scores D cls_dim qargs cargs Hth Hq Hqa Hc Hca Hlen Hrun
         qid r s Hr Hs.
  pose proof (GIP_retrieval_entries _ _ _ _ _ _ _ Hrun) as Hent.
  destruct (Hent qid r s Hr Hs) as (i & q & qa & Hqid & Hqi & Hqai & Hquery).
  fold cls_dim in Hqai, Hquery. fold qargs in Hqai. fold cargs in Hquery.
  exists i, q, qa. repeat split; auto.
  - rewrite Hth in Hquery.
    pose proof (rectangular_nth_error _ _ _ _ Hq Hqi) as Hwq.
    pose proof (rectangular_nth_error _ _ _ _ Hqa Hqai) as Hwqa.
    rewrite GIP_query_brute_force in Hquery
      by (rewrite ?Hwq; auto; congruence).
    now apply brute_force_reference_scores in Hquery.
  - intros rank c Hrank. rewrite Hth in Hquery.
    pose proof (rectangular_nth_error _ _ _ _ Hq Hqi) as Hwq.
    pose proof (rectangular_nth_error _ _ _ _ Hqa Hqai) as Hwqa.
    rewrite GIP_query_brute_force in Hquery
      by (rewrite ?Hwq; auto; congruence).
    apply brute_force_reference_scores in Hquery as (_ & _ & Hsc); auto.
    now apply Hsc.
Qed.

Lemma gip_theta0_scores_witness :
  effective_theta (cfg 1 0 false 1 3) = 0 /\
  rectangular 3 [[1; 2; 3]] /\
  GIP_retrieval ["q"%string] [[1; 2; 3]] [[0; 0; 1]] [[1; 1; 1]]
    [[0; 1; 1]] (cfg 1 0 false 1 3)
  = Some ([("q"%string, [0%nat])], [("q"%string, [4])]) /\
  exists i q qa,
    nth_error ["q"%string] i = Some "q"%string /\
    nth_error [[1; 2; 3]] i = Some q /\
    nth_error [[0; 0; 1]] i = Some qa /\
    length [4] = length [0%nat] /\
    forall rank c, nth_error [0%nat] rank = Some c ->
      nth_error [4] rank =
      Some (gip_sum q qa (nth c [[1; 1; 1]] []) (nth c [[0; 1; 1]] [])).
Proof.
  split; [reflexivity|]. split; [repeat constructor|].
  split; [reflexivity|].
  apply (proj1 gip_theta0_scores_are_gated_sums
           ["q"%string] [[1; 2; 3]] [[0; 0; 1]] [[1; 1; 1]] [[0; 1; 1]]
           (cfg 1 0 false 1 3) [("q"%string, [0%nat])] [("q"%string, [4])]
           3%nat);
    try reflexivity; repeat constructor.
Defined.

(** ** Pruning by [theta] *)

Lemma count_gt_antitone (q : vec) (theta1 theta2 : Z) :
  theta1 <= theta2 ->
  (Torch.count_gt q theta2 <= Torch.count_gt q theta1)%nat.
Proof.
  intros Hle. unfold Torch.count_gt.
  induction q as [|x q IH]; simpl; [lia|].
  destruct (theta2 <? x) eqn:E2; destruct (theta1 <? x) eqn:E1; simpl; lia.
Qed.

Lemma GIP_query_theta0_args (args args' : Args) (q : vec) (qa : ivec)
  (ce : mat) (cargs : imat) :
  topk args' = topk args ->
  GIP_query args' 0 q qa ce cargs = GIP_query args 0 q qa ce cargs.
Proof. intros H. unfold GIP_query. simpl. now rewrite H. Qed.

(** C2.  The number of important dimensions [#{j : query[j] > theta}] does
    not grow when [theta] grows; and at [theta = 0] the returned candidates
    and scores are those of the brute-force exact-GIP ranking over all
    dimensions: per query they equal the reference ranking, and the whole
    run equals the run with the brute-force switch set. *)
Theorem theta_pruning_monotone_exact_at_zero :
  (forall q theta1 theta2, theta1 <= theta2 ->
     (Torch.count_gt q theta2 <= Torch.count_gt q theta1)%nat)
  /\ (forall args q qa corpus_embs cargs,
        rectangular (length q) corpus_embs ->
        rectangular (length q) cargs ->
        length qa = length q ->
        GIP_query args 0 q qa corpus_embs cargs =
        brute_force_reference args q qa corpus_embs cargs)
  /\ (forall qids query_embs query_arg_idxs corpus_embs corpus_arg_idxs args,
        theta args = 0 ->
        GIP_retrieval qids query_embs query_arg_idxs corpus_embs
          corpus_arg_idxs args =
        GIP_retrieval qids query_embs query_arg_idxs corpus_embs
          corpus_arg_idxs (set_brute_force args)).
Proof.
  split; [exact count_gt_antitone|].
  split; [exact GIP_query_brute_force|].
  intros qids query_embs query_arg_idxs corpus_embs corpus_arg_idxs args Hth.
  unfold GIP_retrieval.
  assert (E : effective_theta args = 0).
  { unfold effective_theta. now destruct (brute_force args). }
  rewrite E. change (effective_theta (set_brute_force args)) with 0.
  change (emb_dim (set_brute_force args)) with (emb_dim args).
  cbv zeta.
  erewrite foldM_ext; [reflexivity|].
  intros s [i [q qa]] _. simpl.
  now rewrite (GIP_query_theta0_args (set_brute_force args) args).
Qed.

Lemma theta_pruning_witness :
  (1 <= 2 /\
   Nat.le (Torch.count_gt [1; 2; 3] 2) (Torch.count_gt [1; 2; 3] 1))
  /\ (rectangular 3 [[1; 1; 1]; [2; 2; 2]] /\
      rectangular 3 [[0; 1; 1]; [0; 0; 1]] /\
      length [0; 0; 1] = length [1; 2; 3] /\
      GIP_query (cfg 2 0 false 2 3) 0 [1; 2; 3] [0; 0; 1]
        [[1; 1; 1]; [2; 2; 2]] [[0; 1; 1]; [0; 0; 1]] =
      brute_force_reference (cfg 2 0 false 2 3) [1; 2; 3] [0; 0; 1]
        [[1; 1; 1]; [2; 2; 2]] [[0; 1; 1]; [0; 0; 1]])
  /\ (theta (cfg 2 0 false 2 3) = 0 /\
      GIP_retrieval ["q"%string] [[1; 2; 3]] [[0; 0; 1]]
        [[1; 1; 1]; [2; 2; 2]] [[0; 1; 1]; [0; 0; 1]] (cfg 2 0 false 2 3) =
      GIP_retrieval ["q"%string] [[1; 2; 3]] [[0; 0; 1]]
        [[1; 1; 1]; [2; 2; 2]] [[0; 1; 1]; [0; 0; 1]]
        (set_brute_force (cfg 2 0 false 2 3))).
Proof.
  destruct theta_pruning_monotone_exact_at_zero as (Hmono & Hexact & Hrun).
  split; [split; [lia | apply Hmono; lia]|].
  split.
  - split; [repeat constructor|]. split; [repeat constructor|].
    split; [reflexivity|]. apply Hexact; try reflexivity; repeat constructor.
  - split; [reflexivity|]. apply Hrun. reflexivity.
Defined.

(** ** Reranking a shortlist *)

Lemma rerank_shortlist_reference (args : Args) (q : vec) (qa : ivec)
  (ce : mat) (cargs : imat) (shortlist : list nat) :
  rectangular (length q) ce -> rectangular (length q) cargs ->
  length qa = length q -> length cargs = length ce ->
  Forall (fun c => (c < length ce)%nat) shortlist ->
  rerank_shortlist args q qa ce cargs shortlist =
  shortlist_reference args q qa ce cargs shortlist.
Proof.
  intros He Ha Hqa Hlen Hrange.
  unfold rerank_shortlist, shortlist_reference.
  destruct (select_rows_total ce shortlist Hrange) as (er & Her).
  assert (Hrange' : Forall (fun c => (c < length cargs)%nat) shortlist)
    by now rewrite Hlen.
  destruct (select_rows_total cargs shortlist Hrange') as (ar & Har).
  rewrite Har, Her. simpl.
  rewrite (gated_scores_select ce cargs q qa shortlist er ar Har Her).
  now rewrite gated_scores_exact.
Qed.

Lemma partial_scores_length (args : Args) (th : Z) (q : vec) (qa : ivec)
  (ce : mat) (cargs : imat) (p : vec) :
  length cargs = length ce ->
  partial_scores_of args th q qa ce cargs = Some p -> length p = length ce.
Proof.
  intros Hlen H. unfold partial_scores_of in H.
  apply bind_Some in H as (idx & _ & H).
  destruct (negb (IP args)); inversion H; subst p.
  - rewrite gated_scores_length; unfold Torch.gather_cols;
      rewrite !length_map; auto.
  - apply length_map.
Qed.

Lemma restricted_nth (exact : vec) (shortlist : list nat) (i : nat) :
  (i < length shortlist)%nat ->
  nth i (Torch.gather 0 exact shortlist) 0 = nth (nth i shortlist 0%nat) exact 0.
Proof.
  intros Hi. unfold Torch.gather. apply nth_error_nth.
  rewrite nth_error_map, (nth_error_nth' shortlist 0%nat Hi). reflexivity.
Qed.

Lemma shortlist_selects_best (q : vec) (qa : ivec) (ce : mat) (cargs : imat)
  (shortlist : list nat) (k : nat) (idx : list nat) :
  length cargs = length ce ->
  Forall (fun c => (c < length ce)%nat) shortlist ->
  Torch.topk
    (Torch.gather 0 (exact_GIP_scores q qa ce cargs) shortlist) k = Some idx ->
  forall c c',
    In c (Torch.gather 0%nat shortlist idx) -> In c' shortlist ->
    ~ In c' (Torch.gather 0%nat shortlist idx) ->
    gip_sum q qa (nth c' ce []) (nth c' cargs [])
    <= gip_sum q qa (nth c ce []) (nth c cargs []).
Proof.
  intros Hlen Hrange Hidx c c' Hc Hc' Hnot.
  pose proof (topk_selects_best _ _ _ Hidx) as Hbest.
  pose proof (topk_in_range _ _ _ Hidx) as Hin.
  rewrite gather_length in Hin. rewrite Forall_forall in Hin, Hrange.
  unfold Torch.gather in Hc at 1. apply in_map_iff in Hc as (i & <- & Hi).
  destruct (In_nth shortlist c' 0%nat Hc') as (j & Hj & <-).
  assert (Hjn : ~ In j idx).
  { intros Hjin. apply Hnot. unfold Torch.gather.
    apply in_map_iff. now exists j. }
  specialize (Hbest i j Hi). rewrite gather_length in Hbest.
  specialize (Hbest Hj Hjn).
  rewrite !restricted_nth in Hbest by auto.
  rewrite !exact_scores_nth in Hbest; auto using nth_In.
Qed.

Lemma shortlist_reference_scores (args : Args) (q : vec) (qa : ivec)
  (ce : mat) (cargs : imat) (shortlist r : list nat) (s : vec) :
  length cargs = length ce ->
  Forall (fun c => (c < length ce)%nat) shortlist ->
  shortlist_reference args q qa ce cargs shortlist = Some (r, s) ->
  length r = topk args /\ length s = length r /\ nonincreasing s /\
  (forall rank c, nth_error r rank = Some c ->
     In c shortlist /\
     nth_error s rank = Some (gip_sum q qa (nth c ce []) (nth c cargs []))) /\
  (forall c c', In c r -> In c' shortlist -> ~ In c' r ->
     gip_sum q qa (nth c' ce []) (nth c' cargs [])
     <= gip_sum q qa (nth c ce []) (nth c cargs [])).
Proof.
  intros Hlen Hrange H. unfold shortlist_reference in H.
  apply bind_Some in H as (idx & Hidx & H). inversion H; subst r s; clear H.
  split; [rewrite gather_length; eapply topk_length; exact Hidx|].
  split; [now rewrite !gather_length|].
  split; [apply sorted_nonincreasing; eapply topk_sorted; exact Hidx|].
  split; [|now apply (shortlist_selects_best q qa ce cargs shortlist
                        (topk args) idx)].
  intros rank c Hrank.
  unfold Torch.gather in Hrank. rewrite nth_error_map in Hrank.
  destruct (nth_error idx rank) as [k|] eqn:Hk; [|discriminate].
  inversion Hrank; subst c; clear Hrank.
  pose proof (topk_in_range _ _ _ Hidx) as Hin.
  rewrite Forall_forall in Hin.
  specialize (Hin k (nth_error_In _ _ Hk)). rewrite gather_length in Hin.
  assert (Hc : In (nth k shortlist 0%nat) shortlist) by now apply nth_In.
  split; [exact Hc|].
  rewrite (gather_nth_error 0 _ idx rank k Hk).
  unfold Torch.gather at 1.
  rewrite (nth_error_nth _ _ 0
             (map_nth_error _ k shortlist (nth_error_nth' shortlist 0%nat Hin))).
  rewrite Forall_forall in Hrange.
  now rewrite exact_scores_nth by auto.
Qed.

(** C3.  The reranker scores the shortlisted rows with the full gated inner
    product and keeps the best [topk] of them: its output is the top-K of
    the brute-force exact-GIP ranking read at the shortlist only.  This
    holds for the shortlist the pruned selector hands over and, for [topk]
    other than 1, for the shortlist of the quantized index (there, with
    [topk = 1], line 211 stores the single candidate as a number, not as a
    list); the scores returned are the exact gated sums of the candidates
    returned, in non-increasing order, and no shortlisted row left out has
    a larger exact score than a row kept.  The reranker returns whenever
    the shortlist has at least [topk] rows. *)
Theorem rerank_is_exact_on_shortlist :
  forall args q qa corpus_embs cargs,
    rectangular (length q) corpus_embs -> rectangular (length q) cargs ->
    length qa = length q -> length cargs = length corpus_embs ->
    (forall shortlist,
       Forall (fun c => (c < length corpus_embs)%nat) shortlist ->
       rerank_shortlist args q qa corpus_embs cargs shortlist =
       shortlist_reference args q qa corpus_embs cargs shortlist)
    /\ (forall th, th <> 0 -> rerank args = true ->
          GIP_query args th q qa corpus_embs cargs =
          (partial_scores <- partial_scores_of args th q qa corpus_embs cargs ;;
           candidates <- Torch.topk partial_scores (agip_topk args) ;;
           shortlist_reference args q qa corpus_embs cargs candidates))
    /\ (forall scores i candidate, rerank args = true ->
          topk args <> 1%nat ->
          Forall (fun c => (c < length corpus_embs)%nat) candidate ->
          PQ_query args scores i q qa candidate corpus_embs cargs =
          shortlist_reference args q qa corpus_embs cargs candidate)
    /\ (forall shortlist r s,
          Forall (fun c => (c < length corpus_embs)%nat) shortlist ->
          rerank_shortlist args q qa corpus_embs cargs shortlist = Some (r, s) ->
          length r = topk args /\ length s = length r /\ nonincreasing s /\
          (forall rank c, nth_error r rank = Some c ->
             In c shortlist /\
             nth_error s rank =
             Some (gip_sum q qa (nth c corpus_embs []) (nth c cargs []))) /\
          (forall c c', In c r -> In c' shortlist -> ~ In c' r ->
             gip_sum q qa (nth c' corpus_embs []) (nth c' cargs [])
             <= gip_sum q qa (nth c corpus_embs []) (nth c cargs [])))
    /\ (forall shortlist,
          Forall (fun c => (c < length corpus_embs)%nat) shortlist ->
          (topk args <= length shortlist)%nat ->
          exists r s,
            rerank_shortlist args q qa corpus_embs cargs shortlist
            = Some (r, s)).
Proof.
  intros args q qa ce cargs He Ha Hqa Hlen.
  split; [intros; now apply rerank_shortlist_reference|].
  split; [|split; [|split]].
  4:{ intros shortlist Hrange Hk.
      rewrite rerank_shortlist_reference by auto.
      unfold shortlist_reference.
      rewrite topk_total by now rewrite gather_length.
      simpl. eauto. }
  - intros th Hth Hrr. unfold GIP_query.
    apply Z.eqb_neq in Hth. rewrite Hth, Hrr.
    destruct (partial_scores_of args th q qa ce cargs) as [p|] eqn:Hp;
      [simpl|reflexivity].
    destruct (Torch.topk p (agip_topk args)) as [cands|] eqn:Hc;
      [simpl|reflexivity].
    apply rerank_shortlist_reference; auto.
    pose proof (topk_in_range _ _ _ Hc) as Hin.
    now rewrite (partial_scores_length _ _ _ _ _ _ _ Hlen Hp) in Hin.
  - intros scores i candidate Hrr _ Hrange. unfold PQ_query. rewrite Hrr.
    now apply rerank_shortlist_reference.
  - intros shortlist r s Hrange H.
    rewrite rerank_shortlist_reference in H by auto.
    now apply shortlist_reference_scores in H.
Qed.

Lemma rerank_is_exact_witness :
  rectangular 3 [[1; 1; 1]; [2; 2; 2]; [0; 5; 0]] /\
  rectangular 3 [[0; 1; 1]; [0; 0; 1]; [1; 1; 1]] /\
  rerank_shortlist (cfg 1 1 true 2 3) [1; 2; 3] [0; 0; 1]
    [[1; 1; 1]; [2; 2; 2]; [0; 5; 0]] [[0; 1; 1]; [0; 0; 1]; [1; 1; 1]]
    [2%nat; 1%nat] = Some ([1%nat], [12]) /\
  shortlist_reference (cfg 1 1 true 2 3) [1; 2; 3] [0; 0; 1]
    [[1; 1; 1]; [2; 2; 2]; [0; 5; 0]] [[0; 1; 1]; [0; 0; 1]; [1; 1; 1]]
    [2%nat; 1%nat] = Some ([1%nat], [12]) /\
  topk (pq_cfg 2 true 2 3) <> 1%nat /\
  PQ_query (pq_cfg 2 true 2 3) [] 0 [1; 2; 3] [0; 0; 1] [2%nat; 1%nat]
    [[1; 1; 1]; [2; 2; 2]; [0; 5; 0]] [[0; 1; 1]; [0; 0; 1]; [1; 1; 1]]
  = shortlist_reference (pq_cfg 2 true 2 3) [1; 2; 3] [0; 0; 1]
      [[1; 1; 1]; [2; 2; 2]; [0; 5; 0]] [[0; 1; 1]; [0; 0; 1]; [1; 1; 1]]
      [2%nat; 1%nat] /\
  shortlist_reference (pq_cfg 2 true 2 3) [1; 2; 3] [0; 0; 1]
    [[1; 1; 1]; [2; 2; 2]; [0; 5; 0]] [[0; 1; 1]; [0; 0; 1]; [1; 1; 1]]
    [2%nat; 1%nat] = Some ([1%nat; 2%nat], [12; 0]).
Proof.
  split; [repeat constructor|]. split; [repeat constructor|].
  split; [reflexivity|]. split.
  - rewrite <- (proj1 (rerank_is_exact_on_shortlist (cfg 1 1 true 2 3)
                        [1; 2; 3] [0; 0; 1]
                        [[1; 1; 1]; [2; 2; 2]; [0; 5; 0]]
                        [[0; 1; 1]; [0; 0; 1]; [1; 1; 1]]
                        ltac:(repeat constructor) ltac:(repeat constructor)
                        eq_refl eq_refl) [2%nat; 1%nat]).
    + reflexivity.
    + repeat constructor.
  - split; [discriminate|]. split; [|reflexivity].
    apply (proj1 (proj2 (proj2 (rerank_is_exact_on_shortlist
                    (pq_cfg 2 true 2 3) [1; 2; 3] [0; 0; 1]
                    [[1; 1; 1]; [2; 2; 2]; [0; 5; 0]]
                    [[0; 1; 1]; [0; 0; 1]; [1; 1; 1]]
                    ltac:(repeat constructor) ltac:(repeat constructor)
                    eq_refl eq_refl)))
             [] 0%nat [2%nat; 1%nat] eq_refl).
    + discriminate.
    + repeat constructor.
Defined.

(** ** An empty set of important dimensions *)

Lemma gated_scores_no_columns (ce : mat) (cargs : imat) :
  length cargs = length ce ->
  gated_scores (Torch.gather_cols 0 ce []) (Torch.gather_cols 0 cargs [])
    (Torch.gather 0 [] []) (Torch.gather 0 [] []) = repeat 0 (length ce).
Proof.
  rewrite gated_scores_combine. unfold Torch.gather_cols, Torch.gather.
  revert cargs; induction ce as [|c ce IH]; intros [|ca cargs]; simpl;
    try discriminate; try reflexivity.
  intros H. f_equal. apply IH. lia.
Qed.

Lemma gather_repeat_zero (n : nat) (idx : list nat) :
  Torch.gather 0 (repeat 0 n) idx = repeat 0 (length idx).
Proof.
  unfold Torch.gather. induction idx as [|i idx IH]; simpl; [reflexivity|].
  rewrite IH. f_equal.
  destruct (Nat.lt_ge_cases i n) as [Hi|Hi].
  - now apply nth_repeat_lt.
  - apply nth_overflow. now rewrite repeat_length.
Qed.

Lemma empty_important_idx (q : vec) (th : Z) :
  Torch.count_gt q th = 0%nat ->
  Torch.topk q (Torch.count_gt q th) = Some [].
Proof. intros H. rewrite H. reflexivity. Qed.

(** C4, as the code has it.  When no query entry exceeds [theta] (and
    [theta] is not 0), the pruned selector does not widen the dimension
    set: it scores over no dimension at all, so every first-stage score is
    0.  Without rerank the scores returned are all 0, and the query is
    answered whenever [topk] does not exceed the corpus size. *)
Theorem empty_important_set_scores_zero :
  forall args th q qa corpus_embs cargs,
    th <> 0 -> Torch.count_gt q th = 0%nat -> IP args = false ->
    length cargs = length corpus_embs ->
    partial_scores_of args th q qa corpus_embs cargs =
      Some (repeat 0 (length corpus_embs))
    /\ (rerank args = false -> (topk args <= length corpus_embs)%nat ->
        exists cands,
          GIP_query args th q qa corpus_embs cargs =
            Some (cands, repeat 0 (topk args)) /\
          length cands = topk args).
Proof.
  intros args th q qa ce cargs Hth Hcount Hip Hlen.
  assert (Hp : partial_scores_of args th q qa ce cargs
               = Some (repeat 0 (length ce))).
  { unfold partial_scores_of.
    rewrite (empty_important_idx q th Hcount), Hip. simpl.
    f_equal. rewrite <- (gated_scores_no_columns ce cargs Hlen).
    reflexivity. }
  split; [exact Hp|].
  intros Hrr Hk. unfold GIP_query.
  apply Z.eqb_neq in Hth. rewrite Hth, Hp, Hrr. simpl.
  rewrite topk_total by now rewrite repeat_length.
  simpl. eexists. split.
  - f_equal. f_equal. rewrite gather_repeat_zero.
    rewrite length_firstn, argsort_desc_length, repeat_length.
    f_equal. lia.
  - rewrite length_firstn, argsort_desc_length, repeat_length. lia.
Qed.

Lemma empty_important_set_witness :
  5 <> 0 /\ Torch.count_gt [1; 2; 3] 5 = 0%nat /\
  IP (cfg 2 5 false 2 3) = false /\
  partial_scores_of (cfg 2 5 false 2 3) 5 [1; 2; 3] [0; 0; 1]
    [[1; 1; 1]; [2; 2; 2]] [[0; 1; 1]; [0; 0; 1]] = Some [0; 0] /\
  rerank (cfg 2 5 false 2 3) = false /\
  (topk (cfg 2 5 false 2 3) <= length [[1; 1; 1]; [2; 2; 2]])%nat /\
  exists cands,
    GIP_query (cfg 2 5 false 2 3) 5 [1; 2; 3] [0; 0; 1]
      [[1; 1; 1]; [2; 2; 2]] [[0; 1; 1]; [0; 0; 1]] = Some (cands, [0; 0]) /\
    length cands = 2%nat.
Proof.
  destruct (empty_important_set_scores_zero (cfg 2 5 false 2 3) 5
              [1; 2; 3] [0; 0; 1] [[1; 1; 1]; [2; 2; 2]]
              [[0; 1; 1]; [0; 0; 1]]
              ltac:(discriminate) eq_refl eq_refl eq_refl)
    as (Hpartial & Hquery).
  split; [discriminate|]. split; [reflexivity|]. split; [reflexivity|].
  split; [exact Hpartial|]. split; [reflexivity|].
  split; [simpl; lia|].
  apply Hquery; [reflexivity | simpl; lia].
Defined.

(** C4, as stated, fails: with [theta = 5] no entry of the query [1, 2, 3]
    is important, and the scores returned are 0 and 0, while brute force at
    [theta = 0] returns 12 and 4. *)
Lemma empty_important_set_no_fallback :
  0 < theta (cfg 2 5 false 2 3) /\
  Torch.count_gt [1; 2; 3] (theta (cfg 2 5 false 2 3)) = 0%nat /\
  GIP_retrieval ["q"%string] [[1; 2; 3]] [[0; 0; 1]]
    [[1; 1; 1]; [2; 2; 2]] [[0; 1; 1]; [0; 0; 1]] (cfg 2 5 false 2 3)
  = Some ([("q"%string, [0%nat; 1%nat])], [("q"%string, [0; 0])]) /\
  GIP_retrieval ["q"%string] [[1; 2; 3]] [[0; 0; 1]]
    [[1; 1; 1]; [2; 2; 2]] [[0; 1; 1]; [0; 0; 1]] (cfg 2 0 false 2 3)
  = Some ([("q"%string, [1%nat; 0%nat])], [("q"%string, [12; 4])]) /\
  GIP_retrieval ["q"%string] [[1; 2; 3]] [[0; 0; 1]]
    [[1; 1; 1]; [2; 2; 2]] [[0; 1; 1]; [0; 0; 1]] (cfg 2 5 false 2 3)
  <> GIP_retrieval ["q"%string] [[1; 2; 3]] [[0; 0; 1]]
       [[1; 1; 1]; [2; 2; 2]] [[0; 1; 1]; [0; 0; 1]] (cfg 2 0 false 2 3).
Proof.
  split; [reflexivity|]. split; [reflexivity|].
  split; [reflexivity|]. split; [reflexivity|]. discriminate.
Qed.

(** ** A shortlist shorter than [topk] *)

Lemma select_rows_length {A : Type} (m : list A) (idx : list nat)
  (rows : list A) :
  Torch.select_rows m idx = Some rows -> length rows = length idx.
Proof.
  revert rows; induction idx as [|i idx IH]; simpl; intros rows H.
  - now inversion H.
  - apply bind_Some in H as (r & _ & H).
    apply bind_Some in H as (rs & Hrs & H). inversion H; subst rows.
    simpl. f_equal. now apply IH.
Qed.

Lemma rerank_shortlist_short (args : Args) (q : vec) (qa : ivec) (ce : mat)
  (cargs : imat) (shortlist : list nat) :
  (length shortlist < topk args)%nat ->
  rerank_shortlist args q qa ce cargs shortlist = None.
Proof.
  intros Hshort. unfold rerank_shortlist.
  destruct (Torch.select_rows cargs shortlist) as [ar|] eqn:Har;
    [simpl|reflexivity].
  destruct (Torch.select_rows ce shortlist) as [er|] eqn:Her;
    [simpl|reflexivity].
  replace (Torch.topk (gated_scores er ar q qa) (topk args)) with
    (@None (list nat)); [reflexivity|].
  symmetry. apply topk_None.
  rewrite gated_scores_length.
  - rewrite (select_rows_length _ _ _ Her). exact Hshort.
  - now rewrite (select_rows_length _ _ _ Har), (select_rows_length _ _ _ Her).
Qed.

Lemma GIP_query_short_shortlist (args : Args) (th : Z) (q : vec) (qa : ivec)
  (ce : mat) (cargs : imat) :
  th <> 0 -> rerank args = true -> (agip_topk args < topk args)%nat ->
  GIP_query args th q qa ce cargs = None.
Proof.
  intros Hth Hrr Hshort. unfold GIP_query.
  apply Z.eqb_neq in Hth. rewrite Hth, Hrr.
  destruct (partial_scores_of args th q qa ce cargs) as [p|];
    [simpl|reflexivity].
  destruct (Torch.topk p (agip_topk args)) as [cands|] eqn:Hc;
    [simpl|reflexivity].
  apply rerank_shortlist_short.
  now rewrite (topk_length _ _ _ Hc).
Qed.

(** C5, as the code has it.  With rerank on and [agip_topk < topk], the
    top-K selection over the shortlist raises, both after the pruned
    selector and after the quantized index (whose shortlist has
    [agip_topk] rows or fewer), and the whole run ends without results.  A
    result shorter than [topk] is produced only without rerank on the
    quantized-index path, which slices the first [topk] shortlist rows. *)
Theorem rerank_short_shortlist_raises :
  (forall args th q qa corpus_embs cargs,
     th <> 0 -> rerank args = true -> (agip_topk args < topk args)%nat ->
     GIP_query args th q qa corpus_embs cargs = None)
  /\ (forall args scores i q qa candidate corpus_embs cargs,
        rerank args = true -> (length candidate <= agip_topk args)%nat ->
        (agip_topk args < topk args)%nat ->
        PQ_query args scores i q qa candidate corpus_embs cargs = None)
  /\ (forall qids query_embs query_arg_idxs corpus_embs corpus_arg_idxs args,
        effective_theta args <> 0 -> rerank args = true ->
        (agip_topk args < topk args)%nat -> query_arg_idxs <> [] ->
        GIP_retrieval qids query_embs query_arg_idxs corpus_embs
          corpus_arg_idxs args = None)
  /\ (forall args scores i q qa candidate corpus_embs cargs r s,
        rerank args = false ->
        PQ_query args scores i q qa candidate corpus_embs cargs = Some (r, s) ->
        length r = Nat.min (topk args) (length candidate)).
Proof.
  split; [exact GIP_query_short_shortlist|].
  split; [|split].
  - intros args scores i q qa candidate ce cargs Hrr Hlen Hshort.
    unfold PQ_query. rewrite Hrr. apply rerank_shortlist_short. lia.
  - intros qids query_embs query_arg_idxs ce cargs args Hth Hrr Hshort Hne.
    unfold GIP_retrieval. cbv zeta.
    destruct query_embs as [|q query_embs]; [reflexivity|].
    destruct query_arg_idxs as [|qa query_arg_idxs]; [congruence|].
    assert (Hpad : exists qa' rest,
               pad_arg_idxs (Torch.shape1 (q :: query_embs) - emb_dim args)
                 (qa :: query_arg_idxs) = qa' :: rest).
    { unfold pad_arg_idxs, Torch.pad.
      destruct (0 <? _)%nat; simpl; eauto. }
    destruct Hpad as (qa' & rest & ->).
    unfold enumerate. simpl.
    now rewrite GIP_query_short_shortlist.
  - intros args scores i q qa candidate ce cargs r s Hrr H.
    unfold PQ_query in H. rewrite Hrr in H.
    apply bind_Some in H as (row & _ & H). inversion H; subst r s.
    apply length_firstn.
Qed.

Lemma rerank_short_shortlist_witness :
  (1 <> 0 /\ rerank (cfg 2 1 true 1 3) = true /\
   (agip_topk (cfg 2 1 true 1 3) < topk (cfg 2 1 true 1 3))%nat /\
   GIP_query (cfg 2 1 true 1 3) 1 [1; 2; 3] [0; 0; 1]
     [[1; 1; 1]; [2; 2; 2]] [[0; 1; 1]; [0; 0; 1]] = None)
  /\ ((length [1%nat] <= agip_topk (pq_cfg 2 true 1 3))%nat /\
      PQ_query (pq_cfg 2 true 1 3) [[12]] 0 [1; 2; 3] [0; 0; 1] [1%nat]
        corpus3 cargs3 = None)
  /\ (effective_theta (cfg 2 1 true 1 3) <> 0 /\
      [[0; 0; 1]] <> @nil ivec /\
      GIP_retrieval ["q"%string] [[1; 2; 3]] [[0; 0; 1]]
        [[1; 1; 1]; [2; 2; 2]] [[0; 1; 1]; [0; 0; 1]] (cfg 2 1 true 1 3)
      = None)
  /\ (rerank (pq_cfg 2 false 1 3) = false /\
      PQ_query (pq_cfg 2 false 1 3) [[12]] 0 [1; 2; 3] [0; 0; 1] [1%nat]
        corpus3 cargs3 = Some ([1%nat], [12]) /\
      length [1%nat] = Nat.min (topk (pq_cfg 2 false 1 3)) (length [1%nat])).
Proof.
  destruct rerank_short_shortlist_raises as (Hgip & Hpq & Hrun & Hslice).
  split; [|split; [|split]].
  - split; [discriminate|]. split; [reflexivity|].
    split; [unfold cfg; simpl; lia|].
    apply Hgip; [discriminate | reflexivity | unfold cfg; simpl; lia].
  - split; [simpl; lia|].
    apply Hpq; [reflexivity | simpl; lia | simpl; lia].
  - split; [discriminate|]. split; [discriminate|].
    apply Hrun; [discriminate | reflexivity | simpl; lia | discriminate].
  - split; [reflexivity|]. split; [reflexivity|].
    apply (Hslice (pq_cfg 2 false 1 3) [[12]] 0%nat [1; 2; 3] [0; 0; 1]
             [1%nat] corpus3 cargs3 [1%nat] [12]); reflexivity.
Defined.

(** C5, as stated, fails: with rerank on, [agip_topk = 1] and [topk = 2]
    the run over a two-row corpus ends in an exception, although the same
    run returns two rows per query once the shortlist holds two rows and
    also when rerank is off. *)
Lemma short_shortlist_run_aborts :
  rerank (cfg 2 1 true 1 3) = true /\
  (agip_topk (cfg 2 1 true 1 3) < topk (cfg 2 1 true 1 3))%nat /\
  GIP_retrieval ["q"%string] [[1; 2; 3]] [[0; 0; 1]]
    [[1; 1; 1]; [2; 2; 2]] [[0; 1; 1]; [0; 0; 1]] (cfg 2 1 true 1 3) = None /\
  GIP_retrieval ["q"%string] [[1; 2; 3]] [[0; 0; 1]]
    [[1; 1; 1]; [2; 2; 2]] [[0; 1; 1]; [0; 0; 1]] (cfg 2 1 true 2 3)
  = Some ([("q"%string, [1%nat; 0%nat])], [("q"%string, [12; 4])]) /\
  GIP_retrieval ["q"%string] [[1; 2; 3]] [[0; 0; 1]]
    [[1; 1; 1]; [2; 2; 2]] [[0; 1; 1]; [0; 0; 1]] (cfg 2 1 false 1 3)
  = Some ([("q"%string, [1%nat; 0%nat])], [("q"%string, [10; 3])]).
Proof.
  split; [reflexivity|]. split; [unfold cfg; simpl; lia|].
  split; [reflexivity|]. split; reflexivity.
Qed.

(** ** Length and order of every result *)

Lemma nonincreasing_firstn (k : nat) (s : vec) :
  nonincreasing s -> nonincreasing (firstn k s).
Proof.
  intros H r a b Ha Hb. rewrite nth_error_firstn in Ha, Hb.
  destruct (r <? k)%nat; [|discriminate].
  destruct (S r <? k)%nat; [|discriminate].
  exact (H r a b Ha Hb).
Qed.

Lemma IP_query_bounded_sorted (args : Args) (q : vec) (ce : mat) :
  (length (fst (IP_query args q ce)) <= topk args)%nat /\
  (length (snd (IP_query args q ce)) <= topk args)%nat /\
  nonincreasing (snd (IP_query args q ce)).
Proof.
  unfold IP_query; simpl. rewrite gather_length.
  repeat split; try apply firstn_le_length.
  apply sorted_nonincreasing, argsort_values_sorted.
Qed.

Lemma topk_gather_bounded_sorted (v : vec) (k : nat) (idx : list nat) :
  Torch.topk v k = Some idx ->
  length idx = k /\ length (Torch.gather 0 v idx) = k /\
  nonincreasing (Torch.gather 0 v idx).
Proof.
  intros H. rewrite gather_length.
  repeat split; try (eapply topk_length; exact H).
  apply sorted_nonincreasing. eapply topk_sorted; exact H.
Qed.

Lemma rerank_shortlist_bounded_sorted (args : Args) (q : vec) (qa : ivec)
  (ce : mat) (cargs : imat) (shortlist r : list nat) (s : vec) :
  rerank_shortlist args q qa ce cargs shortlist = Some (r, s) ->
  length r = topk args /\ length s = topk args /\ nonincreasing s.
Proof.
  unfold rerank_shortlist. intros H.
  apply bind_Some in H as (ar & _ & H).
  apply bind_Some in H as (er & _ & H).
  apply bind_Some in H as (idx & Hidx & H). inversion H; subst r s.
  rewrite gather_length.
  now apply topk_gather_bounded_sorted in Hidx.
Qed.

Lemma GIP_query_bounded_sorted (args : Args) (th : Z) (q : vec) (qa : ivec)
  (ce : mat) (cargs : imat) (r : list nat) (s : vec) :
  GIP_query args th q qa ce cargs = Some (r, s) ->
  length r = topk args /\ length s = topk args /\ nonincreasing s.
Proof.
  unfold GIP_query. destruct (th =? 0).
  - intros H. apply bind_Some in H as (idx & Hidx & H).
    inversion H; subst r s. now apply topk_gather_bounded_sorted.
  - intros H. apply bind_Some in H as (p & _ & H).
    destruct (rerank args).
    + apply bind_Some in H as (cands & _ & H).
      now apply rerank_shortlist_bounded_sorted in H.
    + apply bind_Some in H as (idx & Hidx & H).
      inversion H; subst r s. now apply topk_gather_bounded_sorted.
Qed.

Lemma PQ_IP_retrieval_entries
  (index_search : mat -> nat -> mat * list (list nat))
  (P : list nat -> vec -> Prop) (qids : list string) (query_embs : mat)
  (query_arg_idxs : imat) (corpus_embs : mat) (corpus_arg_idxs : imat)
  (args : Args) (acc : results_t) :
  (forall scores i q qa candidate cargs r s,
     PQ_query args scores i q qa candidate corpus_embs cargs = Some (r, s) ->
     P r s) ->
  PQ_IP_retrieval index_search qids query_embs query_arg_idxs corpus_embs
    corpus_arg_idxs args = Some acc ->
  entries_sat (fun _ r s => P r s) acc.
Proof.
  intros HP H. unfold PQ_IP_retrieval in H.
  apply bind_Some in H as (path & _ & H). cbv zeta in H.
  destruct (batch args =? 0)%nat; [discriminate|].
  apply bind_Some in H as (acc0 & Hloop & H).
  destruct (length query_embs =? 0)%nat; [discriminate|].
  inversion H; subst acc0; clear H.
  revert Hloop. apply foldM_invariant; [|apply entries_sat_nil].
  intros s0 b s1 _ Hs0. unfold PQ_batch.
  destruct (index_search _ (agip_topk args)) as [scores candidates] eqn:Hf.
  apply foldM_invariant; [|exact Hs0].
  intros s [i [qid [q [qa candidate]]]] s' _ Hs Hbody.
  apply bind_Some in Hbody as ([r sc] & Hquery & Hstore).
  inversion Hstore; subst s'.
  apply store_at_sat; [exact Hs|]. simpl.
  eapply HP. exact Hquery.
Qed.

Lemma GIP_query_no_corpus_args_bounded_sorted (args : Args) (th : Z)
  (q : vec) (ce : mat) (r : list nat) (s : vec) :
  GIP_query_no_corpus_args args th q ce = Some (r, s) ->
  length r = topk args /\ length s = topk args /\ nonincreasing s.
Proof.
  unfold GIP_query_no_corpus_args. destruct (th =? 0).
  - intros H. apply bind_Some in H as (idx & Hidx & H).
    inversion H; subst r s. now apply topk_gather_bounded_sorted.
  - intros H. apply bind_Some in H as (p & _ & H).
    destruct (IP args); simpl in H; [|discriminate].
    destruct (rerank args).
    + apply bind_Some in H as (cands & _ & H). discriminate.
    + apply bind_Some in H as (idx & Hidx & H).
      inversion H; subst r s. now apply topk_gather_bounded_sorted.
Qed.

Lemma GIP_retrieval_no_corpus_args_entries (qids : list string)
  (query_embs : mat) (query_arg_idxs : imat) (corpus_embs : mat)
  (args : Args) (acc : results_t) :
  GIP_retrieval_no_corpus_args qids query_embs query_arg_idxs corpus_embs
    args = Some acc ->
  entries_sat (fun qid r s =>
    exists i q,
      nth_error qids i = Some qid /\
      nth_error query_embs i = Some q /\
      GIP_query_no_corpus_args args (effective_theta args) q corpus_embs
        = Some (r, s)) acc.
Proof.
  unfold GIP_retrieval_no_corpus_args. intros H. cbv zeta in *.
  destruct (0 <? _)%nat; [discriminate|].
  apply bind_Some in H as (acc0 & Hloop & H).
  destruct (length query_embs =? 0)%nat; [discriminate|].
  inversion H; subst acc0; clear H.
  revert Hloop. apply foldM_invariant; [|apply entries_sat_nil].
  intros s [i [q qa]] s' Hin Hs Hbody.
  apply In_enumerate, nth_error_combine in Hin as [Hq Hqa].
  apply bind_Some in Hbody as ([r sc] & Hquery & Hstore).
  eapply store_sat; [exact Hs | | exact Hstore].
  intros qid Hqid. exists i, q. auto.
Qed.

Lemma retrieve_bounded_sorted (args : Args) (qids : list string)
  (query_embs : mat) (query_arg_idxs : option imat) (corpus_embs : mat)
  (corpus_arg_idxs : option imat) (results : dict (list nat))
  (scores : dict vec) :
  retrieve args qids query_embs query_arg_idxs corpus_embs corpus_arg_idxs
    = Some (results, scores) ->
  forall qid r s,
    dict_get results qid = Some r -> dict_get scores qid = Some s ->
    (length r <= topk args)%nat /\ (length s <= topk args)%nat /\
    nonincreasing s.
Proof.
  intros Hrun qid r s Hr Hs. unfold retrieve in Hrun.
  destruct query_arg_idxs as [qargs|].
  - destruct (PQIP args); simpl in Hrun; [discriminate|].
    destruct corpus_arg_idxs as [cargs|].
    + pose proof (GIP_retrieval_entries _ _ _ _ _ _ _ Hrun qid r s Hr Hs)
        as (i & q & qa & _ & _ & _ & Hq).
      apply GIP_query_bounded_sorted in Hq as (-> & -> & Hsorted). auto.
    + pose proof (GIP_retrieval_no_corpus_args_entries _ _ _ _ _ _ Hrun
                    qid r s Hr Hs) as (i & q & _ & _ & Hq).
      apply GIP_query_no_corpus_args_bounded_sorted in Hq
        as (-> & -> & Hsorted). auto.
  - pose proof (IP_retrieval_entries _ _ _ _ _ Hrun qid r s Hr Hs)
      as (i & q & _ & _ & Hq).
    pose proof (IP_query_bounded_sorted args q corpus_embs) as Hb.
    rewrite <- Hq in Hb. exact Hb.
Qed.

(** C6.  Every result list a run of the script produces has at most [topk]
    candidates and at most [topk] scores, and its scores do not increase
    with the rank.  This covers every way [main] reaches the retrieval
    (lines 321-328): plain inner product, GIP with any [theta], with or
    without rerank, with or without the [IP] switch, brute force, and a
    corpus snapshot without argument indices.  With [--PQIP] the run of
    [main] produces no result at all.  For the body of [PQ_IP_retrieval]
    taken on its own, with any search backend: every entry has at most
    [topk] scores; with rerank it has exactly [topk] scores, which do not
    increase with the rank, and, for [topk] other than 1, exactly [topk]
    candidates; without rerank it has at most [topk] candidates, and its
    scores are a row of the backend cut to [topk], in the backend's
    order. *)
Theorem results_bounded_and_sorted :
  (forall args qids query_embs query_arg_idxs corpus_embs corpus_arg_idxs
          results scores,
     retrieve args qids query_embs query_arg_idxs corpus_embs
       corpus_arg_idxs = Some (results, scores) ->
     forall qid r s,
       dict_get results qid = Some r -> dict_get scores qid = Some s ->
       (length r <= topk args)%nat /\ (length s <= topk args)%nat /\
       nonincreasing s)
  /\ (forall args qids query_embs query_arg_idxs corpus_embs
             corpus_arg_idxs,
        PQIP args = true ->
        retrieve args qids query_embs (Some query_arg_idxs) corpus_embs
          corpus_arg_idxs = None)
  /\ (forall index_search args qids query_embs query_arg_idxs corpus_embs
             corpus_arg_idxs results scores,
        PQ_IP_retrieval index_search qids query_embs query_arg_idxs
          corpus_embs corpus_arg_idxs args = Some (results, scores) ->
        forall qid r s,
          dict_get results qid = Some r -> dict_get scores qid = Some s ->
          (length s <= topk args)%nat /\
          (rerank args = true ->
           length s = topk args /\ nonincreasing s /\
           (topk args <> 1%nat -> length r = topk args)) /\
          (rerank args = false -> (length r <= topk args)%nat)).
Proof.
  split; [|split].
  - intros args qids query_embs query_arg_idxs corpus_embs corpus_arg_idxs
           results scores Hrun.
    exact (retrieve_bounded_sorted _ _ _ _ _ _ _ _ Hrun).
  - intros args qids query_embs query_arg_idxs corpus_embs corpus_arg_idxs
           Hpq.
    unfold retrieve. now rewrite Hpq.
  - intros index_search args qids query_embs query_arg_idxs corpus_embs
           corpus_arg_idxs results scores Hrun qid r s Hr Hs.
    eapply (PQ_IP_retrieval_entries index_search
              (fun r s =>
                 (length s <= topk args)%nat /\
                 (rerank args = true ->
                  length s = topk args /\ nonincreasing s /\
                  (topk args <> 1%nat -> length r = topk args)) /\
                 (rerank args = false -> (length r <= topk args)%nat)));
      [| exact Hrun | exact Hr | exact Hs].
    intros sc i q qa candidate cargs r' s' Hq.
    unfold PQ_query in Hq. destruct (rerank args).
    + apply rerank_shortlist_bounded_sorted in Hq as (Hlr & Hls & Hsorted).
      split; [lia|]. split; [auto|]. discriminate.
    + apply bind_Some in Hq as (row & Hrow & Hq). inversion Hq; subst r' s'.
      split; [apply firstn_le_length|]. split; [discriminate|].
      intros _. apply firstn_le_length.
Qed.

Lemma results_bounded_witness :
  (retrieve (cfg 2 1 false 3 3) ["q"%string] [[1; 2; 3]]
    (Some [[0; 0; 1]]) corpus3 (Some cargs3)
  = Some ([("q"%string, [1; 0]%nat)], [("q"%string, [10; 3])]) /\
  (length [1; 0]%nat <= topk (cfg 2 1 false 3 3))%nat /\
  (length [10; 3] <= topk (cfg 2 1 false 3 3))%nat /\
  nonincreasing [10; 3]) /\
  retrieve (shard_cfg_ip 2) ["q"%string] [[1; 2; 3]]
    (Some [[0; 0; 1]]) corpus3 None
  = Some ([("q"%string, [1; 2]%nat)], [("q"%string, [12; 10])]) /\
  retrieve (pq_cfg 2 false 3 3) ["q"%string] [[1; 2; 3]]
    (Some [[0; 0; 1]]) corpus3 (Some cargs3) = None.
Proof.
  split; [|split; reflexivity].
  split; [reflexivity|].
  apply (proj1 results_bounded_and_sorted
           (cfg 2 1 false 3 3) ["q"%string] [[1; 2; 3]] (Some [[0; 0; 1]])
           corpus3 (Some cargs3) [("q"%string, [1; 0]%nat)]
           [("q"%string, [10; 3])] eq_refl
           "q"%string [1; 0]%nat [10; 3] eq_refl eq_refl).
Defined.

(** ** Sharding *)

Lemma firstn_plus {A : Type} (a b : nat) (l : list A) :
  firstn (a + b) l = firstn a l ++ firstn b (skipn a l).
Proof.
  revert l; induction a as [|a IH]; intros l; simpl; [reflexivity|].
  destruct l as [|x l]; simpl.
  - now rewrite firstn_nil.
  - now rewrite IH.
Qed.

Lemma concat_chunks {A : Type} (d t : nat) (l : list A) :
  concat (map (fun idx => firstn d (skipn (d * idx) l)) (seq 0 t)) =
  firstn (d * t) l.
Proof.
  induction t as [|t IH].
  - simpl. now rewrite Nat.mul_0_r.
  - rewrite seq_S, map_app, concat_app, IH. simpl.
    rewrite app_nil_r, <- firstn_plus. f_equal. lia.
Qed.

Lemma concat_shard_ranges {A : Type} (d total : nat) (l : list A) :
  (1 <= total)%nat ->
  concat (map (fun idx => shard_range d total idx l) (seq 0 total)) = l.
Proof.
  intros Htot. destruct total as [|t]; [lia|].
  rewrite seq_S, map_app, concat_app. simpl.
  rewrite app_nil_r.
  rewrite (map_ext_in _ (fun idx => firstn d (skipn (d * idx) l))).
  - rewrite concat_chunks. unfold shard_range.
    replace (t <? S t - 1)%nat with false
      by (symmetry; apply Nat.ltb_ge; lia).
    replace (S t - 1)%nat with t by lia. apply firstn_skipn.
  - intros idx Hin. apply in_seq in Hin. unfold shard_range.
    replace (idx <? S t - 1)%nat with true
      by (symmetry; apply Nat.ltb_lt; lia).
    reflexivity.
Qed.

Lemma shard_slice_range {A : Type} (args : Args) (d idx : nat) (l : list A) :
  (idx < total_shrad args)%nat ->
  shard_slice (set_shrad args idx) d l =
  shard_range d (total_shrad args) idx l.
Proof.
  intros Hidx. unfold shard_slice, shard_range, slice, slice_from. simpl.
  destruct (idx =? total_shrad args - 1)%nat eqn:E.
  - apply Nat.eqb_eq in E.
    replace (idx <? total_shrad args - 1)%nat with false
      by (symmetry; apply Nat.ltb_ge; lia).
    now rewrite E.
  - apply Nat.eqb_neq in E.
    replace (idx <? total_shrad args - 1)%nat with true
      by (symmetry; apply Nat.ltb_lt; lia).
    rewrite firstn_skipn_comm. do 2 f_equal. lia.
Qed.

Lemma shard_range_nth_error {A : Type} (d total idx p : nat) (l : list A)
  (x : A) :
  (idx < total)%nat ->
  nth_error (shard_range d total idx l) p = Some x <->
  nth_error l (d * idx + p) = Some x /\
  ((idx < total - 1)%nat -> (p < d)%nat).
Proof.
  intros Hidx. unfold shard_range.
  destruct (idx <? total - 1)%nat eqn:E.
  - apply Nat.ltb_lt in E.
    rewrite nth_error_firstn, nth_error_skipn.
    destruct (p <? d)%nat eqn:Ep.
    + apply Nat.ltb_lt in Ep. tauto.
    + apply Nat.ltb_ge in Ep. split; [discriminate|].
      intros [_ H]. specialize (H E). lia.
  - apply Nat.ltb_ge in E. rewrite nth_error_skipn.
    replace (total - 1)%nat with idx by lia.
    split; [intros H; split; [exact H | lia] | tauto].
Qed.

(** C7.  With [shard_size = N div total_shards], shard [idx] of the corpus
    is the index range from [shard_size * idx] up to
    [shard_size * (idx + 1)] for [idx < total_shards - 1], and from
    [shard_size * (total_shards - 1)] to the end for the last shard; this is
    what [main] loads for vectors, argument indices and document ids, and
    the shards concatenated in index order give back each of the three
    arrays. *)
Theorem sharding_partitions_corpus :
  forall args corpus_embs corpus_arg_idxs docids,
    (1 <= total_shrad args)%nat ->
    let total := total_shrad args in
    let shard_size := (length docids / total)%nat in
    (forall idx, (idx < total)%nat ->
       load_index (set_shrad args idx) (corpus_embs, corpus_arg_idxs, docids)
       = Some (shard_range shard_size total idx corpus_embs,
               option_map (shard_range shard_size total idx) corpus_arg_idxs,
               shard_range shard_size total idx docids))
    /\ (forall (A : Type) (l : list A) idx p x, (idx < total)%nat ->
          (nth_error (shard_range shard_size total idx l) p = Some x <->
           nth_error l (shard_size * idx + p) = Some x /\
           ((idx < total - 1)%nat -> (p < shard_size)%nat)))
    /\ concat (map (fun idx => shard_range shard_size total idx corpus_embs)
                   (seq 0 total)) = corpus_embs
    /\ (forall arg_idxs, corpus_arg_idxs = Some arg_idxs ->
          concat (map (fun idx => shard_range shard_size total idx arg_idxs)
                      (seq 0 total)) = arg_idxs)
    /\ concat (map (fun idx => shard_range shard_size total idx docids)
                   (seq 0 total)) = docids.
Proof.
  intros args ce cargs docids Htot total shard_size.
  split; [|split; [|split; [|split]]].
  - intros idx Hidx. unfold load_index.
    change (total_shrad (set_shrad args idx)) with total.
    replace (total =? 0)%nat with false
      by (symmetry; apply Nat.eqb_neq; unfold total; lia).
    fold shard_size.
    rewrite !(shard_slice_range args shard_size idx) by exact Hidx.
    destruct cargs as [a|]; simpl; [|reflexivity].
    now rewrite (shard_slice_range args shard_size idx).
  - intros A l idx p x Hidx. now apply shard_range_nth_error.
  - now apply concat_shard_ranges.
  - intros a _. now apply concat_shard_ranges.
  - now apply concat_shard_ranges.
Qed.

Lemma sharding_witness :
  (1 <= total_shrad (shard_cfg 2 0))%nat /\
  load_index (shard_cfg 2 0) index5
  = Some ([[1]; [2]], Some [[0]; [0]], ["d0"; "d1"]%string) /\
  load_index (shard_cfg 2 1) index5
  = Some ([[3]; [4]; [5]], Some [[1]; [1]; [0]], ["d2"; "d3"; "d4"]%string) /\
  concat (map (fun idx => shard_range 2 2 idx docids5) (seq 0 2)) = docids5.
Proof.
  destruct (sharding_partitions_corpus (shard_cfg 2 0)
              [[1]; [2]; [3]; [4]; [5]] (Some [[0]; [0]; [1]; [1]; [0]])
              docids5 ltac:(simpl; lia))
    as (Hload & _ & _ & _ & Hdocs).
  split; [simpl; lia|].
  split; [exact (Hload 0%nat ltac:(simpl; lia))|].
  split; [exact (Hload 1%nat ltac:(simpl; lia))|].
  exact Hdocs.
Defined.

(** ** The ranking file *)

Lemma nth_error_In_combine_seq {A : Type} (l : list A) (b i : nat) (x : A) :
  nth_error l i = Some x -> In ((b + i)%nat, x) (combine (seq b (length l)) l).
Proof.
  revert b i; induction l as [|y l IH]; intros b [|i]; simpl;
    try discriminate.
  - intros H; inversion H; subst. left. f_equal. lia.
  - intros H. right. replace (b + S i)%nat with (S b + i)%nat by lia.
    now apply IH.
Qed.

Lemma nth_error_In_enumerate {A : Type} (l : list A) (i : nat) (x : A) :
  nth_error l i = Some x -> In (i, x) (enumerate l).
Proof. intros H. exact (nth_error_In_combine_seq l 0 i x H). Qed.

Lemma write_query_rows (args : Args) (docids : list string)
  (query_id : string) (result : list nat) (score : vec)
  (fout out : list Line) :
  write_query args docids query_id result score fout = Some out ->
  out = fout ++ written_rows args docids query_id result score.
Proof.
  unfold write_query, written_rows. generalize (enumerate result) as rows.
  intros rows; revert fout.
  induction rows as [|[rank docidx] rows IH]; simpl; intros fout H.
  - inversion H. now rewrite app_nil_r.
  - apply bind_Some in H as (fout1 & Hstep & Hrest).
    apply IH in Hrest. subst out.
    destruct (nth_error docids docidx) as [docid|]; [simpl in Hstep|discriminate].
    destruct (negb (String.eqb docid query_id)).
    + destruct (nth_error score rank) as [s|]; [simpl in Hstep|discriminate].
      inversion Hstep; subst fout1. now rewrite <- app_assoc.
    + inversion Hstep; subst fout1.
      destruct (nth_error score rank); reflexivity.
Qed.

Lemma write_keys_rows (args : Args) (docids : list string)
  (results : dict (list nat)) (scores : dict vec) (keys : list string)
  (fout out : list Line) :
  foldM (fun fout query_id =>
           result <- dict_get results query_id ;;
           score <- dict_get scores query_id ;;
           write_query args docids query_id result score fout)
        keys fout = Some out ->
  out = fout ++
        flat_map (fun query_id =>
                    match dict_get results query_id,
                          dict_get scores query_id with
                    | Some result, Some score =>
                        written_rows args docids query_id result score
                    | _, _ => []
                    end) keys.
Proof.
  revert fout; induction keys as [|k keys IH]; simpl; intros fout H.
  - inversion H. now rewrite app_nil_r.
  - apply bind_Some in H as (fout1 & Hstep & Hrest).
    apply IH in Hrest. subst out.
    destruct (dict_get results k) as [result|]; [simpl in Hstep|discriminate].
    destruct (dict_get scores k) as [score|]; [simpl in Hstep|discriminate].
    apply write_query_rows in Hstep. subst fout1. now rewrite <- app_assoc.
Qed.

Lemma write_results_rows (args : Args) (docids : list string)
  (results : dict (list nat)) (scores : dict vec) (out : list Line) :
  write_results args docids (results, scores) = Some out ->
  out = flat_map (fun query_id =>
                    match dict_get results query_id,
                          dict_get scores query_id with
                    | Some result, Some score =>
                        written_rows args docids query_id result score
                    | _, _ => []
                    end) (dict_keys results).
Proof.
  unfold write_results. intros H.
  now apply write_keys_rows in H.
Qed.

Lemma written_rows_In (args : Args) (docids : list string) (query_id : string)
  (result : list nat) (score : vec) (l : Line) :
  In l (written_rows args docids query_id result score) <->
  exists rank docidx,
    nth_error result rank = Some docidx /\
    nth_error docids docidx = Some (line_docid l) /\
    nth_error score rank = Some (line_score l) /\
    line_docid l <> query_id /\
    l = {| line_query_id := query_id; line_docid := line_docid l;
           line_rank := rank + 1; line_score := line_score l;
           line_run_name := run_name args |}.
Proof.
  unfold written_rows. rewrite in_flat_map. split.
  - intros ([rank docidx] & Hin & Hl).
    apply In_enumerate in Hin. exists rank, docidx.
    destruct (nth_error docids docidx) as [docid|]; [|contradiction].
    destruct (nth_error score rank) as [s|]; [|contradiction].
    destruct (String.eqb docid query_id) eqn:E; simpl in Hl; [contradiction|].
    destruct Hl as [<-|[]]. simpl.
    apply String.eqb_neq in E. auto.
  - intros (rank & docidx & Hr & Hd & Hs & Hne & Hl).
    exists (rank, docidx). split; [now apply nth_error_In_enumerate|].
    rewrite Hd, Hs. apply String.eqb_neq in Hne. rewrite Hne. simpl.
    left. now symmetry.
Qed.

(** C8.  A ranked row whose document id equals the query id is left out of
    the ranking file, and nothing else is: every line written is a ranked
    row of its query with a different document id, and every such row with
    a score is written.  The filter acts when the file is written, so the
    rank on a line is the row's position in the ranked list, counted from
    1, and a rank number is missing where a self-hit was dropped: in a run
    that ranks the query's own document second, the file has ranks 1 and
    3. *)
Theorem self_hits_omitted_ranks_kept :
  (forall args docids results scores out,
     write_results args docids (results, scores) = Some out ->
     (forall l, In l out ->
        line_docid l <> line_query_id l /\
        exists result score rank docidx,
          dict_get results (line_query_id l) = Some result /\
          dict_get scores (line_query_id l) = Some score /\
          nth_error result rank = Some docidx /\
          nth_error docids docidx = Some (line_docid l) /\
          line_rank l = (rank + 1)%nat /\
          nth_error score rank = Some (line_score l))
     /\ (forall qid result score rank docidx docid s,
           In qid (dict_keys results) ->
           dict_get results qid = Some result ->
           dict_get scores qid = Some score ->
           nth_error result rank = Some docidx ->
           nth_error docids docidx = Some docid ->
           nth_error score rank = Some s ->
           docid <> qid ->
           In {| line_query_id := qid; line_docid := docid;
                 line_rank := rank + 1; line_score := s;
                 line_run_name := run_name args |} out))
  /\ retrieve (shard_cfg 1 0) ["q1"%string]
       [[1]] None [[3]; [2]; [1]] None
     = Some ([("q1"%string, [0%nat; 1%nat; 2%nat])],
             [("q1"%string, [3; 2; 1])])
  /\ main (shard_cfg 1 0) self_query
       self_index
     = Some [ {| line_query_id := "q1"; line_docid := "d0"; line_rank := 1;
                 line_score := 3; line_run_name := "run" |};
              {| line_query_id := "q1"; line_docid := "d2"; line_rank := 3;
                 line_score := 1; line_run_name := "run" |} ].
Proof.
  split; [|split; reflexivity].
  intros args docids results scores out Hrun.
  apply write_results_rows in Hrun. subst out. split.
  - intros l Hl. apply in_flat_map in Hl as (qid & Hkey & Hl).
    destruct (dict_get results qid) as [result|] eqn:Hr; [|contradiction].
    destruct (dict_get scores qid) as [score|] eqn:Hs; [|contradiction].
    apply written_rows_In in Hl
      as (rank & docidx & Hrank & Hdoc & Hscore & Hne & Heq).
    assert (Hq : line_query_id l = qid) by (rewrite Heq; reflexivity).
    assert (Hk : line_rank l = (rank + 1)%nat) by (rewrite Heq; reflexivity).
    rewrite Hq. split; [exact Hne|].
    exists result, score, rank, docidx. auto 10.
  - intros qid result score rank docidx docid s Hkey Hr Hs Hrank Hdoc Hscore
           Hne.
    apply in_flat_map. exists qid. split; [exact Hkey|].
    rewrite Hr, Hs. apply written_rows_In. exists rank, docidx. simpl. auto 10.
Qed.

Lemma self_hits_witness :
  write_results (shard_cfg 1 0) ["d0"; "q1"; "d2"]%string
    ([("q1"%string, [0%nat; 1%nat; 2%nat])], [("q1"%string, [3; 2; 1])])
  = Some [ {| line_query_id := "q1"; line_docid := "d0"; line_rank := 1;
              line_score := 3; line_run_name := "run" |};
           {| line_query_id := "q1"; line_docid := "d2"; line_rank := 3;
              line_score := 1; line_run_name := "run" |} ] /\
  forall l,
    In l [ {| line_query_id := "q1"; line_docid := "d0"; line_rank := 1;
              line_score := 3; line_run_name := "run" |};
           {| line_query_id := "q1"; line_docid := "d2"; line_rank := 3;
              line_score := 1; line_run_name := "run" |} ] ->
    line_docid l <> line_query_id l.
Proof.
  split; [reflexivity|].
  intros l Hl.
  apply (proj1 (proj1 self_hits_omitted_ranks_kept (shard_cfg 1 0)
                  ["d0"; "q1"; "d2"]%string
                  [("q1"%string, [0%nat; 1%nat; 2%nat])]
                  [("q1"%string, [3; 2; 1])] _ eq_refl) l Hl).
Defined.

(** ** Padding of the argument indices *)

Lemma pad_arg_idxs_row (n : nat) (m : imat) (i : nat) :
  (0 < n)%nat ->
  nth_error (pad_arg_idxs n m) i =
  option_map (fun row => row ++ repeat 1 n) (nth_error m i).
Proof.
  intros Hn. unfold pad_arg_idxs, Torch.pad.
  apply Nat.ltb_lt in Hn. rewrite Hn. apply nth_error_map.
Qed.

Lemma eq_vec_app (a b a' b' : ivec) :
  length a = length b ->
  Torch.eq_vec (a ++ a') (b ++ b') = Torch.eq_vec a b ++ Torch.eq_vec a' b'.
Proof.
  revert b; induction a as [|x a IH]; intros [|y b]; simpl; try discriminate.
  - reflexivity.
  - intros H. f_equal. apply IH. lia.
Qed.

Lemma eq_vec_length (a b : ivec) :
  length a = length b -> length (Torch.eq_vec a b) = length a.
Proof.
  revert b; induction a as [|x a IH]; intros [|y b]; simpl; try discriminate.
  - reflexivity.
  - intros H. f_equal. apply IH. lia.
Qed.

Lemma eq_vec_repeat (v : Z) (n : nat) :
  Torch.eq_vec (repeat v n) (repeat v n) = repeat true n.
Proof.
  induction n as [|n IH]; simpl; [reflexivity|].
  now rewrite Z.eqb_refl, IH.
Qed.

Lemma mul_bvec_all_true (n : nat) (x : vec) :
  length x = n -> Torch.mul_bvec (repeat true n) x = x.
Proof.
  revert x; induction n as [|n IH]; intros [|e x]; simpl; try discriminate.
  - reflexivity.
  - intros H. f_equal. apply IH. lia.
Qed.

Lemma gated_dot_app (m1 m2 : bvec) (c q : vec) :
  (length m1 <= length c)%nat -> (length m1 <= length q)%nat ->
  Torch.dot (Torch.mul_bvec (m1 ++ m2) c) q =
  Torch.dot (Torch.mul_bvec m1 (firstn (length m1) c)) (firstn (length m1) q)
  + Torch.dot (Torch.mul_bvec m2 (skipn (length m1) c)) (skipn (length m1) q).
Proof.
  revert c q; induction m1 as [|b m1 IH]; intros c q Hc Hq.
  - reflexivity.
  - destruct c as [|e c]; [simpl in Hc; lia|].
    destruct q as [|y q]; [simpl in Hq; lia|].
    simpl in *. rewrite IH by lia. lia.
Qed.

Lemma gated_row_padded (cls_dim : nat) (q : vec) (qa : ivec) (c : vec)
  (ca : ivec) (e : nat) :
  length qa = e -> length ca = e ->
  length c = (e + cls_dim)%nat -> length q = (e + cls_dim)%nat ->
  Torch.dot
    (Torch.mul_bvec
       (Torch.eq_vec (ca ++ repeat 1 cls_dim) (qa ++ repeat 1 cls_dim)) c) q
  = gip_sum (firstn e q) qa (firstn e c) ca
    + Torch.dot (skipn e c) (skipn e q).
Proof.
  intros Hqa Hca Hc Hq.
  rewrite eq_vec_app by congruence.
  rewrite eq_vec_repeat.
  assert (Hm : length (Torch.eq_vec ca qa) = e)
    by (rewrite eq_vec_length; congruence).
  rewrite gated_dot_app by lia. rewrite Hm.
  rewrite mul_bvec_all_true by (rewrite length_skipn; lia).
  f_equal. apply gated_row_gip_sum; rewrite ?length_firstn; lia.
Qed.

(** C9, as the code has it.  Query and corpus argument indices are padded
    with the same constant 1 (only when [cls_dim > 0]), so at every padded
    dimension the two ids are equal, the gate is open, and the dimension
    contributes [candidate[j] * query[j]]: the score is the gated sum over
    the first [e] dimensions plus the plain inner product over the padded
    ones. *)
Theorem padded_dimensions_always_match :
  forall (cls_dim : nat) (query_arg_idxs corpus_arg_idxs : imat)
         (corpus_embs : mat) (q : vec) (k i : nat) (qa ca : ivec) (c : vec)
         (e : nat),
    (0 < cls_dim)%nat ->
    nth_error query_arg_idxs k = Some qa ->
    nth_error corpus_arg_idxs i = Some ca ->
    nth_error corpus_embs i = Some c ->
    length qa = e -> length ca = e ->
    length c = (e + cls_dim)%nat -> length q = (e + cls_dim)%nat ->
    exists qa' ca',
      nth_error (pad_arg_idxs cls_dim query_arg_idxs) k = Some qa' /\
      nth_error (pad_arg_idxs cls_dim corpus_arg_idxs) i = Some ca' /\
      (forall j, (e <= j < e + cls_dim)%nat ->
         nth j qa' 0 = 1 /\ nth j ca' 0 = 1 /\
         nth j (Torch.eq_vec ca' qa') false = true) /\
      nth_error
        (gated_scores corpus_embs (pad_arg_idxs cls_dim corpus_arg_idxs)
           q qa') i
      = Some (gip_sum (firstn e q) qa (firstn e c) ca
              + Torch.dot (skipn e c) (skipn e q)).
Proof.
  intros cls_dim qargs cargs ce q k i qa ca c e Hcls Hqa Hca Hc Hlqa Hlca
         Hlc Hlq.
  exists (qa ++ repeat 1 cls_dim), (ca ++ repeat 1 cls_dim).
  assert (Hpq : nth_error (pad_arg_idxs cls_dim qargs) k
                = Some (qa ++ repeat 1 cls_dim))
    by (rewrite pad_arg_idxs_row by exact Hcls; now rewrite Hqa).
  assert (Hpc : nth_error (pad_arg_idxs cls_dim cargs) i
                = Some (ca ++ repeat 1 cls_dim))
    by (rewrite pad_arg_idxs_row by exact Hcls; now rewrite Hca).
  split; [exact Hpq|]. split; [exact Hpc|]. split.
  - intros j Hj.
    rewrite !app_nth2 by lia.
    rewrite !nth_repeat_lt by lia.
    split; [reflexivity|]. split; [reflexivity|].
    rewrite eq_vec_app, eq_vec_repeat by congruence.
    rewrite app_nth2 by (rewrite eq_vec_length; lia).
    rewrite eq_vec_length by congruence.
    apply nth_repeat_lt. lia.
  - rewrite gated_scores_combine, nth_error_map.
    rewrite (nth_error_combine_Some _ _ _ _ _ Hc Hpc). simpl.
    f_equal. now apply gated_row_padded.
Qed.

Lemma padded_dimensions_witness :
  (0 < 1)%nat /\
  nth_error
    (gated_scores [[1; 1; 5]] (pad_arg_idxs 1 [[0; 1]]) [1; 2; 3] [0; 0; 1])
    0
  = Some (gip_sum [1; 2] [0; 0] [1; 1] [0; 1] + Torch.dot [5] [3]).
Proof.
  split; [lia|].
  destruct (padded_dimensions_always_match 1 [[0; 0]] [[0; 1]] [[1; 1; 5]]
              [1; 2; 3] 0 0 [0; 0] [0; 1] [1; 1; 5] 2
              ltac:(lia) eq_refl eq_refl eq_refl eq_refl eq_refl eq_refl
              eq_refl)
    as (qa' & ca' & Hq & _ & _ & Hscore).
  simpl in Hq. inversion Hq; subst qa'. exact Hscore.
Defined.

(** C9, as stated, fails: with one padded dimension, the padded argument
    ids of query and candidate are both 1, the gate at that dimension is
    open, and the score 16 is the gated sum 1 of the two lexical dimensions
    plus [5 * 3] from the padded one. *)
Lemma padded_dimension_contributes :
  pad_arg_idxs 1 [[0; 0]] = [[0; 0; 1]] /\
  pad_arg_idxs 1 [[0; 1]] = [[0; 1; 1]] /\
  Torch.eq_rows (pad_arg_idxs 1 [[0; 1]]) [0; 0; 1] = [[true; false; true]] /\
  GIP_retrieval ["q"%string] [[1; 2; 3]] [[0; 0]] [[1; 1; 5]] [[0; 1]]
    (cfg 1 0 false 1 2)
  = Some ([("q"%string, [0%nat])], [("q"%string, [16])]) /\
  gip_sum [1; 2] [0; 0] [1; 1] [0; 1] = 1.
Proof. repeat split. Qed.

(** ** A query snapshot without argument indices *)

Lemma foldM_accumulate {A S : Type} (Q : A -> S -> Prop)
  (body : S -> A -> option S) (l : list A) :
  (forall s a s', body s a = Some s' ->
     Q a s' /\ forall b, Q b s -> Q b s') ->
  forall s s', foldM body l s = Some s' -> forall a, In a l -> Q a s'.
Proof.
  intros Hstep. induction l as [|x l IH]; simpl; intros s s' H a Hin;
    [contradiction|].
  apply bind_Some in H as (s1 & H1 & H2).
  destruct Hin as [->|Hin]; [|eapply IH; eauto].
  destruct (Hstep s a s1 H1) as [Hq _].
  apply (foldM_invariant (fun t => Q a t) body l) with (s := s1); auto.
  intros t b t' _ Ht Hb. now apply (Hstep t b t').
Qed.

Lemma IP_retrieval_total (qids : list string) (query_embs corpus_embs : mat)
  (args : Args) :
  query_embs <> [] -> (length query_embs <= length qids)%nat ->
  exists results scores,
    IP_retrieval qids query_embs corpus_embs args = Some (results, scores).
Proof.
  intros Hne Hlen. unfold IP_retrieval.
  destruct (foldM_total
              (fun acc '(i, query_emb) =>
                 store qids i acc (IP_query args query_emb corpus_embs))
              (enumerate query_embs)) with (s := (@nil (string * list nat),
                                                  @nil (string * vec)))
    as ([results scores] & Hloop).
  - intros s [i q] Hin. apply store_total.
    apply In_nth_error_enumerate in Hin. lia.
  - unfold results_t, dict in *. rewrite Hloop. simpl.
    destruct query_embs; [congruence|]. simpl. eauto.
Qed.

Lemma IP_retrieval_complete (qids : list string) (query_embs corpus_embs : mat)
  (args : Args) (results : dict (list nat)) (scores : dict vec) :
  IP_retrieval qids query_embs corpus_embs args = Some (results, scores) ->
  forall i qid, (i < length query_embs)%nat -> nth_error qids i = Some qid ->
    exists r s, dict_get results qid = Some r /\ dict_get scores qid = Some s.
Proof.
  unfold IP_retrieval. intros H i qid Hi Hqid.
  apply bind_Some in H as (acc & Hloop & H).
  destruct (length query_embs =? 0)%nat; [discriminate|].
  inversion H; subst acc; clear H.
  destruct (nth_error query_embs i) as [q|] eqn:Hq;
    [|apply nth_error_None in Hq; lia].
  match type of Hloop with
  | foldM ?body ?l _ = _ =>
      pose proof (foldM_accumulate
        (fun (a : nat * vec) (acc : results_t) =>
           forall k, nth_error qids (fst a) = Some k ->
             dict_get (fst acc) k <> None /\ dict_get (snd acc) k <> None)
        body l) as Hacc
  end.
  specialize (fun Hstep => Hacc Hstep _ _ Hloop (i, q)
                             (nth_error_In_enumerate _ _ _ Hq) qid Hqid).
  simpl in Hacc.
  destruct Hacc as [Hr Hs].
  - intros s [j x] s' Hbody. unfold store in Hbody.
    apply bind_Some in Hbody as (k0 & Hk0 & Hbody).
    inversion Hbody; subst s'; clear Hbody. simpl. split.
    + intros k Hk. rewrite Hk0 in Hk. inversion Hk; subst k0.
      rewrite !dict_get_set, String.eqb_refl. split; discriminate.
    + intros b Hb k Hk. rewrite !dict_get_set.
      destruct (String.eqb k0 k); [split; discriminate | now apply Hb].
  - destruct (dict_get results qid) as [r|]; [|congruence].
    destruct (dict_get scores qid) as [s|]; [|congruence].
    eauto.
Qed.

Lemma NoDup_firstn {A : Type} (k : nat) (l : list A) :
  NoDup l -> NoDup (firstn k l).
Proof.
  intros H. rewrite <- (firstn_skipn k l) in H.
  eapply NoDup_app_remove_r; exact H.
Qed.

Lemma IP_query_ranking (args : Args) (q : vec) (corpus_embs : mat)
  (r : list nat) (s : vec) :
  (r, s) = IP_query args q corpus_embs ->
  let dots := map (fun c => Torch.dot c q) corpus_embs in
  length r = Nat.min (topk args) (length corpus_embs) /\
  NoDup r /\ s = Torch.gather 0 dots r /\ nonincreasing s /\
  selects_best dots r.
Proof.
  intros H. cbv zeta. unfold IP_query, Torch.einsum_ij_j in H.
  inversion H; subst r s; clear H.
  split; [|split; [|split; [|split]]].
  - rewrite length_firstn, argsort_desc_length.
    now rewrite length_map.
  - apply NoDup_firstn, argsort_desc_NoDup.
  - reflexivity.
  - apply sorted_nonincreasing, argsort_values_sorted.
  - apply argsort_selects_best.
Qed.

Lemma dot_ip_sum (q c : vec) :
  length c = length q -> Torch.dot c q = ip_sum q c.
Proof.
  unfold ip_sum. revert c; induction q as [|x q IH]; intros [|e c]; simpl;
    try discriminate; try reflexivity.
  intros Hc. rewrite sum_seq_shift. simpl. rewrite <- IH by lia. reflexivity.
Qed.

Lemma einsum_ip_sum (D : nat) (corpus_embs : mat) (q : vec) :
  rectangular D corpus_embs -> length q = D ->
  Torch.einsum_ij_j corpus_embs q = map (ip_sum q) corpus_embs.
Proof.
  unfold rectangular, Torch.einsum_ij_j. rewrite Forall_forall.
  intros Hrect Hq. apply map_ext_in. intros c Hc.
  apply dot_ip_sum. rewrite (Hrect c Hc). now symmetry.
Qed.

Lemma IP_query_in_range (args : Args) (q : vec) (corpus_embs : mat) :
  Forall (fun c => (c < length corpus_embs)%nat)
    (fst (IP_query args q corpus_embs)) /\
  length (snd (IP_query args q corpus_embs))
  = length (fst (IP_query args q corpus_embs)).
Proof.
  unfold IP_query; simpl. split; [|apply gather_length].
  rewrite Forall_forall. intros c Hc. apply firstn_In in Hc.
  apply argsort_desc_In in Hc. unfold Torch.einsum_ij_j in Hc.
  now rewrite length_map in Hc.
Qed.

Lemma IP_query_plain_scores (args : Args) (D : nat) (q : vec)
  (corpus_embs : mat) (r : list nat) (s : vec) :
  rectangular D corpus_embs -> length q = D ->
  (r, s) = IP_query args q corpus_embs ->
  length r = Nat.min (topk args) (length corpus_embs) /\
  length s = length r /\ NoDup r /\
  (forall rank c, nth_error r rank = Some c ->
     (c < length corpus_embs)%nat /\
     nth_error s rank = Some (ip_sum q (nth c corpus_embs []))) /\
  nonincreasing s /\
  selects_best (map (ip_sum q) corpus_embs) r.
Proof.
  intros Hrect Hq Hrs.
  pose proof (IP_query_ranking args q corpus_embs r s Hrs) as Hrank.
  cbv zeta in Hrank.
  destruct Hrank as (Hlen & Hnd & Hs & Hsorted & Hbest).
  pose proof (IP_query_in_range args q corpus_embs) as [Hrange Hls].
  rewrite <- Hrs in Hrange, Hls. simpl in Hrange, Hls.
  pose proof (einsum_ip_sum D corpus_embs q Hrect Hq) as Hdots.
  unfold Torch.einsum_ij_j in Hdots. rewrite Hdots in Hs, Hbest.
  split; [exact Hlen|]. split; [exact Hls|]. split; [exact Hnd|].
  split; [|split; assumption].
  intros rank c Hc. rewrite Forall_forall in Hrange.
  pose proof (Hrange c (nth_error_In _ _ Hc)) as Hlt.
  split; [exact Hlt|].
  rewrite Hs, (gather_nth_error 0 _ r rank c Hc). f_equal.
  apply nth_error_nth. rewrite nth_error_map.
  now rewrite (nth_error_nth' corpus_embs [] Hlt).
Qed.

(** C10.  When the query snapshot has no argument-index array, the run is
    plain inner-product retrieval, whatever the corpus argument indices
    are.  For query and corpus vectors of one width, at least one query and
    an id for every query, the retrieval step returns; its result is the
    same for every corpus argument-index array, present or missing; every
    query gets an entry; and each entry holds the best [topk] corpus rows
    by plain inner product with the query vector: [min(topk, N)] distinct
    rows of the corpus, at each rank the score
    [sum_j candidate[j] * query[j]] of the row at that rank, scores in
    non-increasing order, no row left out that beats a row kept.  The whole
    run of [main] likewise gives the same outcome with and without the
    corpus argument indices. *)
Theorem missing_query_args_falls_back_to_IP :
  forall args qids (query_embs corpus_embs : mat) D,
    rectangular D query_embs -> rectangular D corpus_embs ->
    query_embs <> [] -> (length query_embs <= length qids)%nat ->
    (exists results scores,
       (forall corpus_arg_idxs,
          retrieve args qids query_embs None corpus_embs corpus_arg_idxs
          = Some (results, scores))
       /\ (forall i qid, (i < length query_embs)%nat ->
             nth_error qids i = Some qid ->
             exists r s, dict_get results qid = Some r /\
                         dict_get scores qid = Some s)
       /\ (forall qid r s,
             dict_get results qid = Some r ->
             dict_get scores qid = Some s ->
             exists i q,
               nth_error qids i = Some qid /\
               nth_error query_embs i = Some q /\
               length r = Nat.min (topk args) (length corpus_embs) /\
               length s = length r /\ NoDup r /\
               (forall rank c, nth_error r rank = Some c ->
                  (c < length corpus_embs)%nat /\
                  nth_error s rank
                  = Some (ip_sum q (nth c corpus_embs []))) /\
               nonincreasing s /\
               selects_best (map (ip_sum q) corpus_embs) r))
    /\ (forall corpus_arg_idxs docids,
          main args (query_embs, None, qids)
            (corpus_embs, Some corpus_arg_idxs, docids)
          = main args (query_embs, None, qids) (corpus_embs, None, docids)).
Proof.
  intros args qids query_embs ce D Hqrect Hcrect Hne Hlen. split.
  - destruct (IP_retrieval_total qids query_embs ce args Hne Hlen)
      as (results & scores & Hrun).
    exists results, scores. split; [intros cargs; exact Hrun|]. split.
    + now apply (IP_retrieval_complete qids query_embs ce args).
    + intros qid r s Hr Hs.
      destruct (IP_retrieval_entries _ _ _ _ _ Hrun qid r s Hr Hs)
        as (i & q & Hqid & Hq & Hrs).
      exists i, q. split; [exact Hqid|]. split; [exact Hq|].
      apply (IP_query_plain_scores args D); auto.
      exact (rectangular_nth_error D query_embs i q Hqrect Hq).
  - intros cargs docids. unfold main, load_index.
    destruct (total_shrad args =? 0)%nat; reflexivity.
Qed.

Lemma missing_query_args_witness :
  rectangular 3 [[1; 2; 3]; [3; 0; 1]] /\
  rectangular 3 corpus3 /\
  [[1; 2; 3]; [3; 0; 1]] <> @nil vec /\
  (length [[1; 2; 3]; [3; 0; 1]] <= length ["q1"; "q2"]%string)%nat /\
  retrieve (cfg 2 1 false 3 3) ["q1"; "q2"]%string [[1; 2; 3]; [3; 0; 1]]
    None corpus3 (Some cargs3)
  = Some ([("q1"%string, [1; 2]%nat); ("q2"%string, [1; 0]%nat)],
          [("q1"%string, [12; 10]); ("q2"%string, [8; 4])]) /\
  exists results scores,
    forall corpus_arg_idxs,
      retrieve (cfg 2 1 false 3 3) ["q1"; "q2"]%string
        [[1; 2; 3]; [3; 0; 1]] None corpus3 corpus_arg_idxs
      = Some (results, scores).
Proof.
  assert (Hq : rectangular 3 [[1; 2; 3]; [3; 0; 1]])
    by (repeat constructor).
  assert (Hc : rectangular 3 corpus3) by (repeat constructor).
  assert (Hne : [[1; 2; 3]; [3; 0; 1]] <> @nil vec) by discriminate.
  assert (Hlen : (length [[1; 2; 3]; [3; 0; 1]]
                  <= length ["q1"; "q2"]%string)%nat) by (simpl; lia).
  split; [exact Hq|]. split; [exact Hc|]. split; [exact Hne|].
  split; [exact Hlen|]. split; [reflexivity|].
  destruct (missing_query_args_falls_back_to_IP
              (cfg 2 1 false 3 3) ["q1"; "q2"]%string
              [[1; 2; 3]; [3; 0; 1]] corpus3 3%nat Hq Hc Hne Hlen)
    as ((results & scores & Hrun & _) & _).
  exists results, scores. exact Hrun.
Defined.

(** * Further properties of the retrieval script *)

(** ** When the retrieval loops return *)

Lemma foldM_None {A S : Type} (body : S -> A -> option S) (l : list A)
  (a : A) :
  In a l -> (forall s, body s a = None) -> forall s, foldM body l s = None.
Proof.
  intros Hin Hfail. induction l as [|x l IH]; simpl; intros s;
    [contradiction|].
  destruct Hin as [->|Hin].
  - now rewrite Hfail.
  - destruct (body s x); simpl; [now apply IH | reflexivity].
Qed.

Lemma store_None (qids : list string) (i : nat) (acc : results_t)
  (r : list nat * vec) :
  (length qids <= i)%nat -> store qids i acc r = None.
Proof.
  intros H. unfold store.
  now rewrite (proj2 (nth_error_None qids i) H).
Qed.

Lemma enumerate_length {A : Type} (l : list A) :
  length (enumerate l) = length l.
Proof.
  unfold enumerate. rewrite length_combine, length_seq. lia.
Qed.

Lemma enumerate_has {A : Type} (l : list A) (i : nat) :
  (i < length l)%nat -> exists x, In (i, x) (enumerate l).
Proof.
  intros H. destruct (nth_error l i) as [x|] eqn:E.
  - exists x. now apply nth_error_In_enumerate.
  - apply nth_error_None in E. lia.
Qed.

(** X1.  On query and corpus vectors of one width, [IP_retrieval] returns
    exactly when there is at least one query and every query has an id;
    otherwise it raises (division by the number of queries, or [qids[i]]
    out of range). *)
Theorem IP_retrieval_returns_iff :
  forall qids (query_embs corpus_embs : mat) args D,
    rectangular D query_embs -> rectangular D corpus_embs ->
    ((exists results scores,
        IP_retrieval qids query_embs corpus_embs args
        = Some (results, scores))
     <-> query_embs <> [] /\ (length query_embs <= length qids)%nat).
Proof.
  intros qids qe ce args D _ _. split.
  - intros (results & scores & H). unfold IP_retrieval in H.
    apply bind_Some in H as (acc & Hloop & H).
    split.
    + intros ->. discriminate.
    + destruct (Nat.le_gt_cases (length qe) (length qids)) as [|Hlt];
        [assumption|].
      destruct (enumerate_has qe (length qids) Hlt) as (x & Hin).
      rewrite (foldM_None _ _ _ Hin) in Hloop; [discriminate|].
      intros s. now apply store_None.
  - intros [Hne Hlen]. now apply IP_retrieval_total.
Qed.

Lemma IP_retrieval_returns_witness :
  rectangular 3 [[1; 2; 3]; [3; 0; 1]] /\
  rectangular 3 corpus3 /\
  (exists results scores,
     IP_retrieval ["q1"; "q2"]%string [[1; 2; 3]; [3; 0; 1]] corpus3
       (cfg 2 1 false 3 3) = Some (results, scores)) /\
  ~ (exists results scores,
       IP_retrieval ["q1"%string] [[1; 2; 3]; [3; 0; 1]] corpus3
         (cfg 2 1 false 3 3) = Some (results, scores)) /\
  ~ (exists results scores,
       IP_retrieval ["q1"%string] [] corpus3 (cfg 2 1 false 3 3)
       = Some (results, scores)).
Proof.
  assert (Hq : rectangular 3 [[1; 2; 3]; [3; 0; 1]])
    by (repeat constructor).
  assert (Hc : rectangular 3 corpus3) by (repeat constructor).
  split; [exact Hq|]. split; [exact Hc|]. split; [|split].
  - apply (proj2 (IP_retrieval_returns_iff ["q1"; "q2"]%string
                    [[1; 2; 3]; [3; 0; 1]] corpus3 (cfg 2 1 false 3 3)
                    3%nat Hq Hc)).
    split; [discriminate | simpl; lia].
  - intros H.
    apply (proj1 (IP_retrieval_returns_iff ["q1"%string]
                    [[1; 2; 3]; [3; 0; 1]] corpus3 (cfg 2 1 false 3 3)
                    3%nat Hq Hc)) in H.
    simpl in H. lia.
  - intros H.
    apply (proj1 (IP_retrieval_returns_iff ["q1"%string] [] corpus3
                    (cfg 2 1 false 3 3) 3%nat
                    (Forall_nil _) Hc)) in H.
    destruct H as [H _]. now apply H.
Defined.

(** X2.  With [theta = 0], on parallel input arrays whose vectors and padded
    argument indices have one width, [GIP_retrieval] returns exactly when
    there is at least one query, every query has an id, and [topk] does
    not exceed the number of corpus rows: unlike [IP_retrieval], which
    slices, brute-force GIP raises on a corpus (or shard) with fewer than
    [topk] rows. *)
Theorem GIP_brute_force_returns_iff :
  forall qids (query_embs : mat) (query_arg_idxs : imat)
         (corpus_embs : mat) (corpus_arg_idxs : imat) args D,
    effective_theta args = 0 ->
    rectangular D query_embs ->
    rectangular D
      (pad_arg_idxs (Torch.shape1 query_embs - emb_dim args)
         query_arg_idxs) ->
    rectangular D corpus_embs ->
    rectangular D
      (pad_arg_idxs (Torch.shape1 query_embs - emb_dim args)
         corpus_arg_idxs) ->
    length query_arg_idxs = length query_embs ->
    length corpus_arg_idxs = length corpus_embs ->
    ((exists results scores,
        GIP_retrieval qids query_embs query_arg_idxs corpus_embs
          corpus_arg_idxs args = Some (results, scores))
     <-> query_embs <> [] /\ (length query_embs <= length qids)%nat /\
         (topk args <= length corpus_embs)%nat).
Proof.
  intros qids qe qa ce ca args D Hth _ _ _ _ Hqa Hca. split.
  - intros (results & scores & H). unfold GIP_retrieval in H.
    cbv zeta in H. rewrite Hth in H.
    apply bind_Some in H as (acc & Hloop & H).
    assert (Hne : qe <> []) by (intros ->; discriminate).
    split; [exact Hne|].
    set (qargs := pad_arg_idxs (Torch.shape1 qe - emb_dim args) qa) in *.
    set (cargs := pad_arg_idxs (Torch.shape1 qe - emb_dim args) ca) in *.
    assert (Hpairs : length (combine qe qargs) = length qe).
    { rewrite length_combine. unfold qargs.
      rewrite pad_arg_idxs_length. lia. }
    split.
    + destruct (Nat.le_gt_cases (length qe) (length qids)) as [|Hlt];
        [assumption|].
      rewrite <- Hpairs in Hlt.
      destruct (enumerate_has _ (length qids) Hlt) as ([q a] & Hin).
      rewrite (foldM_None _ _ _ Hin) in Hloop; [discriminate|].
      intros s. destruct (GIP_query args 0 q a ce cargs); simpl;
        [now apply store_None | reflexivity].
    + destruct (Nat.le_gt_cases (topk args) (length ce)) as [|Hlt];
        [assumption|].
      assert (H0 : (0 < length (combine qe qargs))%nat).
      { rewrite Hpairs. destruct qe; [congruence | simpl; lia]. }
      destruct (enumerate_has _ 0%nat H0) as ([q a] & Hin).
      rewrite (foldM_None _ _ _ Hin) in Hloop; [discriminate|].
      intros s. unfold GIP_query. simpl.
      replace (Torch.topk (gated_scores ce cargs q a) (topk args))
        with (@None (list nat)); [reflexivity|].
      symmetry. apply topk_None. rewrite gated_scores_length; [exact Hlt|].
      unfold cargs. now rewrite pad_arg_idxs_length.
  - intros (Hne & Hlen & Hk).
    now apply GIP_retrieval_returns_at_theta0.
Qed.

Lemma GIP_brute_force_returns_witness :
  effective_theta (cfg 3 0 false 3 3) = 0 /\
  rectangular 3 [[1; 2; 3]] /\ rectangular 3 [[0; 0; 1]] /\
  rectangular 3 corpus3 /\ rectangular 3 cargs3 /\
  length [[0; 0; 1]] = length [[1; 2; 3]] /\
  length cargs3 = length corpus3 /\
  (exists results scores,
     GIP_retrieval ["q"%string] [[1; 2; 3]] [[0; 0; 1]] corpus3 cargs3
       (cfg 3 0 false 3 3) = Some (results, scores)) /\
  ~ (exists results scores,
       GIP_retrieval ["q"%string] [[1; 2; 3]] [[0; 0; 1]] corpus3 cargs3
         (cfg 4 0 false 3 3) = Some (results, scores)).
Proof.
  assert (Hq : rectangular 3 [[1; 2; 3]]) by (repeat constructor).
  assert (Hqa : rectangular 3 [[0; 0; 1]]) by (repeat constructor).
  assert (Hc : rectangular 3 corpus3) by (repeat constructor).
  assert (Hca : rectangular 3 cargs3) by (repeat constructor).
  split; [reflexivity|]. split; [exact Hq|]. split; [exact Hqa|].
  split; [exact Hc|]. split; [exact Hca|].
  split; [reflexivity|]. split; [reflexivity|].
  split.
  - apply (proj2 (GIP_brute_force_returns_iff ["q"%string] [[1; 2; 3]]
                    [[0; 0; 1]] corpus3 cargs3 (cfg 3 0 false 3 3) 3%nat
                    eq_refl Hq Hqa Hc Hca eq_refl eq_refl)).
    split; [discriminate|]. simpl; lia.
  - intros H.
    apply (proj1 (GIP_brute_force_returns_iff ["q"%string] [[1; 2; 3]]
                    [[0; 0; 1]] corpus3 cargs3 (cfg 4 0 false 3 3) 3%nat
                    eq_refl Hq Hqa Hc Hca eq_refl eq_refl)) in H.
    simpl in H. lia.
Defined.

(** ** Keys of the result dictionaries *)

Lemma dict_keys_set {V : Type} (d : dict V) (k : string) (v : V) :
  dict_keys (dict_set d k v) =
  if existsb (fun k' => String.eqb k' k) (dict_keys d)
  then dict_keys d else dict_keys d ++ [k].
Proof.
  unfold dict_keys. induction d as [|[k0 v0] d IH]; simpl; [reflexivity|].
  destruct (String.eqb k0 k); simpl; [reflexivity|].
  rewrite IH. now destruct (existsb _ (map fst d)).
Qed.

Lemma first_occurrences_absorb (ks : list string) (k : string)
  (l : list string) :
  existsb (fun k' => String.eqb k' k) ks = true ->
  filter (fun x => negb (existsb (fun k' => String.eqb k' x) ks))
    (k :: filter (fun k' => negb (String.eqb k k')) l)
  = filter (fun x => negb (existsb (fun k' => String.eqb k' x) ks)) l.
Proof.
  intros Hk. simpl. rewrite Hk. simpl.
  induction l as [|x l IH]; simpl; [reflexivity|].
  destruct (String.eqb k x) eqn:E; simpl.
  - apply String.eqb_eq in E; subst x. rewrite Hk. simpl. exact IH.
  - destruct (existsb _ ks); simpl; now rewrite IH.
Qed.

Lemma first_occurrences_extend (ks : list string) (k : string)
  (l : list string) :
  existsb (fun k' => String.eqb k' k) ks = false ->
  ks ++ filter (fun x => negb (existsb (fun k' => String.eqb k' x) ks))
          (k :: filter (fun k' => negb (String.eqb k k')) l)
  = (ks ++ [k])
    ++ filter (fun x => negb (existsb (fun k' => String.eqb k' x) (ks ++ [k])))
         l.
Proof.
  intros Hk. simpl. rewrite Hk. simpl. rewrite <- app_assoc. simpl.
  do 2 f_equal.
  induction l as [|x l IH]; simpl; [reflexivity|].
  rewrite existsb_app. simpl. rewrite orb_false_r.
  rewrite (String.eqb_sym k x).
  destruct (String.eqb x k) eqn:E; simpl.
  - rewrite orb_true_r. simpl. exact IH.
  - rewrite orb_false_r. destruct (existsb _ ks); simpl; now rewrite IH.
Qed.

Lemma store_loop_keys {X : Type} (f : X -> option (list nat * vec))
  (qids : list string) (l : list X) :
  forall b acc acc',
    foldM (fun acc '(i, x) => r <- f x ;; store qids i acc r)
          (combine (seq b (length l)) l) acc = Some acc' ->
    dict_keys (snd acc) = dict_keys (fst acc) ->
    dict_keys (snd acc') = dict_keys (fst acc') /\
    dict_keys (fst acc') =
    dict_keys (fst acc)
    ++ filter (fun x => negb (existsb (fun k' => String.eqb k' x)
                                      (dict_keys (fst acc))))
         (first_occurrences (firstn (length l) (skipn b qids))).
Proof.
  induction l as [|x l IH]; simpl; intros b acc acc' H Hkeys.
  - inversion H; subst acc'. now rewrite app_nil_r.
  - apply bind_Some in H as (acc1 & Hstep & Hrest).
    apply bind_Some in Hstep as (r & _ & Hstore).
    unfold store in Hstore.
    apply bind_Some in Hstore as (qid & Hqid & Hstore).
    inversion Hstore; subst acc1; clear Hstore.
    apply IH in Hrest; simpl.
    2:{ rewrite !dict_keys_set, Hkeys. reflexivity. }
    destruct Hrest as [Hk' Hfo]. split; [exact Hk'|].
    rewrite Hfo. simpl. rewrite dict_keys_set.
    assert (Hskip : skipn b qids = qid :: skipn (S b) qids).
    { clear -Hqid. revert b Hqid. induction qids as [|k qids IHq];
        intros [|b] H; simpl in *; try discriminate.
      - now inversion H.
      - now apply IHq. }
    rewrite Hskip. simpl firstn. simpl first_occurrences.
    destruct (existsb (fun k' => String.eqb k' qid) (dict_keys (fst acc)))
      eqn:E.
    + now rewrite first_occurrences_absorb.
    + now rewrite first_occurrences_extend.
Qed.

Lemma first_occurrences_NoDup (l : list string) :
  NoDup (first_occurrences l).
Proof.
  induction l as [|k l IH]; simpl; constructor.
  - rewrite filter_In. intros [_ H]. now rewrite String.eqb_refl in H.
  - now apply NoDup_filter.
Qed.

Lemma first_occurrences_In (l : list string) (k : string) :
  In k (first_occurrences l) <-> In k l.
Proof.
  induction l as [|x l IH]; simpl; [tauto|].
  rewrite filter_In, IH.
  destruct (String.eqb x k) eqn:E.
  - apply String.eqb_eq in E. subst. simpl. tauto.
  - apply String.eqb_neq in E. simpl. split.
    + intros [H|[H _]]; auto.
    + intros [H|H]; auto.
Qed.

Lemma filter_true {A : Type} (l : list A) : filter (fun _ => true) l = l.
Proof. induction l as [|x l IH]; simpl; [reflexivity | now rewrite IH]. Qed.

Lemma IP_retrieval_keys (qids : list string) (query_embs corpus_embs : mat)
  (args : Args) (results : dict (list nat)) (scores : dict vec) :
  IP_retrieval qids query_embs corpus_embs args = Some (results, scores) ->
  dict_keys scores = dict_keys results /\
  dict_keys results = first_occurrences (firstn (length query_embs) qids).
Proof.
  intros H. unfold IP_retrieval in H.
  apply bind_Some in H as (acc & Hloop & H).
  destruct (length query_embs =? 0)%nat; [discriminate|].
  inversion H; subst acc; clear H.
  apply (store_loop_keys (fun q => Some (IP_query args q corpus_embs)) qids
           query_embs 0) in Hloop; [|reflexivity].
  simpl in Hloop. now rewrite filter_true in Hloop.
Qed.

Lemma GIP_retrieval_keys (qids : list string) (query_embs : mat)
  (query_arg_idxs : imat) (corpus_embs : mat) (corpus_arg_idxs : imat)
  (args : Args) (results : dict (list nat)) (scores : dict vec) :
  length query_arg_idxs = length query_embs ->
  GIP_retrieval qids query_embs query_arg_idxs corpus_embs corpus_arg_idxs
    args = Some (results, scores) ->
  dict_keys scores = dict_keys results /\
  dict_keys results = first_occurrences (firstn (length query_embs) qids).
Proof.
  intros Hlen H. unfold GIP_retrieval in H. cbv zeta in H.
  apply bind_Some in H as (acc & Hloop & H).
  destruct (length query_embs =? 0)%nat; [discriminate|].
  inversion H; subst acc; clear H.
  unfold enumerate in Hloop.
  rewrite (foldM_ext _
             (fun acc '(i, x) =>
                r <- (let '(q, a) := x in
                      GIP_query args (effective_theta args) q a corpus_embs
                        (pad_arg_idxs
                           (Torch.shape1 query_embs - emb_dim args)
                           corpus_arg_idxs))
                ;; store qids i acc r)) in Hloop
    by (intros s [i [q a]] _; reflexivity).
  apply store_loop_keys in Hloop; [|reflexivity].
  simpl in Hloop. rewrite filter_true in Hloop.
  rewrite length_combine, pad_arg_idxs_length, Hlen, Nat.min_id in Hloop.
  exact Hloop.
Qed.

(** X3.  The two result dictionaries of [IP_retrieval] and of [GIP_retrieval]
    have the same keys in the same order: the ids of the queries processed,
    each once, in the order of its first occurrence.  The writer, which
    walks the keys of [results] and looks each up in [scores], therefore
    never misses a key and writes one block per distinct query id. *)
Theorem result_keys_are_first_occurrences :
  (forall qids (query_embs corpus_embs : mat) args results scores,
     IP_retrieval qids query_embs corpus_embs args = Some (results, scores) ->
     dict_keys scores = dict_keys results /\
     dict_keys results =
       first_occurrences (firstn (length query_embs) qids))
  /\ (forall qids (query_embs : mat) (query_arg_idxs : imat)
             (corpus_embs : mat) (corpus_arg_idxs : imat) args
             results scores,
        length query_arg_idxs = length query_embs ->
        GIP_retrieval qids query_embs query_arg_idxs corpus_embs
          corpus_arg_idxs args = Some (results, scores) ->
        dict_keys scores = dict_keys results /\
        dict_keys results =
          first_occurrences (firstn (length query_embs) qids)).
Proof.
  split.
  - intros. now apply (IP_retrieval_keys qids query_embs corpus_embs args).
  - intros. now apply (GIP_retrieval_keys qids query_embs query_arg_idxs
                         corpus_embs corpus_arg_idxs args).
Qed.

Lemma result_keys_witness :
  length [[0; 0; 1]; [0; 0; 1]; [0; 0; 1]]
  = length [[1; 2; 3]; [3; 2; 1]; [1; 1; 1]] /\
  exists results scores,
    GIP_retrieval ["a"; "b"; "a"]%string [[1; 2; 3]; [3; 2; 1]; [1; 1; 1]]
      [[0; 0; 1]; [0; 0; 1]; [0; 0; 1]] corpus3 cargs3 (cfg 1 0 false 1 3)
    = Some (results, scores) /\
    dict_keys scores = ["a"; "b"]%string /\
    dict_keys results = ["a"; "b"]%string.
Proof.
  split; [reflexivity|].
  eexists. eexists. split; [reflexivity|].
  pose proof (proj2 result_keys_are_first_occurrences
                ["a"; "b"; "a"]%string [[1; 2; 3]; [3; 2; 1]; [1; 1; 1]]
                [[0; 0; 1]; [0; 0; 1]; [0; 0; 1]] corpus3 cargs3
                (cfg 1 0 false 1 3) _ _ eq_refl eq_refl) as [H1 H2].
  split; [rewrite H1|]; exact H2.
Defined.

Lemma store_loop_preserves {X : Type} (f : X -> option (list nat * vec))
  (qids : list string) (qid : string) (l : list X) :
  forall b acc acc',
    foldM (fun acc '(i, x) => r <- f x ;; store qids i acc r)
          (combine (seq b (length l)) l) acc = Some acc' ->
    (forall j, (j < length l)%nat -> nth_error qids (b + j) <> Some qid) ->
    dict_get (fst acc') qid = dict_get (fst acc) qid /\
    dict_get (snd acc') qid = dict_get (snd acc) qid.
Proof.
  induction l as [|x l IH]; simpl; intros b acc acc' H Hother.
  - now inversion H.
  - apply bind_Some in H as (acc1 & Hstep & Hrest).
    apply bind_Some in Hstep as (r & _ & Hstore).
    unfold store in Hstore.
    apply bind_Some in Hstore as (k & Hk & Hstore).
    inversion Hstore; subst acc1; clear Hstore.
    apply IH in Hrest.
    + simpl in Hrest. rewrite !dict_get_set in Hrest.
      assert (E : String.eqb k qid = false).
      { apply String.eqb_neq. intros ->.
        apply (Hother 0%nat); [lia|]. now rewrite Nat.add_0_r. }
      now rewrite E in Hrest.
    + intros j Hj. replace (S b + j)%nat with (b + S j)%nat by lia.
      apply Hother. lia.
Qed.

Lemma store_loop_last {X : Type} (f : X -> option (list nat * vec))
  (qids : list string) (qid : string) (l : list X) :
  forall b acc acc' i x,
    foldM (fun acc '(i, x) => r <- f x ;; store qids i acc r)
          (combine (seq b (length l)) l) acc = Some acc' ->
    nth_error l i = Some x -> nth_error qids (b + i) = Some qid ->
    (forall j, (i < j < length l)%nat -> nth_error qids (b + j) <> Some qid) ->
    exists r, f x = Some r /\
              dict_get (fst acc') qid = Some (fst r) /\
              dict_get (snd acc') qid = Some (snd r).
Proof.
  induction l as [|x0 l IH]; intros b acc acc' i x H Hx Hqid Hlater.
  - destruct i; discriminate.
  - simpl in H. apply bind_Some in H as (acc1 & Hstep & Hrest).
    destruct i as [|i].
    + simpl in Hx. inversion Hx; subst x0; clear Hx.
      apply bind_Some in Hstep as (r & Hr & Hstore).
      unfold store in Hstore. rewrite Nat.add_0_r in Hqid.
      rewrite Hqid in Hstore. simpl in Hstore.
      inversion Hstore; subst acc1; clear Hstore.
      exists r. split; [exact Hr|].
      apply (store_loop_preserves f qids qid) in Hrest.
      * simpl in Hrest. rewrite !dict_get_set, String.eqb_refl in Hrest.
        exact Hrest.
      * intros j Hj. replace (S b + j)%nat with (b + S j)%nat by lia.
        apply Hlater. simpl. lia.
    + simpl in Hx.
      apply (IH (S b) acc1 acc' i x Hrest Hx).
      * now replace (S b + i)%nat with (b + S i)%nat by lia.
      * intros j Hj. replace (S b + j)%nat with (b + S j)%nat by lia.
        apply Hlater. simpl. lia.
Qed.

(** X4.  When several queries carry the same id, the dictionaries keep the
    result of the last of them: the entry under an id is the result of the
    query at index [i] whenever no later query has that id. *)
Theorem last_query_with_an_id_wins :
  (forall qids (query_embs corpus_embs : mat) args results scores i
          (q : vec) qid,
     IP_retrieval qids query_embs corpus_embs args = Some (results, scores) ->
     nth_error query_embs i = Some q -> nth_error qids i = Some qid ->
     (forall j, (i < j < length query_embs)%nat ->
        nth_error qids j <> Some qid) ->
     dict_get results qid = Some (fst (IP_query args q corpus_embs)) /\
     dict_get scores qid = Some (snd (IP_query args q corpus_embs)))
  /\ (forall qids (query_embs : mat) (query_arg_idxs : imat)
             (corpus_embs : mat) (corpus_arg_idxs : imat) args
             results scores i (q : vec) (a : ivec) qid,
        let cls_dim := (Torch.shape1 query_embs - emb_dim args)%nat in
        GIP_retrieval qids query_embs query_arg_idxs corpus_embs
          corpus_arg_idxs args = Some (results, scores) ->
        nth_error query_embs i = Some q ->
        nth_error (pad_arg_idxs cls_dim query_arg_idxs) i = Some a ->
        nth_error qids i = Some qid ->
        (forall j, (i < j < length query_embs)%nat ->
           nth_error qids j <> Some qid) ->
        exists r s,
          GIP_query args (effective_theta args) q a corpus_embs
            (pad_arg_idxs cls_dim corpus_arg_idxs) = Some (r, s) /\
          dict_get results qid = Some r /\ dict_get scores qid = Some s).
Proof.
  split.
  - intros qids qe ce args results scores i q qid H Hq Hqid Hlater.
    unfold IP_retrieval in H.
    apply bind_Some in H as (acc & Hloop & H).
    destruct (length qe =? 0)%nat; [discriminate|].
    inversion H; subst acc; clear H.
    destruct (store_loop_last (fun q => Some (IP_query args q ce)) qids qid
                qe 0 _ _ i q Hloop Hq Hqid Hlater) as (r & Hr & Hgets).
    cbv beta in Hr. inversion Hr; subst r. exact Hgets.
  - intros qids qe qa ce ca args results scores i q a qid cls_dim H Hq Ha
           Hqid Hlater.
    unfold GIP_retrieval in H. cbv zeta in H. fold cls_dim in H.
    apply bind_Some in H as (acc & Hloop & H).
    destruct (length qe =? 0)%nat; [discriminate|].
    inversion H; subst acc; clear H.
    unfold enumerate in Hloop.
    rewrite (foldM_ext _
               (fun acc '(i, x) =>
                  r <- (let '(q, a) := x in
                        GIP_query args (effective_theta args) q a ce
                          (pad_arg_idxs cls_dim ca))
                  ;; store qids i acc r)) in Hloop
      by (intros s [j [q' a']] _; reflexivity).
    destruct (store_loop_last _ qids qid _ 0 _ _ i (q, a) Hloop
                (nth_error_combine_Some _ _ _ _ _ Hq Ha) Hqid)
      as ([r s] & Hr & Hgets).
    + intros j Hj. apply Hlater. rewrite length_combine in Hj. lia.
    + exists r, s. split; [exact Hr | exact Hgets].
Qed.

Lemma last_query_witness :
  IP_retrieval ["a"; "b"; "a"]%string [[1]; [2]; [0 - 1]] [[3]; [2]; [1]]
    (shard_cfg 1 0)
  = Some ([("a"%string, [2%nat; 1%nat; 0%nat]);
           ("b"%string, [0%nat; 1%nat; 2%nat])],
          [("a"%string, [0 - 1; 0 - 2; 0 - 3]);
           ("b"%string, [6; 4; 2])]) /\
  dict_get [("a"%string, [2%nat; 1%nat; 0%nat]);
            ("b"%string, [0%nat; 1%nat; 2%nat])] "a"
  = Some (fst (IP_query (shard_cfg 1 0) [0 - 1] [[3]; [2]; [1]])).
Proof.
  split; [reflexivity|].
  apply (proj1 last_query_with_an_id_wins ["a"; "b"; "a"]%string
           [[1]; [2]; [0 - 1]] [[3]; [2]; [1]] (shard_cfg 1 0) _
           [("a"%string, [0 - 1; 0 - 2; 0 - 3]); ("b"%string, [6; 4; 2])]
           2%nat [0 - 1] "a"%string eq_refl eq_refl eq_refl).
  intros j Hj. simpl in Hj. lia.
Defined.

(** ** The weight on the CLS block *)

Lemma dot_nil_r (x : vec) : Torch.dot x [] = 0.
Proof. now destruct x. Qed.

Lemma dot_firstn_skipn (k : nat) (x y : vec) :
  Torch.dot x y =
  Torch.dot (firstn k x) (firstn k y) + Torch.dot (skipn k x) (skipn k y).
Proof.
  revert x y; induction k as [|k IH]; intros x y; [reflexivity|].
  destruct x as [|a x]; [reflexivity|].
  destruct y as [|b y]; [simpl; now rewrite dot_nil_r|].
  simpl. rewrite (IH x y). lia.
Qed.

Lemma dot_scale_r (l : Z) (x y : vec) :
  Torch.dot x (map (Z.mul l) y) = l * Torch.dot x y.
Proof.
  revert y; induction x as [|a x IH]; intros [|b y]; simpl; try lia.
  rewrite IH. lia.
Qed.

Lemma scale_cls_row (args : Args) (query_embs : mat) (D i : nat) (q : vec) :
  rectangular D query_embs -> nth_error query_embs i = Some q ->
  exists q',
    nth_error (scale_cls args query_embs) i = Some q' /\
    firstn (emb_dim args) q' = firstn (emb_dim args) q /\
    skipn (emb_dim args) q' = map (Z.mul (lamda args)) (skipn (emb_dim args) q).
Proof.
  intros Hrect Hq.
  pose proof (rectangular_nth_error _ _ _ _ Hrect Hq) as Hlen.
  assert (Hshape : Torch.shape1 query_embs = D).
  { destruct query_embs as [|r0 rest]; [destruct i; discriminate|].
    simpl. now inversion Hrect. }
  unfold scale_cls. rewrite Hshape.
  destruct (0 <? D - emb_dim args)%nat eqn:E.
  - apply Nat.ltb_lt in E.
    unfold mat, vec in *.
    rewrite nth_error_map, Hq. simpl. eexists. split; [reflexivity|].
    replace (length q - (D - emb_dim args))%nat with (emb_dim args) by lia.
    assert (Hf : length (firstn (emb_dim args) q) = emb_dim args)
      by (rewrite length_firstn; lia).
    split.
    + rewrite firstn_app, Hf, Nat.sub_diag. simpl.
      rewrite app_nil_r. rewrite firstn_firstn. f_equal. lia.
    + rewrite skipn_app, Hf, Nat.sub_diag. simpl.
      rewrite skipn_all2 by lia. reflexivity.
  - apply Nat.ltb_ge in E. exists q. split; [exact Hq|].
    split; [reflexivity|].
    rewrite skipn_all2 by lia. reflexivity.
Qed.

(** X5.  The CLS weight.  [scale_cls] leaves the first [emb_dim] entries of each
    query alone and multiplies the rest by [lamda], keeping the width; so
    the inner product of any row with a weighted query is the inner product
    over the first [emb_dim] dimensions plus [lamda] times the inner
    product over the remaining ones.  With [lamda = 1] the queries are
    unchanged. *)
Theorem scale_cls_weights_cls_block :
  (forall args (query_embs : mat) D i (q x : vec),
     rectangular D query_embs -> nth_error query_embs i = Some q ->
     exists q',
       nth_error (scale_cls args query_embs) i = Some q' /\
       length q' = D /\
       Torch.dot x q' =
       Torch.dot (firstn (emb_dim args) x) (firstn (emb_dim args) q)
       + lamda args
         * Torch.dot (skipn (emb_dim args) x) (skipn (emb_dim args) q))
  /\ (forall args (query_embs : mat),
        lamda args = 1 -> scale_cls args query_embs = query_embs).
Proof.
  split.
  - intros args qe D i q x Hrect Hq.
    destruct (scale_cls_row args qe D i q Hrect Hq)
      as (q' & Hq' & Hfirst & Hrest).
    exists q'. split; [exact Hq'|]. split.
    + pose proof (rectangular_nth_error _ _ _ _ Hrect Hq) as Hlen.
      rewrite <- (firstn_skipn (emb_dim args) q'), Hfirst, Hrest.
      rewrite length_app, length_map, <- length_app, firstn_skipn.
      exact Hlen.
    + rewrite (dot_firstn_skipn (emb_dim args) x q'), Hfirst, Hrest.
      now rewrite dot_scale_r.
  - intros args qe Hl. unfold scale_cls.
    destruct (0 <? _)%nat; [|reflexivity].
    rewrite <- (map_id qe) at 2. apply map_ext. intros row.
    rewrite Hl, (map_ext _ (fun z => z)) by (intros; lia).
    now rewrite map_id, firstn_skipn.
Qed.

Lemma scale_cls_witness :
  rectangular 3 [[1; 2; 3]] /\
  exists q',
    nth_error (scale_cls (cfg 1 0 false 1 2) [[1; 2; 3]]) 0 = Some q' /\
    length q' = 3%nat /\
    Torch.dot [1; 1; 5] q' =
    Torch.dot (firstn 2 [1; 1; 5]) (firstn 2 [1; 2; 3])
    + 1 * Torch.dot (skipn 2 [1; 1; 5]) (skipn 2 [1; 2; 3]).
Proof.
  split; [repeat constructor|].
  apply (proj1 scale_cls_weights_cls_block (cfg 1 0 false 1 2) [[1; 2; 3]]
           3%nat 0%nat [1; 2; 3] [1; 1; 5]);
    [repeat constructor | reflexivity].
Defined.

(** ** Loading a shard *)

Lemma shard_slice_length {A : Type} (args : Args) (d : nat) (l : list A) :
  length (shard_slice args d l) =
  if (shrad args =? total_shrad args - 1)%nat
  then (length l - d * shrad args)%nat
  else (Nat.min (d * (shrad args + 1)) (length l) - d * shrad args)%nat.
Proof.
  unfold shard_slice, slice, slice_from.
  destruct (shrad args =? total_shrad args - 1)%nat.
  - apply length_skipn.
  - now rewrite length_skipn, length_firstn.
Qed.

Lemma load_index_parallel_None (args : Args) (corpus_embs : mat)
  (corpus_arg_idxs : option imat) (docids : list string) :
  load_index args (corpus_embs, corpus_arg_idxs, docids) = None
  <-> total_shrad args = 0%nat.
Proof.
  unfold load_index. destruct (total_shrad args =? 0)%nat eqn:E0.
  - apply Nat.eqb_eq in E0. tauto.
  - apply Nat.eqb_neq in E0. split; [discriminate | contradiction].
Qed.

(** X6.  [load_index] raises exactly for [total_shrad = 0].  On parallel input
    arrays the shard it returns is parallel again (as many vectors and
    argument-index rows as document ids, and argument indices present
    exactly when they were), every shard before the last has
    [N div total_shrad] rows, and the last one has the remaining
    [N - (N div total_shrad) * (total_shrad - 1)] rows, which is no
    fewer. *)
Theorem load_index_keeps_arrays_parallel :
  forall args (corpus_embs : mat) (corpus_arg_idxs : option imat)
         (docids : list string),
    (load_index args (corpus_embs, corpus_arg_idxs, docids) = None
     <-> total_shrad args = 0%nat)
    /\ (forall corpus_embs' corpus_arg_idxs' docids',
          length corpus_embs = length docids ->
          (forall a, corpus_arg_idxs = Some a -> length a = length docids) ->
          load_index args (corpus_embs, corpus_arg_idxs, docids)
          = Some (corpus_embs', corpus_arg_idxs', docids') ->
          let shard_size := (length docids / total_shrad args)%nat in
          length corpus_embs' = length docids' /\
          (forall a', corpus_arg_idxs' = Some a' ->
             length a' = length docids') /\
          (corpus_arg_idxs' = None <-> corpus_arg_idxs = None) /\
          ((shrad args < total_shrad args - 1)%nat ->
           length docids' = shard_size) /\
          (shrad args = (total_shrad args - 1)%nat ->
           length docids' =
             (length docids - shard_size * (total_shrad args - 1))%nat /\
           (shard_size <= length docids')%nat)).
Proof.
  intros args E A D. split.
  - unfold load_index. destruct (total_shrad args =? 0)%nat eqn:E0.
    + apply Nat.eqb_eq in E0. tauto.
    + apply Nat.eqb_neq in E0. split; [discriminate | contradiction].
  - intros E' A' D' HE HA H shard_size. unfold load_index in H.
    destruct (total_shrad args =? 0)%nat eqn:E0; [discriminate|].
    apply Nat.eqb_neq in E0. fold shard_size in H.
    inversion H; subst E' A' D'; clear H.
    pose proof (Nat.Div0.mul_div_le (length D) (total_shrad args)) as Hd.
    fold shard_size in Hd.
    split; [now rewrite !shard_slice_length, HE|].
    split.
    { intros a' Ha'. destruct A as [a|]; [|discriminate].
      simpl in Ha'. inversion Ha'; subst a'.
      now rewrite !shard_slice_length, (HA a eq_refl). }
    split; [destruct A; simpl; split; intros Hn;
            (discriminate Hn || reflexivity)|].
    rewrite shard_slice_length. split.
    + intros Hlt.
      replace (shrad args =? total_shrad args - 1)%nat with false
        by (symmetry; apply Nat.eqb_neq; lia).
      assert (shard_size * (shrad args + 1)
              <= total_shrad args * shard_size)%nat by nia.
      nia.
    + intros Heq. rewrite Heq, Nat.eqb_refl.
      split; [reflexivity|]. nia.
Qed.

Lemma load_index_witness :
  length [[1]; [2]; [3]; [4]; [5]] = length docids5 /\
  load_index (shard_cfg 2 1) index5
  = Some ([[3]; [4]; [5]], Some [[1]; [1]; [0]], ["d2"; "d3"; "d4"]%string) /\
  length [[3]; [4]; [5]] = length ["d2"; "d3"; "d4"]%string /\
  length ["d2"; "d3"; "d4"]%string = (5 - 5 / 2 * (2 - 1))%nat.
Proof.
  split; [reflexivity|]. split; [reflexivity|].
  destruct (proj2 (load_index_keeps_arrays_parallel (shard_cfg 2 1)
                     [[1]; [2]; [3]; [4]; [5]]
                     (Some [[0]; [0]; [1]; [1]; [0]]) docids5)
              [[3]; [4]; [5]] (Some [[1]; [1]; [0]])
              ["d2"; "d3"; "d4"]%string eq_refl
              ltac:(intros a Ha; inversion Ha; reflexivity) eq_refl)
    as (Hpar & _ & _ & _ & Hlast).
  split; [exact Hpar|].
  exact (proj1 (Hlast eq_refl)).
Defined.

(** ** A whole run without argument indices *)

Lemma dict_get_In_keys {V : Type} (d : dict V) (k : string) :
  In k (dict_keys d) -> exists v, dict_get d k = Some v.
Proof.
  unfold dict_keys. induction d as [|[k0 v0] d IH]; simpl; [contradiction|].
  intros [->|Hin].
  - rewrite String.eqb_refl. eauto.
  - destruct (String.eqb k0 k); eauto.
Qed.

Lemma write_query_total (args : Args) (docids : list string)
  (query_id : string) (result : list nat) (score : vec) (fout : list Line) :
  Forall (fun c => (c < length docids)%nat) result ->
  (length result <= length score)%nat ->
  exists out,
    write_query args docids query_id result score fout = Some out.
Proof.
  intros Hrange Hlen. unfold write_query. apply foldM_total.
  intros s [rank docidx] Hin.
  pose proof (In_nth_error_enumerate _ _ _ Hin) as Hrank.
  apply In_enumerate, nth_error_In in Hin.
  rewrite Forall_forall in Hrange. specialize (Hrange docidx Hin).
  destruct (nth_error docids docidx) as [docid|] eqn:Ed;
    [|apply nth_error_None in Ed; lia].
  simpl. destruct (negb (String.eqb docid query_id)); [|eauto].
  destruct (nth_error score rank) as [sc|] eqn:Es;
    [|apply nth_error_None in Es; lia].
  simpl. eauto.
Qed.

Lemma write_results_total (args : Args) (docids : list string)
  (results : dict (list nat)) (scores : dict vec) :
  entries_sat (fun _ r s => Forall (fun c => (c < length docids)%nat) r /\
                            length s = length r) (results, scores) ->
  dict_keys scores = dict_keys results ->
  exists out, write_results args docids (results, scores) = Some out.
Proof.
  intros Hent Hkeys. unfold write_results. apply foldM_total.
  intros s k Hin.
  destruct (dict_get_In_keys results k Hin) as (r & Hr).
  rewrite <- Hkeys in Hin.
  destruct (dict_get_In_keys scores k Hin) as (sc & Hs).
  rewrite Hr, Hs. simpl.
  destruct (Hent k r sc Hr Hs) as [Hrange Hlen].
  apply write_query_total; [exact Hrange | lia].
Qed.

Lemma shard_slice_incl {A : Type} (args : Args) (d : nat) (l : list A)
  (x : A) :
  In x (shard_slice args d l) -> In x l.
Proof.
  unfold shard_slice, slice, slice_from.
  assert (Hskip : forall n (m : list A), In x (skipn n m) -> In x m).
  { intros n m H. rewrite <- (firstn_skipn n m). apply in_or_app; now right. }
  destruct (shrad args =? total_shrad args - 1)%nat; intros H.
  - eapply Hskip; exact H.
  - eapply firstn_In, Hskip; exact H.
Qed.

Lemma scale_cls_length (args : Args) (query_embs : mat) :
  length (scale_cls args query_embs) = length query_embs.
Proof.
  unfold scale_cls. destruct (0 <? _)%nat; [apply length_map | reflexivity].
Qed.

(** X7.  A run whose query snapshot has no argument indices finishes: given
    query and corpus vectors of one width, at least one shard
    ([total_shrad >= 1]), document ids parallel to the corpus vectors, at
    least one query and an id for every query, [main] writes the ranking
    file.  Every line in it names one of the query ids and a document id
    of the corpus other than the query id, has a rank between 1 and
    [topk], and carries the run tag. *)
Theorem main_without_arg_idxs_writes_file :
  forall args (query_embs : mat) (qids : list string)
         (corpus_embs : mat) (corpus_arg_idxs : option imat)
         (docids : list string) (W : nat),
    rectangular W query_embs -> rectangular W corpus_embs ->
    total_shrad args <> 0%nat ->
    length corpus_embs = length docids ->
    query_embs <> [] -> (length query_embs <= length qids)%nat ->
    exists out,
      main args (query_embs, None, qids)
        (corpus_embs, corpus_arg_idxs, docids) = Some out /\
      forall l, In l out ->
        In (line_query_id l) qids /\ In (line_docid l) docids /\
        line_docid l <> line_query_id l /\
        (1 <= line_rank l <= topk args)%nat /\
        line_run_name l = run_name args.
Proof.
  intros args qe qids E A D W _ _ Htot HE Hne Hlen.
  unfold main.
  destruct (load_index args (E, A, D)) as [[[E' A'] D']|] eqn:Hload.
  2:{ apply (proj1 (load_index_parallel_None args E A D)) in Hload.
      contradiction. }
  simpl.
  assert (Hpar : length E' = length D').
  { unfold load_index in Hload.
    destruct (total_shrad args =? 0)%nat; [discriminate|].
    inversion Hload. now rewrite !shard_slice_length, HE. }
  assert (Hsub : forall x, In x D' -> In x D).
  { unfold load_index in Hload.
    destruct (total_shrad args =? 0)%nat; [discriminate|].
    inversion Hload. intros x. apply shard_slice_incl. }
  destruct (IP_retrieval_total qids (scale_cls args qe) E' args)
    as (results & scores & Hrun).
  { intros Hnil. apply Hne. apply length_zero_iff_nil.
    now rewrite <- (scale_cls_length args qe), Hnil. }
  { now rewrite scale_cls_length. }
  unfold retrieve. rewrite Hrun. simpl.
  pose proof (IP_retrieval_entries _ _ _ _ _ Hrun) as Hent.
  pose proof (IP_retrieval_keys _ _ _ _ _ _ Hrun) as [Hkeys Hfirst].
  destruct (write_results_total args D' results scores) as (out & Hout).
  { intros k r s Hr Hs.
    destruct (Hent k r s Hr Hs) as (i & q & _ & _ & Hq).
    pose proof (IP_query_in_range args q E') as [Hrange Hl].
    rewrite <- Hq in Hrange, Hl. simpl in Hrange, Hl.
    rewrite <- Hpar. auto. }
  { exact Hkeys. }
  exists out. split; [exact Hout|].
  intros l Hl. pose proof Hout as Hrows.
  apply write_results_rows in Hrows. subst out.
  apply in_flat_map in Hl as (k & Hk & Hl).
  destruct (dict_get results k) as [r|] eqn:Hr; [|contradiction].
  destruct (dict_get scores k) as [s|] eqn:Hs; [|contradiction].
  apply written_rows_In in Hl
    as (rank & docidx & Hrank & Hdoc & Hscore & Hneq & Heq).
  destruct (Hent k r s Hr Hs) as (i & q & _ & _ & Hq).
  pose proof (IP_query_bounded_sorted args q E') as (Hbound & _ & _).
  rewrite <- Hq in Hbound. simpl in Hbound.
  assert (Hrk : (rank < length r)%nat)
    by (apply nth_error_Some; now rewrite Hrank).
  rewrite Heq. simpl.
  split.
  { rewrite Hfirst in Hk. apply (proj1 (first_occurrences_In _ _)) in Hk.
    eapply firstn_In; exact Hk. }
  split; [apply Hsub; eapply nth_error_In; exact Hdoc|].
  split; [exact Hneq|]. split; [lia | reflexivity].
Qed.

Lemma main_without_arg_idxs_witness :
  rectangular 3 [[1; 2; 3]] /\ rectangular 3 corpus3 /\
  total_shrad (cfg 2 1 false 3 2) <> 0%nat /\
  length corpus3 = length ["d0"; "q1"; "d2"]%string /\
  [[1; 2; 3]] <> @nil vec /\
  (length [[1; 2; 3]] <= length ["q1"%string])%nat /\
  main (cfg 2 1 false 3 2) ([[1; 2; 3]], None, ["q1"%string])
    (corpus3, Some cargs3, ["d0"; "q1"; "d2"]%string)
  = Some [ {| line_query_id := "q1"; line_docid := "d2"; line_rank := 2;
              line_score := 10; line_run_name := "run" |} ] /\
  exists out,
    main (cfg 2 1 false 3 2) ([[1; 2; 3]], None, ["q1"%string])
      (corpus3, Some cargs3, ["d0"; "q1"; "d2"]%string) = Some out.
Proof.
  assert (Hq : rectangular 3 [[1; 2; 3]]) by (repeat constructor).
  assert (Hc : rectangular 3 corpus3) by (repeat constructor).
  split; [exact Hq|]. split; [exact Hc|].
  split; [discriminate|]. split; [reflexivity|]. split; [discriminate|].
  split; [simpl; lia|]. split; [reflexivity|].
  destruct (main_without_arg_idxs_writes_file
              (cfg 2 1 false 3 2) [[1; 2; 3]]
              ["q1"%string] corpus3 (Some cargs3)
              ["d0"; "q1"; "d2"]%string 3%nat Hq Hc
              ltac:(discriminate) eq_refl ltac:(discriminate)
              ltac:(simpl; lia)) as (out & Hout & _).
  exists out. exact Hout.
Defined.

(** ** Batches of the quantized search *)

Lemma batches_for_spec (n batch : nat) :
  batch <> 0%nat ->
  (batches_for n batch = 0%nat <-> n = 0%nat) /\
  ((batches_for n batch - 1) * batch <= n)%nat /\
  (n <= batches_for n batch * batch)%nat /\
  (n <> 0%nat -> ((batches_for n batch - 1) * batch < n)%nat).
Proof.
  intros Hb. unfold batches_for.
  pose proof (Nat.div_mod_eq n batch) as Hdm.
  pose proof (Nat.mod_upper_bound n batch Hb) as Hr.
  remember (n / batch)%nat as q eqn:Hq. clear Hq.
  remember (n mod batch)%nat as r eqn:Hrem. clear Hrem.
  destruct (r =? 0)%nat eqn:E.
  - apply Nat.eqb_eq in E. subst r.
    destruct q as [|q]; simpl; repeat split; intros; nia.
  - apply Nat.eqb_neq in E.
    replace (q + 1 - 1)%nat with q by lia.
    rewrite (Nat.mul_comm batch q) in Hdm.
    repeat split; intros; try lia.
Qed.

Lemma batch_slice_length {A : Type} (i total_batch batch : nat) (l : list A) :
  length (batch_slice i total_batch batch l) =
  if (i =? total_batch - 1)%nat then (length l - i * batch)%nat
  else (Nat.min ((i + 1) * batch) (length l) - i * batch)%nat.
Proof.
  unfold batch_slice, slice, slice_from.
  destruct (i =? total_batch - 1)%nat.
  - apply length_skipn.
  - now rewrite length_skipn, length_firstn.
Qed.

Lemma concat_batches {A : Type} (total_batch batch : nat) (l : list A) :
  (1 <= total_batch)%nat ->
  concat (map (fun i => batch_slice i total_batch batch l)
              (seq 0 total_batch)) = l.
Proof.
  intros Htb. destruct total_batch as [|t]; [lia|].
  rewrite seq_S, map_app, concat_app. simpl. rewrite app_nil_r.
  rewrite (map_ext_in _ (fun i => firstn batch (skipn (batch * i) l))).
  - rewrite concat_chunks. unfold batch_slice, slice_from.
    replace (S t - 1)%nat with t by lia. rewrite Nat.eqb_refl.
    rewrite (Nat.mul_comm t batch). apply firstn_skipn.
  - intros i Hin. apply in_seq in Hin. unfold batch_slice, slice.
    replace (i =? S t - 1)%nat with false
      by (symmetry; apply Nat.eqb_neq; lia).
    rewrite firstn_skipn_comm, (Nat.mul_comm i batch).
    do 2 f_equal. rewrite Nat.mul_add_distr_r, Nat.mul_1_l.
    now rewrite (Nat.mul_comm i batch).
Qed.

(** X8.  The batches of [PQ_IP_retrieval] split the queries without loss or
    repetition: for a batch size other than 0, the [total_batch] slices put
    end to end are the query list again, every batch but the last has
    exactly [batch] queries, and the last has between 1 and [batch].  The
    loop of [PQ_IP_retrieval] runs over this number of batches. *)
Theorem PQ_batches_partition_queries :
  (forall (A : Type) (l : list A) (batch : nat),
     batch <> 0%nat ->
     let total_batch := batches_for (length l) batch in
     concat (map (fun i => batch_slice i total_batch batch l)
                 (seq 0 total_batch)) = l /\
     (forall i, (i < total_batch - 1)%nat ->
        length (batch_slice i total_batch batch l) = batch) /\
     (forall i, (i < total_batch)%nat ->
        (1 <= length (batch_slice i total_batch batch l) <= batch)%nat))
  /\ (forall index_search qids (query_embs : mat) (query_arg_idxs : imat)
             (corpus_embs : mat) (corpus_arg_idxs : imat) args,
        let cls_dim :=
          (Torch.shape1 query_embs - Torch.shape1 query_arg_idxs)%nat in
        let total_batch := batches_for (length query_embs) (batch args) in
        PQ_IP_retrieval index_search qids query_embs query_arg_idxs
          corpus_embs corpus_arg_idxs args =
        (_ <- faiss_pq_index_path args ;;
         if (batch args =? 0)%nat then None else
         acc <- foldM (PQ_batch index_search args qids query_embs
                         (pad_arg_idxs cls_dim query_arg_idxs) corpus_embs
                         (pad_arg_idxs cls_dim corpus_arg_idxs) total_batch)
                      (seq 0 total_batch) ([], []) ;;
         if (length query_embs =? 0)%nat then None else Some acc)).
Proof.
  split; [|reflexivity].
  intros A l batch Hb total_batch.
  destruct (batches_for_spec (length l) batch Hb) as (Hzero & Hlo & Hhi & Hlt).
  fold total_batch in Hzero, Hlo, Hhi, Hlt.
  split; [|split].
  - destruct (Nat.eq_dec total_batch 0) as [E|E].
    + rewrite E. simpl. symmetry. apply length_zero_iff_nil.
      now apply Hzero.
    + apply concat_batches. lia.
  - intros i Hi. rewrite batch_slice_length.
    replace (i =? total_batch - 1)%nat with false
      by (symmetry; apply Nat.eqb_neq; lia).
    nia.
  - intros i Hi. rewrite batch_slice_length.
    assert (Hn : length l <> 0%nat) by (intros E; apply Hzero in E; lia).
    specialize (Hlt Hn).
    destruct (i =? total_batch - 1)%nat eqn:E.
    + apply Nat.eqb_eq in E. subst i. nia.
    + apply Nat.eqb_neq in E. nia.
Qed.

Lemma PQ_batches_witness :
  2%nat <> 0%nat /\
  concat (map (fun i => batch_slice i (batches_for 5 2) 2 docids5)
              (seq 0 (batches_for 5 2))) = docids5 /\
  batches_for 5 2 = 3%nat /\
  length (batch_slice 2 3 2 docids5) = 1%nat.
Proof.
  split; [discriminate|].
  split; [apply (proj1 PQ_batches_partition_queries string docids5 2%nat);
          discriminate|].
  split; reflexivity.
Defined.

(** ** The scores of the pruned selector *)

Lemma gathered_gated_dot (q : vec) (qa : ivec) (c : vec) (ca : ivec)
  (idx : list nat) :
  Torch.dot
    (Torch.mul_bvec
       (Torch.eq_vec (Torch.gather 0 ca idx) (Torch.gather 0 qa idx))
       (Torch.gather 0 c idx))
    (Torch.gather 0 q idx)
  = fold_right Z.add 0 (map (gated_term q qa c ca) idx).
Proof.
  unfold Torch.gather, gated_term.
  induction idx as [|j idx IH]; simpl; [reflexivity|].
  rewrite IH. destruct (nth j ca 0 =? nth j qa 0); lia.
Qed.

Lemma sum_Permutation (l l' : list Z) :
  Permutation l l' -> fold_right Z.add 0 l = fold_right Z.add 0 l'.
Proof. induction 1; simpl; lia. Qed.

Lemma filter_Permutation {A : Type} (f : A -> bool) (l l' : list A) :
  Permutation l l' -> Permutation (filter f l) (filter f l').
Proof.
  induction 1 as [| x l l' _ IH | x y l | l l' l'' _ IH1 _ IH2]; simpl.
  - constructor.
  - destruct (f x); [now constructor | exact IH].
  - destruct (f x), (f y); try reflexivity. apply perm_swap.
  - now transitivity (filter f l').
Qed.

Lemma sorted_filter_prefix (th : Z) (l : list (Z * nat)) :
  StronglySorted desc l ->
  filter (fun p => th <? fst p) l
  = firstn (length (filter (fun p => th <? fst p) l)) l.
Proof.
  induction 1 as [|h t _ IH Hh]; simpl; [reflexivity|].
  destruct (th <? fst h) eqn:E; simpl.
  - now rewrite <- IH.
  - replace (filter (fun p => th <? fst p) t) with (@nil (Z * nat));
      [reflexivity|].
    symmetry. apply Z.ltb_ge in E. clear IH.
    induction Hh as [|x t Hx _ IHt]; simpl; [reflexivity|].
    unfold desc in Hx.
    replace (th <? fst x) with false by (symmetry; apply Z.ltb_ge; lia).
    exact IHt.
Qed.

Lemma map_fst_combine_seq {A : Type} (l : list A) (b : nat) :
  map fst (combine l (seq b (length l))) = l.
Proof.
  revert b; induction l as [|x l IH]; simpl; intros b; [reflexivity|].
  now rewrite IH.
Qed.

Lemma important_idx_Permutation (q : vec) (th : Z) :
  Permutation
    (firstn (Torch.count_gt q th) (Torch.argsort_desc q))
    (filter (fun j => th <? nth j q 0) (seq 0 (length q))).
Proof.
  unfold Torch.argsort_desc, Torch.count_gt.
  set (C := combine q (seq 0 (length q))).
  set (L := Torch.sort_desc C).
  set (P := fun p : Z * nat => th <? fst p).
  assert (Hnum : length (filter (fun x => th <? x) q) = length (filter P L)).
  { rewrite <- (map_fst_combine_seq q 0) at 1. fold C.
    rewrite filter_map_swap, length_map.
    apply Permutation_length, filter_Permutation, Permutation_sym,
      sort_desc_perm. }
  rewrite Hnum, firstn_map. unfold P, L. clear Hnum P L.
  rewrite <- (sorted_filter_prefix th _ (sort_desc_sorted C)).
  rewrite (Permutation_map snd
             (filter_Permutation (fun p => th <? fst p) _ _
                (sort_desc_perm C))).
  rewrite <- (map_snd_combine_seq q 0) at 1. fold C.
  rewrite filter_map_swap.
  rewrite (filter_ext_in (fun p => th <? fst p)
             (fun a => th <? nth (snd a) q 0)); [reflexivity|].
  intros p Hp.
  pose proof (tagged_combine_seq q 0 q (fun i x H => H)) as Ht.
  unfold tagged in Ht. rewrite Forall_forall in Ht.
  now rewrite (nth_error_nth q (snd p) 0 (Ht p Hp)).
Qed.

Lemma sum_filter (f : nat -> bool) (g : nat -> Z) (l : list nat) :
  fold_right Z.add 0 (map g (filter f l))
  = fold_right Z.add 0 (map (fun j => if f j then g j else 0) l).
Proof.
  induction l as [|j l IH]; simpl; [reflexivity|].
  destruct (f j); simpl; now rewrite IH.
Qed.

Lemma pruned_row (th : Z) (q : vec) (qa : ivec) (c : vec) (ca : ivec) :
  let idx := firstn (Torch.count_gt q th) (Torch.argsort_desc q) in
  Torch.dot
    (Torch.mul_bvec
       (Torch.eq_vec (Torch.gather 0 ca idx) (Torch.gather 0 qa idx))
       (Torch.gather 0 c idx))
    (Torch.gather 0 q idx)
  = pruned_sum th q qa c ca.
Proof.
  intros idx. rewrite gathered_gated_dot. unfold pruned_sum.
  rewrite <- (sum_filter (fun j => th <? nth j q 0)).
  apply sum_Permutation, Permutation_map, important_idx_Permutation.
Qed.

Lemma partial_scores_pruned (args : Args) (th : Z) (q : vec) (qa : ivec)
  (ce : mat) (cargs : imat) :
  IP args = false ->
  partial_scores_of args th q qa ce cargs =
  Some (map (fun '(c, ca) => pruned_sum th q qa c ca) (combine ce cargs)).
Proof.
  intros Hip. unfold partial_scores_of.
  rewrite topk_total
    by (unfold Torch.count_gt; apply filter_length_le).
  simpl. rewrite Hip. simpl. f_equal.
  rewrite gated_scores_combine. unfold Torch.gather_cols.
  revert cargs; induction ce as [|c ce IH]; intros [|ca cargs]; simpl;
    try reflexivity.
  rewrite IH. f_equal. apply pruned_row.
Qed.

(** X9.  On corpus vectors and argument indices as wide as the query and
    parallel to each other, the pruned selector scores a candidate with
    the gated inner product over the important dimensions only: its
    first-stage score is the sum over the dimensions [j] with
    [query[j] > theta] of [candidate[j] * query[j]] where the argument ids
    agree.  Without rerank the rows returned are the best [topk] by this
    score.  If every query entry exceeds [theta], the pruned score is the
    exact gated sum. *)
Theorem pruned_scores_sum_important_dimensions :
  (forall args th (q : vec) (qa : ivec) (corpus_embs : mat) (cargs : imat),
     IP args = false ->
     rectangular (length q) corpus_embs -> rectangular (length q) cargs ->
     length qa = length q -> length cargs = length corpus_embs ->
     let pruned := map (fun '(c, ca) => pruned_sum th q qa c ca)
                       (combine corpus_embs cargs) in
     partial_scores_of args th q qa corpus_embs cargs = Some pruned /\
     (th <> 0 -> rerank args = false ->
      GIP_query args th q qa corpus_embs cargs =
      (idx <- Torch.topk pruned (topk args) ;;
       Some (idx, Torch.gather 0 pruned idx))))
  /\ (forall th (q : vec) (qa : ivec) (c : vec) (ca : ivec),
        Forall (fun x => th < x) q ->
        pruned_sum th q qa c ca = gip_sum q qa c ca).
Proof.
  split.
  - intros args th q qa ce cargs Hip _ _ _ _ pruned.
    pose proof (partial_scores_pruned args th q qa ce cargs Hip) as Hp.
    fold pruned in Hp. split; [exact Hp|].
    intros Hth Hrr. unfold GIP_query.
    apply Z.eqb_neq in Hth. now rewrite Hth, Hp, Hrr.
  - intros th q qa c ca Hall. unfold pruned_sum, gip_sum, gated_term.
    f_equal. apply map_ext_in. intros j Hj. apply in_seq in Hj.
    rewrite Forall_forall in Hall.
    replace (th <? nth j q 0) with true; [reflexivity|].
    symmetry. apply Z.ltb_lt, Hall, nth_In. lia.
Qed.

Lemma pruned_scores_witness :
  IP (cfg 2 1 false 2 3) = false /\
  rectangular 3 [[1; 1; 1]; [2; 2; 2]] /\
  rectangular 3 [[0; 1; 1]; [0; 0; 1]] /\
  partial_scores_of (cfg 2 1 false 2 3) 1 [1; 2; 3] [0; 0; 1]
    [[1; 1; 1]; [2; 2; 2]] [[0; 1; 1]; [0; 0; 1]] = Some [3; 10] /\
  Forall (fun x => 0 < x) [1; 2; 3] /\
  pruned_sum 0 [1; 2; 3] [0; 0; 1] [1; 1; 1] [0; 1; 1]
  = gip_sum [1; 2; 3] [0; 0; 1] [1; 1; 1] [0; 1; 1].
Proof.
  destruct pruned_scores_sum_important_dimensions as [Hpartial Hexact].
  assert (Hc : rectangular 3 [[1; 1; 1]; [2; 2; 2]])
    by (repeat constructor).
  assert (Hca : rectangular 3 [[0; 1; 1]; [0; 0; 1]])
    by (repeat constructor).
  split; [reflexivity|]. split; [exact Hc|]. split; [exact Hca|].
  split; [exact (proj1 (Hpartial (cfg 2 1 false 2 3) 1 [1; 2; 3] [0; 0; 1]
                          [[1; 1; 1]; [2; 2; 2]] [[0; 1; 1]; [0; 0; 1]]
                          eq_refl Hc Hca eq_refl eq_refl))|].
  split; [repeat constructor|].
  apply Hexact. repeat constructor.
Defined.

(** ** Ranks in the ranking file *)

Lemma rows_ranks (args : Args) (docids : list string) (query_id : string)
  (score : vec) (result : list nat) :
  forall b,
    let rows :=
      flat_map (fun '(rank, docidx) =>
                  match nth_error docids docidx, nth_error score rank with
                  | Some docid, Some s =>
                      if negb (String.eqb docid query_id) then
                        [{| line_query_id := query_id; line_docid := docid;
                            line_rank := rank + 1; line_score := s;
                            line_run_name := run_name args |}]
                      else []
                  | _, _ => []
                  end)
               (combine (seq b (length result)) result) in
    StronglySorted lt (map line_rank rows) /\
    Forall (fun r => (b < r <= b + length result)%nat) (map line_rank rows) /\
    (length rows <= length result)%nat.
Proof.
  induction result as [|c result IH]; intros b; simpl.
  - repeat constructor.
  - destruct (IH (S b)) as (Hs & Hb & Hl). fold (@length nat) in *.
    assert (Hb' : Forall (fun r => (b < r <= b + S (length result))%nat)
                    (map line_rank
                       (flat_map
                          (fun '(rank, docidx) =>
                             match nth_error docids docidx,
                                   nth_error score rank with
                             | Some docid, Some s =>
                                 if negb (String.eqb docid query_id) then
                                   [{| line_query_id := query_id;
                                       line_docid := docid;
                                       line_rank := rank + 1;
                                       line_score := s;
                                       line_run_name := run_name args |}]
                                 else []
                             | _, _ => []
                             end)
                          (combine (seq (S b) (length result)) result)))).
    { eapply Forall_impl; [|exact Hb]. simpl. intros; lia. }
    destruct (nth_error docids c) as [docid|]; [|auto with arith].
    destruct (nth_error score b) as [s|]; [|auto with arith].
    destruct (negb (String.eqb docid query_id)); [|auto with arith].
    simpl. split; [|split; [|lia]].
    + constructor; [exact Hs|].
      eapply Forall_impl; [|exact Hb]. simpl. intros; lia.
    + constructor; [lia | exact Hb'].
Qed.

Lemma map_snd_combine_seq_l {A : Type} (l : list A) (b : nat) :
  map snd (combine (seq b (length l)) l) = l.
Proof.
  revert b; induction l as [|x l IH]; simpl; intros b; [reflexivity|].
  now rewrite IH.
Qed.

Lemma rows_all_written (args : Args) (docids : list string)
  (query_id : string) (score : vec) (rows : list (nat * nat)) :
  Forall (fun '(rank, docidx) =>
            exists docid s, nth_error docids docidx = Some docid /\
                            nth_error score rank = Some s /\
                            docid <> query_id) rows ->
  length
    (flat_map (fun '(rank, docidx) =>
                 match nth_error docids docidx, nth_error score rank with
                 | Some docid, Some s =>
                     if negb (String.eqb docid query_id) then
                       [{| line_query_id := query_id; line_docid := docid;
                           line_rank := rank + 1; line_score := s;
                           line_run_name := run_name args |}]
                     else []
                 | _, _ => []
                 end) rows) = length rows.
Proof.
  induction rows as [|[rank docidx] rows IH]; intros H; simpl;
    [reflexivity|].
  inversion H as [|? ? Hhead Hrest]; subst.
  destruct Hhead as (docid & s & Hd & Hs & Hne).
  rewrite Hd, Hs. apply String.eqb_neq in Hne. rewrite Hne. simpl.
  now rewrite IH.
Qed.

Lemma rows_one_dropped (args : Args) (docids : list string)
  (query_id : string) (score : vec) (rows : list (nat * nat)) :
  NoDup docids -> NoDup (map snd rows) ->
  Forall (fun '(rank, docidx) =>
            (docidx < length docids)%nat /\ (rank < length score)%nat) rows ->
  (length rows <=
   length
     (flat_map (fun '(rank, docidx) =>
                  match nth_error docids docidx, nth_error score rank with
                  | Some docid, Some s =>
                      if negb (String.eqb docid query_id) then
                        [{| line_query_id := query_id; line_docid := docid;
                            line_rank := rank + 1; line_score := s;
                            line_run_name := run_name args |}]
                      else []
                  | _, _ => []
                  end) rows) + 1)%nat.
Proof.
  intros Hdocs. induction rows as [|[rank docidx] rows IH];
    intros Hnd Hok; simpl; [lia|].
  simpl in Hnd. inversion Hnd as [|? ? Hnotin Hnd']; subst.
  inversion Hok as [|? ? Hhead Hok']; subst. destruct Hhead as [Hd Hr].
  destruct (nth_error docids docidx) as [docid|] eqn:Ed;
    [|apply nth_error_None in Ed; lia].
  destruct (nth_error score rank) as [s|] eqn:Es;
    [|apply nth_error_None in Es; lia].
  destruct (String.eqb docid query_id) eqn:E; simpl.
  - apply String.eqb_eq in E. subst docid.
    rewrite (rows_all_written args docids query_id score rows); [lia|].
    rewrite Forall_forall in *. intros [rank' docidx'] Hin.
    destruct (Hok' _ Hin) as [Hd' Hr'].
    destruct (nth_error docids docidx') as [docid'|] eqn:Ed';
      [|apply nth_error_None in Ed'; lia].
    destruct (nth_error score rank') as [s'|] eqn:Es';
      [|apply nth_error_None in Es'; lia].
    exists docid', s'. repeat split; auto.
    intros ->. apply Hnotin.
    assert (docidx' = docidx).
    { apply (proj1 (NoDup_nth_error docids) Hdocs); [exact Hd'|].
      now rewrite Ed, Ed'. }
    subst docidx'. apply in_map_iff. now exists (rank', docidx).
  - specialize (IH Hnd' Hok'). lia.
Qed.

Lemma write_query_in_range (args : Args) (docids : list string)
  (query_id : string) (result : list nat) (score : vec)
  (fout out : list Line) :
  write_query args docids query_id result score fout = Some out ->
  Forall (fun c => (c < length docids)%nat) result.
Proof.
  intros H. rewrite Forall_forall. intros c Hc.
  destruct (Nat.lt_ge_cases c (length docids)) as [|Hge]; [assumption|].
  apply In_nth_error in Hc as (rank & Hrank).
  apply nth_error_In_enumerate in Hrank.
  unfold write_query in H.
  rewrite (foldM_None _ _ _ Hrank) in H; [discriminate|].
  intros s. simpl. now rewrite (proj2 (nth_error_None docids c) Hge).
Qed.

(** X10.  What [write_query] appends for one query: the lines already in the
    file stay, and in the block appended the ranks grow strictly, lie
    between 1 and the number of ranked rows, and there are no more lines
    than ranked rows.  When the document ids are pairwise distinct and the
    ranked rows are distinct, with a score each, at most one row - the
    query's own document - is missing from the block. *)
Theorem written_ranks_increase_one_row_dropped :
  forall args docids query_id (result : list nat) (score : vec)
         (fout out : list Line),
    write_query args docids query_id result score fout = Some out ->
    exists rows,
      out = fout ++ rows /\
      StronglySorted lt (map line_rank rows) /\
      Forall (fun r => (1 <= r <= length result)%nat) (map line_rank rows) /\
      (length rows <= length result)%nat /\
      (NoDup docids -> NoDup result ->
       (length result <= length score)%nat ->
       (length result <= length rows + 1)%nat).
Proof.
  intros args docids query_id result score fout out Hrun.
  pose proof (write_query_in_range _ _ _ _ _ _ _ Hrun) as Hrange.
  apply write_query_rows in Hrun.
  exists (written_rows args docids query_id result score).
  split; [exact Hrun|].
  destruct (rows_ranks args docids query_id score result 0)
    as (Hs & Hb & Hl).
  split; [exact Hs|]. split; [|split; [exact Hl|]].
  - eapply Forall_impl; [|exact Hb]. simpl. intros; lia.
  - intros Hdocs Hres Hlen.
    pose proof (rows_one_dropped args docids query_id score
                  (enumerate result) Hdocs) as H.
    rewrite enumerate_length in H. apply H.
    + unfold enumerate. now rewrite map_snd_combine_seq_l.
    + rewrite Forall_forall in *. intros [rank docidx] Hin.
      pose proof (In_nth_error_enumerate _ _ _ Hin).
      apply In_enumerate, nth_error_In in Hin.
      split; [now apply Hrange | lia].
Qed.

Lemma written_ranks_witness :
  write_query (shard_cfg 1 0) ["d0"; "q1"; "d2"]%string "q1"
    [0%nat; 1%nat; 2%nat] [3; 2; 1] []
  = Some [ {| line_query_id := "q1"; line_docid := "d0"; line_rank := 1;
              line_score := 3; line_run_name := "run" |};
           {| line_query_id := "q1"; line_docid := "d2"; line_rank := 3;
              line_score := 1; line_run_name := "run" |} ] /\
  exists rows,
    [ {| line_query_id := "q1"; line_docid := "d0"; line_rank := 1;
         line_score := 3; line_run_name := "run" |};
      {| line_query_id := "q1"; line_docid := "d2"; line_rank := 3;
         line_score := 1; line_run_name := "run" |} ] = [] ++ rows /\
    StronglySorted lt (map line_rank rows) /\
    (length rows <= length [0%nat; 1%nat; 2%nat])%nat.
Proof.
  split; [reflexivity|].
  destruct (written_ranks_increase_one_row_dropped (shard_cfg 1 0)
              ["d0"; "q1"; "d2"]%string "q1"%string [0%nat; 1%nat; 2%nat]
              [3; 2; 1] []
              [ {| line_query_id := "q1"; line_docid := "d0";
                   line_rank := 1; line_score := 3;
                   line_run_name := "run" |};
                {| line_query_id := "q1"; line_docid := "d2";
                   line_rank := 3; line_score := 1;
                   line_run_name := "run" |} ] eq_refl)
    as (rows & Hout & Hsorted & _ & Hlen & _).
  exists rows. auto.
Defined.

(** ** [cal_remove_dim] *)

(** X11.  For a positive block width, [cal_remove_dim] returns an offset [r]
    such that [vocab_size - r] is a multiple of [dims]: dropping [r]
    leading columns (or, for negative [r], appending [-r] columns) leaves a
    width that folds into blocks of [dims].  The offset is at most 1000 and
    above [-dims], and it is negative exactly when the remainder exceeds
    1000.  A zero width raises.  For the default vocabulary and the doubled
    default width the offset is the default [remove_dims = -198] of
    [aggregate]. *)
Theorem cal_remove_dim_makes_width_divisible :
  (forall dims vocab_size,
     0 < dims ->
     exists r,
       cal_remove_dim dims vocab_size = Some r /\
       (vocab_size - r) mod dims = 0 /\
       - dims < r /\ r <= 1000 /\ r < dims /\
       (r < 0 <-> 1000 < vocab_size mod dims))
  /\ (forall vocab_size, cal_remove_dim 0 vocab_size = None)
  /\ cal_remove_dim (640 * 2) 30522 = Some (-198).
Proof.
  split; [|split; reflexivity].
  intros dims vocab Hd. unfold cal_remove_dim.
  replace (dims =? 0) with false by (symmetry; apply Z.eqb_neq; lia).
  pose proof (Z.mod_pos_bound vocab dims Hd) as Hm.
  pose proof (Z.div_mod vocab dims ltac:(lia)) as Hdm.
  destruct (1000 <? vocab mod dims) eqn:E.
  - apply Z.ltb_lt in E. eexists. split; [reflexivity|].
    split.
    + replace (vocab - (vocab mod dims - dims))
        with ((vocab / dims + 1) * dims) by lia.
      apply Z_mod_mult.
    + lia.
  - apply Z.ltb_ge in E. eexists. split; [reflexivity|].
    split.
    + replace (vocab - vocab mod dims) with ((vocab / dims) * dims) by lia.
      apply Z_mod_mult.
    + lia.
Qed.

Lemma cal_remove_dim_witness :
  0 < 640 /\
  exists r,
    cal_remove_dim 640 30522 = Some r /\ (30522 - r) mod 640 = 0 /\
    - 640 < r /\ r <= 1000 /\ r < 640 /\ (r < 0 <-> 1000 < 30522 mod 640).
Proof.
  split; [lia|].
  apply (proj1 cal_remove_dim_makes_width_divisible 640 30522). lia.
Defined.

(** ** Rerank over the whole corpus *)

Lemma sorted_Permutation_unique (l1 l2 : list Z) :
  StronglySorted (fun a b => b <= a) l1 ->
  StronglySorted (fun a b => b <= a) l2 ->
  Permutation l1 l2 -> l1 = l2.
Proof.
  intros H1; revert l2; induction H1 as [|a l1 _ IH Ha];
    intros l2 H2 Hperm.
  - apply Permutation_nil in Hperm. now subst.
  - destruct H2 as [|b l2 H2 Hb].
    + apply Permutation_sym, Permutation_nil in Hperm. discriminate.
    + assert (Hab : a = b).
      { rewrite Forall_forall in Ha, Hb.
        assert (In b (a :: l1))
          by (eapply Permutation_in;
              [apply Permutation_sym; exact Hperm | now left]).
        assert (In a (b :: l2))
          by (eapply Permutation_in; [exact Hperm | now left]).
        destruct H as [->|H]; [reflexivity|].
        destruct H0 as [->|H0]; [reflexivity|].
        specialize (Ha b H). specialize (Hb a H0). lia. }
      subst b. f_equal. apply IH; [exact H2|].
      eapply Permutation_cons_inv; exact Hperm.
Qed.

Lemma gather_seq_from (pre v : vec) :
  Torch.gather 0 (pre ++ v) (seq (length pre) (length v)) = v.
Proof.
  unfold Torch.gather. revert pre; induction v as [|x v IH]; intros pre;
    simpl; [reflexivity|].
  rewrite nth_middle. f_equal.
  replace (pre ++ x :: v) with ((pre ++ [x]) ++ v)
    by (rewrite <- app_assoc; reflexivity).
  replace (S (length pre)) with (length (pre ++ [x]))
    by (rewrite length_app; simpl; lia).
  apply IH.
Qed.

Lemma gather_Permutation (v : vec) (idx : list nat) :
  Permutation idx (seq 0 (length v)) ->
  Permutation (Torch.gather 0 v idx) v.
Proof.
  intros H. rewrite <- (gather_seq_from [] v) at 2.
  unfold Torch.gather. simpl. now apply Permutation_map.
Qed.

Lemma topk_values (v : vec) (k : nat) (idx : list nat) :
  Torch.topk v k = Some idx ->
  Torch.gather 0 v idx
  = firstn k (map fst (Torch.sort_desc (combine v (seq 0 (length v))))).
Proof.
  intros H. apply topk_Some in H as [_ ->].
  rewrite gather_firstn. f_equal.
  unfold Torch.argsort_desc. apply tagged_values, sorted_tagged.
Qed.

Lemma sorted_values_Permutation (v w : vec) :
  Permutation v w ->
  map fst (Torch.sort_desc (combine v (seq 0 (length v))))
  = map fst (Torch.sort_desc (combine w (seq 0 (length w)))).
Proof.
  intros H. apply sorted_Permutation_unique.
  - apply desc_sorted_fst, sort_desc_sorted.
  - apply desc_sorted_fst, sort_desc_sorted.
  - rewrite (Permutation_map fst (sort_desc_perm _)), map_fst_combine_seq.
    rewrite (Permutation_map fst (sort_desc_perm _)), map_fst_combine_seq.
    exact H.
Qed.

Lemma partial_scores_total (args : Args) (th : Z) (q : vec) (qa : ivec)
  (ce : mat) (cargs : imat) :
  exists p, partial_scores_of args th q qa ce cargs = Some p.
Proof.
  unfold partial_scores_of.
  rewrite topk_total by (unfold Torch.count_gt; apply filter_length_le).
  simpl. destruct (negb (IP args)); eauto.
Qed.

(** X12.  When the shortlist is the whole corpus ([agip_topk] equal to the number
    of corpus rows), rerank gives the scores of brute force: whatever the
    first stage (pruned GIP or plain inner product) and whatever [theta],
    the score list returned is the one the [theta = 0] search returns. *)
Theorem rerank_of_whole_corpus_gives_brute_force_scores :
  forall args th (q : vec) (qa : ivec) (corpus_embs : mat) (cargs : imat),
    th <> 0 -> rerank args = true ->
    agip_topk args = length corpus_embs ->
    (topk args <= length corpus_embs)%nat ->
    rectangular (length q) corpus_embs -> rectangular (length q) cargs ->
    length qa = length q -> length cargs = length corpus_embs ->
    exists r r' s,
      GIP_query args th q qa corpus_embs cargs = Some (r, s) /\
      GIP_query args 0 q qa corpus_embs cargs = Some (r', s).
Proof.
  intros args th q qa ce cargs Hth Hrr Hagip Hk He Ha Hqa Hlen.
  rewrite GIP_query_brute_force by assumption.
  unfold GIP_query, brute_force_reference.
  apply Z.eqb_neq in Hth. rewrite Hth, Hrr.
  destruct (partial_scores_total args th q qa ce cargs) as (p & Hp).
  rewrite Hp. simpl.
  pose proof (partial_scores_length _ _ _ _ _ _ _ Hlen Hp) as Hpl.
  rewrite topk_total by lia. simpl.
  set (cands := firstn (agip_topk args) (Torch.argsort_desc p)).
  assert (Hperm : Permutation cands (seq 0 (length ce))).
  { unfold cands. rewrite Hagip, <- Hpl, <- (argsort_desc_length p).
    rewrite firstn_all, argsort_desc_length. apply argsort_desc_perm. }
  assert (Hrange : Forall (fun c => (c < length ce)%nat) cands).
  { apply (Permutation_Forall (Permutation_sym Hperm)).
    rewrite Forall_forall. intros c Hc. apply in_seq in Hc. lia. }
  rewrite rerank_shortlist_reference by assumption.
  unfold shortlist_reference.
  set (exact := exact_GIP_scores q qa ce cargs).
  assert (Hel : length exact = length ce)
    by (unfold exact; now apply exact_scores_length).
  assert (Hcl : length cands = length ce)
    by (rewrite (Permutation_length Hperm); apply length_seq).
  destruct (Torch.topk (Torch.gather 0 exact cands) (topk args))
    as [idx|] eqn:Hidx.
  2:{ apply topk_None in Hidx. rewrite gather_length in Hidx. lia. }
  destruct (Torch.topk exact (topk args)) as [idx'|] eqn:Hidx'.
  2:{ apply topk_None in Hidx'. lia. }
  simpl. do 3 eexists. split; [reflexivity|].
  do 2 f_equal.
  rewrite (topk_values _ _ _ Hidx), (topk_values _ _ _ Hidx').
  f_equal. symmetry. apply sorted_values_Permutation.
  apply gather_Permutation. now rewrite Hel.
Qed.

Lemma rerank_of_whole_corpus_witness :
  1 <> 0 /\ rerank (cfg 2 1 true 3 3) = true /\
  agip_topk (cfg 2 1 true 3 3) = length corpus3 /\
  exists r r' s,
    GIP_query (cfg 2 1 true 3 3) 1 [1; 2; 3] [0; 0; 1] corpus3 cargs3
    = Some (r, s) /\
    GIP_query (cfg 2 1 true 3 3) 0 [1; 2; 3] [0; 0; 1] corpus3 cargs3
    = Some (r', s).
Proof.
  split; [discriminate|]. split; [reflexivity|]. split; [reflexivity|].
  apply (rerank_of_whole_corpus_gives_brute_force_scores (cfg 2 1 true 3 3)
           1 [1; 2; 3] [0; 0; 1] corpus3 cargs3);
    try reflexivity; try discriminate; try (simpl; lia);
    repeat constructor.
Defined.

(** ** The [IP] switch without rerank *)

Lemma GIP_query_IP_switch (args : Args) (th : Z) (q : vec) (a : ivec)
  (ce : mat) (cargs : imat) :
  th <> 0 -> IP args = true -> rerank args = false ->
  GIP_query args th q a ce cargs =
  if (topk args <=? length ce)%nat then Some (IP_query args q ce) else None.
Proof.
  intros Hth Hip Hrr. unfold GIP_query, partial_scores_of.
  apply Z.eqb_neq in Hth. rewrite Hth.
  rewrite topk_total by (unfold Torch.count_gt; apply filter_length_le).
  simpl. rewrite Hip, Hrr. simpl.
  unfold Torch.topk, Torch.einsum_ij_j. rewrite length_map.
  destruct (topk args <=? length ce)%nat; reflexivity.
Qed.

Lemma foldM_combine_ignore {X Y S : Type} (F : S -> nat -> X -> option S)
  (l : list X) :
  forall (l2 : list Y) b acc,
    length l2 = length l ->
    foldM (fun acc '(i, (x, _)) => F acc i x)
          (combine (seq b (length (combine l l2))) (combine l l2)) acc
    = foldM (fun acc '(i, x) => F acc i x)
            (combine (seq b (length l)) l) acc.
Proof.
  induction l as [|x l IH]; intros [|y l2] b acc Hlen; simpl in *;
    try discriminate; try reflexivity.
  destruct (F acc b x); simpl; [|reflexivity].
  apply IH. lia.
Qed.

(** X13.  With the [IP] switch on, rerank off and [theta] not 0, [GIP_retrieval]
    ignores the argument indices altogether.  On query and corpus vectors
    of one width, when no query gives two corpus rows the same inner
    product (so that [torch.topk] and [torch.argsort] have one possible
    answer each), and as long as [topk] does not exceed the number of
    corpus rows, it returns exactly what [IP_retrieval] returns.  (Beyond
    that size it raises, where [IP_retrieval] returns the shorter
    list.) *)
Theorem GIP_with_IP_switch_is_IP_retrieval :
  forall qids (query_embs : mat) (query_arg_idxs : imat) (corpus_embs : mat)
         (corpus_arg_idxs : imat) args D,
    rectangular D query_embs -> rectangular D corpus_embs ->
    Forall (fun q => NoDup (map (ip_sum q) corpus_embs)) query_embs ->
    brute_force args = false -> theta args <> 0 ->
    IP args = true -> rerank args = false ->
    length query_arg_idxs = length query_embs ->
    (topk args <= length corpus_embs)%nat ->
    GIP_retrieval qids query_embs query_arg_idxs corpus_embs corpus_arg_idxs
      args
    = IP_retrieval qids query_embs corpus_embs args.
Proof.
  intros qids qe qa ce ca args D _ _ _ Hbf Hth Hip Hrr Hlen Hk.
  unfold GIP_retrieval, IP_retrieval. cbv zeta.
  assert (Heff : effective_theta args = theta args)
    by (unfold effective_theta; now rewrite Hbf).
  rewrite Heff. f_equal. unfold enumerate.
  rewrite (foldM_ext _
             (fun acc '(i, (q, _)) =>
                store qids i acc (IP_query args q ce))).
  - apply (foldM_combine_ignore
             (fun acc i q => store qids i acc (IP_query args q ce))).
    now rewrite pad_arg_idxs_length.
  - intros s [i [q a]] _.
    rewrite GIP_query_IP_switch by assumption.
    apply Nat.leb_le in Hk. now rewrite Hk.
Qed.

Lemma GIP_with_IP_switch_witness :
  rectangular 3 [[1; 2; 3]] /\ rectangular 3 corpus3 /\
  Forall (fun q => NoDup (map (ip_sum q) corpus3)) [[1; 2; 3]] /\
  theta (shard_cfg_ip 2) <> 0 /\
  length [[0; 0; 1]] = length [[1; 2; 3]] /\
  (topk (shard_cfg_ip 2) <= length corpus3)%nat /\
  GIP_retrieval ["q"%string] [[1; 2; 3]] [[0; 0; 1]] corpus3 cargs3
    (shard_cfg_ip 2)
  = IP_retrieval ["q"%string] [[1; 2; 3]] corpus3 (shard_cfg_ip 2) /\
  IP_retrieval ["q"%string] [[1; 2; 3]] corpus3 (shard_cfg_ip 2)
  = Some ([("q"%string, [1%nat; 2%nat])], [("q"%string, [12; 10])]).
Proof.
  assert (Hq : rectangular 3 [[1; 2; 3]]) by (repeat constructor).
  assert (Hc : rectangular 3 corpus3) by (repeat constructor).
  assert (Hties : Forall (fun q => NoDup (map (ip_sum q) corpus3))
                    [[1; 2; 3]]).
  { repeat constructor; simpl; intuition discriminate. }
  split; [exact Hq|]. split; [exact Hc|]. split; [exact Hties|].
  split; [discriminate|]. split; [reflexivity|]. split; [simpl; lia|].
  split; [|reflexivity].
  apply (GIP_with_IP_switch_is_IP_retrieval ["q"%string] [[1; 2; 3]]
           [[0; 0; 1]] corpus3 cargs3 (shard_cfg_ip 2) 3%nat Hq Hc Hties);
    try reflexivity; try discriminate; simpl; lia.
Defined.

(** ** When a reranked query is answered *)

(** X14.  With [theta] not 0 and rerank on, a query over parallel corpus
    arrays as wide as the query is answered exactly when
    [topk <= agip_topk <= N]: the shortlist must fit into the corpus and
    the final selection into the shortlist; otherwise one of the two
    [torch.topk] calls raises. *)
Theorem reranked_query_returns_iff :
  forall args th (q : vec) (qa : ivec) (corpus_embs : mat) (cargs : imat),
    th <> 0 -> rerank args = true ->
    rectangular (length q) corpus_embs -> rectangular (length q) cargs ->
    length qa = length q ->
    length cargs = length corpus_embs ->
    ((exists r s, GIP_query args th q qa corpus_embs cargs = Some (r, s))
     <-> (topk args <= agip_topk args)%nat /\
         (agip_topk args <= length corpus_embs)%nat).
Proof.
  intros args th q qa ce cargs Hth Hrr _ _ _ Hlen.
  unfold GIP_query. apply Z.eqb_neq in Hth. rewrite Hth, Hrr.
  destruct (partial_scores_total args th q qa ce cargs) as (p & Hp).
  rewrite Hp. simpl.
  pose proof (partial_scores_length _ _ _ _ _ _ _ Hlen Hp) as Hpl.
  split.
  - intros (r & s & H).
    apply bind_Some in H as (cands & Hc & H).
    pose proof (topk_Some _ _ _ Hc) as [Hagip _].
    pose proof (topk_length _ _ _ Hc) as Hcl.
    split; [|lia].
    destruct (Nat.le_gt_cases (topk args) (agip_topk args)) as [|Hlt];
      [assumption|].
    rewrite rerank_shortlist_short in H by lia. discriminate.
  - intros [Hk Hagip].
    rewrite topk_total by lia. simpl.
    set (cands := firstn (agip_topk args) (Torch.argsort_desc p)).
    assert (Hcl : length cands = agip_topk args).
    { unfold cands. rewrite length_firstn, argsort_desc_length. lia. }
    assert (Hrange : Forall (fun c => (c < length ce)%nat) cands).
    { rewrite Forall_forall. intros c Hc. unfold cands in Hc.
      apply firstn_In, argsort_desc_In in Hc. lia. }
    unfold rerank_shortlist.
    destruct (select_rows_total cargs cands) as (ar & Har);
      [now rewrite Hlen|].
    destruct (select_rows_total ce cands Hrange) as (er & Her).
    rewrite Har, Her. simpl.
    rewrite topk_total.
    + simpl. eauto.
    + rewrite gated_scores_length.
      * rewrite (select_rows_length _ _ _ Her). lia.
      * now rewrite (select_rows_length _ _ _ Har),
                    (select_rows_length _ _ _ Her).
Qed.

Lemma reranked_query_witness :
  1 <> 0 /\ rerank (cfg 2 1 true 3 3) = true /\
  rectangular 3 corpus3 /\ rectangular 3 cargs3 /\
  length cargs3 = length corpus3 /\
  (topk (cfg 2 1 true 3 3) <= agip_topk (cfg 2 1 true 3 3))%nat /\
  (agip_topk (cfg 2 1 true 3 3) <= length corpus3)%nat /\
  exists r s,
    GIP_query (cfg 2 1 true 3 3) 1 [1; 2; 3] [0; 0; 1] corpus3 cargs3
    = Some (r, s).
Proof.
  assert (Hc : rectangular 3 corpus3) by (repeat constructor).
  assert (Hca : rectangular 3 cargs3) by (repeat constructor).
  split; [discriminate|]. split; [reflexivity|].
  split; [exact Hc|]. split; [exact Hca|]. split; [reflexivity|].
  split; [simpl; lia|]. split; [simpl; lia|].
  apply (proj2 (reranked_query_returns_iff (cfg 2 1 true 3 3) 1 [1; 2; 3]
                  [0; 0; 1] corpus3 cargs3 ltac:(discriminate) eq_refl
                  Hc Hca eq_refl eq_refl)).
  simpl; lia.
Defined.
